(** * Image sorter v1.10: file-name codec, category resolution, path planning
      and conflict handling

    A shallow embedding of [フォルダ仕分けv1.10.py].  Python [str] values are
    lists of Unicode code points, [pathlib] paths are an anchor with a list
    of components, the directory tree is a finite map from paths to nodes,
    and the body of the [for f in sorted(files)] loop of [main] is a function
    on an explicit run state. *)

From Stdlib Require Import ZArith NArith List String Ascii Lia Bool.
From Stdlib Require Import DecimalNat DecimalString.
From stdpp Require Import gmap list.
Import ListNotations.

Local Open Scope N_scope.

(** ** Strings *)

(** A Python [str]: the sequence of its code points. *)
Abbreviation str := (list N).

(** An ASCII literal as a [str]. *)
Fixpoint lit (s : string) : str :=
  match s with
  | EmptyString => []
  | String a s' => N_of_ascii a :: lit s'
  end.

Definition c_us : N := 95.   (* "_" *)
Definition c_dot : N := 46.  (* "." *)
Definition c_nl : N := 10.   (* "\n" *)
Definition c_slash : N := 47.      (* "/" *)
Definition c_backslash : N := 92.  (* "\\" *)
Definition c_fullwidth_us : N := 0xFF3F.  (* "＿" *)
Definition c_middle_dot : N := 0xB7.      (* "·" *)
Definition c_katakana_dot : N := 0x30FB.  (* "・" *)

(** [str.isspace] on one character, which is also the class [\s] of [re] on
    [str] patterns. *)
Definition is_space (c : N) : bool :=
  ((9 <=? c) && (c <=? 13)) || ((28 <=? c) && (c <=? 32))
  || (c =? 0x85) || (c =? 0xA0) || (c =? 0x1680)
  || ((0x2000 <=? c) && (c <=? 0x200A))
  || (c =? 0x2028) || (c =? 0x2029) || (c =? 0x202F) || (c =? 0x205F)
  || (c =? 0x3000).

(** The class [\d] of [re] on [str] patterns: the decimal digits (category
    Nd) of the Unicode database of CPython 3.11, as runs (first, length). *)
Definition Nd_runs : list (N * N) :=
  [ (0x30, 10); (0x660, 10); (0x6f0, 10); (0x7c0, 10); (0x966, 10);
    (0x9e6, 10); (0xa66, 10); (0xae6, 10); (0xb66, 10); (0xbe6, 10);
    (0xc66, 10); (0xce6, 10); (0xd66, 10); (0xde6, 10); (0xe50, 10);
    (0xed0, 10); (0xf20, 10); (0x1040, 10); (0x1090, 10); (0x17e0, 10);
    (0x1810, 10); (0x1946, 10); (0x19d0, 10); (0x1a80, 10); (0x1a90, 10);
    (0x1b50, 10); (0x1bb0, 10); (0x1c40, 10); (0x1c50, 10); (0xa620, 10);
    (0xa8d0, 10); (0xa900, 10); (0xa9d0, 10); (0xa9f0, 10); (0xaa50, 10);
    (0xabf0, 10); (0xff10, 10); (0x104a0, 10); (0x10d30, 10); (0x11066, 10);
    (0x110f0, 10); (0x11136, 10); (0x111d0, 10); (0x112f0, 10); (0x11450, 10);
    (0x114d0, 10); (0x11650, 10); (0x116c0, 10); (0x11730, 10); (0x118e0, 10);
    (0x11950, 10); (0x11c50, 10); (0x11d50, 10); (0x11da0, 10); (0x16a60, 10);
    (0x16ac0, 10); (0x16b50, 10); (0x1d7ce, 50); (0x1e140, 10); (0x1e2f0, 10);
    (0x1e950, 10); (0x1fbf0, 10) ].

Definition is_digit (c : N) : bool :=
  existsb (fun r => (fst r <=? c) && (c <? fst r + snd r)) Nd_runs.

(** [s.replace(a, b)] for one-character [a] and [b]. *)
Definition replace_char (a b : N) (s : str) : str :=
  map (fun c => if c =? a then b else c) s.

(** [s.replace(a, "")] for a one-character [a]. *)
Definition remove_char (a : N) (s : str) : str :=
  List.filter (fun c => negb (c =? a)) s.

(** [s.lstrip()]. *)
Fixpoint drop_space (s : str) : str :=
  match s with
  | [] => []
  | c :: s' => if is_space c then drop_space s' else s
  end.

(** [s.strip()]. *)
Definition strip (s : str) : str := rev (drop_space (rev (drop_space s))).

(** [re.sub(pat, repl, s)] for a pattern that never matches the empty
    string: [m s] is [Some rest] when [pat] matches at the head of [s] and
    [rest] follows the match.  The scan goes left to right; a match is
    replaced and the scan resumes after it, otherwise one character is
    copied.  A match consumes a character, so [length s] steps suffice. *)
Fixpoint re_sub_from (fuel : nat) (m : str -> option str) (repl s : str) : str :=
  match fuel, s with
  | S k, c :: s' =>
      match m s with
      | Some rest => repl ++ re_sub_from k m repl rest
      | None => c :: re_sub_from k m repl s'
      end
  | _, _ => []
  end.

Definition re_sub (m : str -> option str) (repl s : str) : str :=
  re_sub_from (length s) m repl s.

(** The pattern [\s*_\s*] at the head of [s]. *)
Definition match_ws_us (s : str) : option str :=
  match drop_space s with
  | c :: r => if c =? c_us then Some (drop_space r) else None
  | [] => None
  end.

(** The pattern [\s+\.] at the head of [s]. *)
Definition match_ws_dot (s : str) : option str :=
  match s with
  | c :: r =>
      if is_space c then
        match drop_space r with
        | d :: r' => if d =? c_dot then Some r' else None
        | [] => None
        end
      else None
  | [] => None
  end.

Definition normalize_filename (name : str) : str :=
  let name := remove_char c_katakana_dot
                (remove_char c_middle_dot
                   (replace_char c_fullwidth_us c_us name)) in
  let name := re_sub match_ws_us [c_us] name in
  let name := re_sub match_ws_dot [c_dot] name in
  strip name.

(** ** NAME_RE *)

(** [\d{n}] at the head of [s]: the digits and the rest. *)
Fixpoint digits (n : nat) (s : str) : option (str * str) :=
  match n with
  | O => Some ([], s)
  | S k =>
      match s with
      | c :: s' =>
          if is_digit c then
            match digits k s' with
            | Some (d, r) => Some (c :: d, r)
            | None => None
            end
          else None
      | [] => None
      end
  end.

(** The literal [_] at the head of [s]. *)
Definition underscore (s : str) : option str :=
  match s with
  | c :: r => if c =? c_us then Some r else None
  | [] => None
  end.

(** The longest run of characters other than [_] at the head of [s]. *)
Fixpoint span_not_us (s : str) : str * str :=
  match s with
  | [] => ([], [])
  | c :: s' =>
      if c =? c_us then ([], s)
      else let '(f, r) := span_not_us s' in (c :: f, r)
  end.

(** [[^_]+_] at the head of [s].  The greedy run has to stop at the first
    underscore: giving back characters leaves a non-underscore where [_] is
    required. *)
Definition field (s : str) : option (str * str) :=
  match span_not_us s with
  | (c :: f, r) =>
      match underscore r with
      | Some r' => Some (c :: f, r')
      | None => None
      end
  | ([], _) => None
  end.

(** One pattern letter [p] (lower case) against [c] under [re.IGNORECASE]:
    the letter, its capital, and for [i] also U+0130 and U+0131. *)
Definition ci_char (p c : N) : bool :=
  (c =? p) || (c + 32 =? p)
  || ((p =? 105) && ((c =? 0x130) || (c =? 0x131))).

(** A literal word under [re.IGNORECASE] at the head of [s]: the text
    matched and the rest. *)
Fixpoint ci_word (p s : str) : option (str * str) :=
  match p with
  | [] => Some ([], s)
  | a :: p' =>
      match s with
      | c :: s' =>
          if ci_char a c then
            match ci_word p' s' with
            | Some (w, r) => Some (c :: w, r)
            | None => None
            end
          else None
      | [] => None
      end
  end.

(** [$] without [re.MULTILINE]: the end of the string, or just before a
    newline that ends it. *)
Definition at_end (s : str) : bool :=
  match s with
  | [] => true
  | [c] => c =? c_nl
  | _ => false
  end.

Definition ext_alternatives : list str :=
  [lit "png"; lit "jpg"; lit "jpeg"; lit "webp"; lit "bmp"; lit "gif"].

(** [(?P<ext>png|jpg|jpeg|webp|bmp|gif)$]: the alternatives in order. *)
Fixpoint ext_alt (alts : list str) (s : str) : option str :=
  match alts with
  | [] => None
  | a :: alts' =>
      match ci_word a s with
      | Some (w, r) => if at_end r then Some w else ext_alt alts' s
      | None => ext_alt alts' s
      end
  end.

(** [\.(?P<ext>...)$]. *)
Definition dot_ext (s : str) : option str :=
  match s with
  | c :: r => if c =? c_dot then ext_alt ext_alternatives r else None
  | [] => None
  end.

(** [_?\.(?P<ext>...)$]: the underscore is tried first (greedy). *)
Definition opt_us_dot_ext (s : str) : option str :=
  match underscore s with
  | Some r =>
      match dot_ext r with
      | Some e => Some e
      | None => dot_ext s
      end
  | None => dot_ext s
  end.

(** [(?:_\d{5})?_?\.(?P<ext>...)$]: the group is tried first (greedy). *)
Definition opt_num2 (s : str) : option str :=
  match underscore s with
  | Some r =>
      match digits 5 r with
      | Some (_, r') =>
          match opt_us_dot_ext r' with
          | Some e => Some e
          | None => opt_us_dot_ext s
          end
      | None => opt_us_dot_ext s
      end
  | None => opt_us_dot_ext s
  end.

(** [_(?P<num>\d{5})(?:_\d{5})?_?\.(?P<ext>...)$]: num and ext. *)
Definition name_tail (s : str) : option (str * str) :=
  match underscore s with
  | Some r =>
      match digits 5 r with
      | Some (num, r') =>
          match opt_num2 r' with
          | Some e => Some (num, e)
          | None => None
          end
      | None => None
      end
  | None => None
  end.

(** [(?P<middle>.+?)] followed by the tail: the lazy group takes one
    character ([.] is anything but a newline), tries the tail, and grows by
    one character on failure.  [acc] is what the group holds so far. *)
Fixpoint middle_lazy (acc s : str) : option (str * str * str) :=
  match s with
  | [] => None
  | c :: s' =>
      if c =? c_nl then None
      else
        match name_tail s' with
        | Some (num, e) => Some (acc ++ [c], num, e)
        | None => middle_lazy (acc ++ [c]) s'
        end
  end.

(** The groups of a match of [NAME_RE], as [m.groupdict()]. *)
Record groupdict := {
  g_date : str; g_content : str; g_char : str; g_face : str;
  g_middle : str; g_num : str; g_ext : str }.

(** [NAME_RE.match(s)]. *)
Definition NAME_RE (s : str) : option groupdict :=
  match digits 8 s with
  | Some (date, r0) =>
    match underscore r0 with
    | Some r1 =>
      match field r1 with
      | Some (content, r2) =>
        match field r2 with
        | Some (char, r3) =>
          match field r3 with
          | Some (face, r4) =>
            match middle_lazy [] r4 with
            | Some (middle, num, ext) =>
                Some {| g_date := date; g_content := content; g_char := char;
                        g_face := face; g_middle := middle; g_num := num;
                        g_ext := ext |}
            | None => None
            end
          | None => None
          end
        | None => None
        end
      | None => None
      end
    | None => None
    end
  | None => None
  end.

(** [str.lower] on one character of those the ext group can hold: a capital
    ASCII letter, U+0130 (which lowers to "i" and U+0307), or a character
    that is its own lower case. *)
Definition lower_char (c : N) : str :=
  if (65 <=? c) && (c <=? 90) then [c + 32]
  else if c =? 0x130 then [105; 0x307]
  else [c].

Definition lower (s : str) : str := flat_map lower_char s.

(** The tuple [parse_filename] returns. *)
Record parsed := {
  p_date : str; p_content : str; p_char : str; p_face : str;
  p_middle : str; p_num : str; p_ext : str }.

Definition parse_filename (name : str) : option parsed :=
  let norm := normalize_filename name in
  match NAME_RE norm with
  | None => None
  | Some d =>
      Some {| p_date := g_date d; p_content := g_content d;
              p_char := g_char d; p_face := g_face d;
              p_middle := g_middle d; p_num := g_num d;
              p_ext := lower (g_ext d) |}
  end.

Definition build_canonical_name (p : parsed) : str :=
  p_date p ++ [c_us] ++ p_content p ++ [c_us] ++ p_char p ++ [c_us]
  ++ p_face p ++ [c_us] ++ p_middle p ++ [c_us] ++ p_num p
  ++ [c_dot] ++ p_ext p.

(** [render(parse(name))]. *)
Definition canonicalize (name : str) : option str :=
  option_map build_canonical_name (parse_filename name).

(** ** pathlib (POSIX flavour) *)

(** A [Path]: the root ("", "/" or "//") and the components. *)
Record Path := { anchor : str; parts : list str }.

#[global] Instance Path_eq_dec : EqDecision Path.
Proof. solve_decision. Defined.

#[global] Instance Path_countable : Countable Path :=
  inj_countable' (fun p => (anchor p, parts p))
                 (fun ap => {| anchor := fst ap; parts := snd ap |})
                 (fun p => match p with Build_Path _ _ => eq_refl end).

(** [s.split(sep)] for a one-character separator. *)
Fixpoint split_on (sep : N) (s : str) : list str :=
  match s with
  | [] => [[]]
  | c :: s' =>
      if c =? sep then [] :: split_on sep s'
      else
        match split_on sep s' with
        | x :: xs => (c :: x) :: xs
        | [] => [[c]]
        end
  end.

Definition eqb_str (a b : str) : bool := bool_decide (a = b).

Definition nonempty (s : str) : bool :=
  match s with [] => false | _ :: _ => true end.

(** The components of a path string: empty ones and "." are dropped. *)
Definition components (s : str) : list str :=
  List.filter (fun x => nonempty x && negb (eqb_str x [c_dot]))
              (split_on c_slash s).

(** The root of a path string: exactly two leading slashes are kept as
    "//", any other number of them is "/". *)
Definition root_of (s : str) : str :=
  match s with
  | a :: s1 =>
      if a =? c_slash then
        match s1 with
        | b :: s2 =>
            if b =? c_slash then
              match s2 with
              | c :: _ => if c =? c_slash then [c_slash] else [c_slash; c_slash]
              | [] => [c_slash; c_slash]
              end
            else [c_slash]
        | [] => [c_slash]
        end
      else []
  | [] => []
  end.

(** [p / s]: a rooted [s] replaces [p]. *)
Definition joinpath (p : Path) (s : str) : Path :=
  match root_of s with
  | [] => {| anchor := anchor p; parts := parts p ++ components s |}
  | r => {| anchor := r; parts := components s |}
  end.

(** [p.name]. *)
Definition name (p : Path) : str := List.last (parts p) [].

(** [p.parent]. *)
Definition parent (p : Path) : Path :=
  {| anchor := anchor p; parts := removelast (parts p) |}.

(** [p.with_name(n)], for a path that has a name and an [n] that is one
    component (every name passed below is cut out of a component). *)
Definition with_name (p : Path) (n : str) : Path :=
  {| anchor := anchor p; parts := removelast (parts p) ++ [n] |}.

(** [s.rfind(".")]. *)
Fixpoint rfind_dot (s : str) : option nat :=
  match s with
  | [] => None
  | c :: s' =>
      match rfind_dot s' with
      | Some i => Some (S i)
      | None => if c =? c_dot then Some O else None
      end
  end.

(** The split point of [p.stem] and [p.suffix]: the last dot of the name,
    unless it is the first or the last character. *)
Definition suffix_at (n : str) : option nat :=
  match rfind_dot n with
  | Some i =>
      if (Nat.ltb 0 i) && (Nat.ltb i (length n - 1)) then Some i else None
  | None => None
  end.

Definition suffix (p : Path) : str :=
  match suffix_at (name p) with
  | Some i => skipn i (name p)
  | None => []
  end.

Definition stem (p : Path) : str :=
  match suffix_at (name p) with
  | Some i => firstn i (name p)
  | None => name p
  end.

(** [p.relative_to(root)]: the components below [root], or ValueError. *)
Fixpoint strip_prefix (pre l : list str) : option (list str) :=
  match pre, l with
  | [], _ => Some l
  | a :: pre', b :: l' => if eqb_str a b then strip_prefix pre' l' else None
  | _ :: _, [] => None
  end.

Definition relative_to (p root : Path) : option (list str) :=
  if eqb_str (anchor p) (anchor root)
  then strip_prefix (parts root) (parts p) else None.

(** The body of the loop of [safe_join]. *)
Definition sanitize (s : str) : str :=
  replace_char c_slash c_us (replace_char c_backslash c_us (strip s)).

Definition safe_join (base : Path) (ps : list str) : Path :=
  fold_left (fun p s => let s := sanitize s in
                        if nonempty s then joinpath p s else p)
            ps base.

(** ** Categories *)

(** The dictionary [cats]; its keys are fixed. *)
Record Cats := {
  content : str; character : str; face : str; body : str;
  backg : str; photo : str; light : str }.

#[global] Instance Cats_eq_dec : EqDecision Cats.
Proof. solve_decision. Defined.

(** A spreadsheet row, by column name: the text [str] gives for the cell. *)
Abbreviation Row := (gmap str str).

Definition col_filename_prefix : str := lit "filename_prefix".
Definition col_content : str := lit "content".
Definition col_character : str := lit "character".
(* factor_顔 *)
Definition col_face : str := lit "factor_" ++ [0x9854].
(* factor_体・服装・小物 *)
Definition col_body : str :=
  lit "factor_" ++ [0x4f53; 0x30fb; 0x670d; 0x88c5; 0x30fb; 0x5c0f; 0x7269].
(* factor_背景環境 *)
Definition col_backg : str := lit "factor_" ++ [0x80cc; 0x666f; 0x74b0; 0x5883].
(* factor_写真の写り方 *)
Definition col_photo : str :=
  lit "factor_" ++ [0x5199; 0x771f; 0x306e; 0x5199; 0x308a; 0x65b9].
(* factor_光雰囲気 *)
Definition col_light : str := lit "factor_" ++ [0x5149; 0x96f0; 0x56f2; 0x6c17].
(* factor_ポーズ *)
Definition col_pose : str := lit "factor_" ++ [0x30dd; 0x30fc; 0x30ba].

(** [str(row.get(col, "")).strip()]. *)
Definition val (row : Row) (col : str) : str :=
  strip (default [] (row !! col)).

(** The loop that blanks "", "nan" and "None". *)
Definition blank_absent (v : str) : str :=
  if eqb_str v [] || eqb_str v (lit "nan") || eqb_str v (lit "None")
  then [] else v.

Definition build_category_from_excel_row (row : Row) : Cats :=
  {| content := blank_absent (val row col_content);
     character := blank_absent (val row col_character);
     face := blank_absent (val row col_face);
     body := blank_absent (val row col_body);
     backg := blank_absent (val row col_backg);
     photo := blank_absent (val row col_photo);
     light := blank_absent (val row col_light) |}.

(** A Python [dict] keyed by [str]: the items in insertion order.  Setting
    a key that is present replaces its value where it stands. *)
Fixpoint dict_set {V} (k : str) (v : V) (d : list (str * V)) : list (str * V) :=
  match d with
  | [] => [(k, v)]
  | (k', v') :: d' =>
      if eqb_str k k' then (k, v) :: d' else (k', v') :: dict_set k v d'
  end.

Definition dict_get {V} (k : str) (d : list (str * V)) : option V :=
  option_map snd (List.find (fun kv => eqb_str k (fst kv)) d).

(** [row.get("filename_prefix", "")] as the key of the row. *)
Definition row_key (row : Row) : str := val row col_filename_prefix.

(** The loop that fills [row_map] from the rows of the table. *)
Definition build_row_map (df : list Row) : list (str * Cats) :=
  fold_left (fun d row =>
               let key := row_key row in
               if nonempty key
               then dict_set key (build_category_from_excel_row row) d
               else d)
            df [].

(** [s.startswith(k)]. *)
Fixpoint startswith (s k : str) : bool :=
  match k, s with
  | [], _ => true
  | a :: k', b :: s' => (a =? b) && startswith s' k'
  | _ :: _, [] => false
  end.

(** The lookup of [cats] in [row_map]: the key equal to the stem, else the
    first key in iteration order that the stem starts with. *)
Definition lookup_cats (row_map : list (str * Cats)) (stem : str) : option Cats :=
  match dict_get stem row_map with
  | Some c => Some c
  | None => option_map snd (List.find (fun kv => startswith stem (fst kv)) row_map)
  end.

(** The categories taken from the file name when no row matches. *)
Definition fallback_cats (p : parsed) : Cats :=
  {| content := p_content p; character := p_char p; face := p_face p;
     body := p_middle p; backg := []; photo := []; light := [] |}.

Definition resolve_cats (row_map : list (str * Cats)) (p : parsed) (stem : str) : Cats :=
  match lookup_cats row_map stem with
  | Some c => c
  | None => fallback_cats p
  end.

(** ** Destination *)

(** [parts], after the empty ones are left out. *)
Definition folder_parts (mode : str) (cats : Cats) (date : str) : list str :=
  List.filter nonempty
    [mode; content cats; character cats; face cats; body cats;
     backg cats; photo cats; light cats; date].

Definition plan_dir (root : Path) (mode : str) (cats : Cats) (date batch : str) : Path :=
  let dest_dir := safe_join root (folder_parts mode cats date) in
  if nonempty batch then joinpath dest_dir batch else dest_dir.

(** ** The directory tree *)

Inductive node := File (data : list N) | Dir.

(** What the program can observe of the file system: the nodes, the paths
    that the operating system refuses to rename, move or delete
    (PermissionError, as in a write-protected directory), and the paths it
    refuses to open for reading.  A path is looked up as it is written:
    the tree has no links, and the model stands for paths without a ".."
    component, which the system would resolve to another path
    ([plainb] below). *)
Record World := {
  nodes : gmap Path node; locked : gset Path; unreadable : gset Path }.

Definition set_nodes (w : World) (m : gmap Path node) : World :=
  {| nodes := m; locked := locked w; unreadable := unreadable w |}.

(** [p.exists()]. *)
Definition path_exists (w : World) (p : Path) : bool :=
  bool_decide (is_Some (nodes w !! p)).

(** [p.is_file()]. *)
Definition is_file (w : World) (p : Path) : bool :=
  match nodes w !! p with
  | Some (File _) => true
  | _ => false
  end.

Definition is_locked (w : World) (p : Path) : bool :=
  bool_decide (p ∈ locked w).

Definition is_unreadable (w : World) (p : Path) : bool :=
  bool_decide (p ∈ unreadable w).

(** [f"{i}"] for a natural number. *)
Definition str_of_nat (i : nat) : str :=
  lit (NilEmpty.string_of_uint (Nat.to_uint i)).

(** [path.with_name(f"{stem}_{i}{ext}")], for a [path] that has a name; of
    a path without one [with_name] raises ValueError
    ([with_name_checked] below has the check). *)
Definition candidate (path : Path) (i : nat) : Path :=
  with_name path (stem path ++ [c_us] ++ str_of_nat i ++ suffix path).

(** The [while True] loop of [ensure_unique_path], from [i]: at most
    [fuel] candidates are probed. *)
Fixpoint first_free (w : World) (path : Path) (fuel i : nat) : Path :=
  match fuel with
  | O => candidate path i
  | S k =>
      if path_exists w (candidate path i)
      then first_free w path k (S i)
      else candidate path i
  end.

(** [ensure_unique_path].  The candidates differ from each other and from
    [path], which exists when the loop is entered, so fewer of them exist
    than there are nodes: the loop ends within [size (nodes w)] probes. *)
Definition ensure_unique_path (w : World) (path : Path) : Path :=
  if path_exists w path then first_free w path (size (nodes w)) 2 else path.

(** [p.unlink()]. *)
Definition unlink (w : World) (p : Path) : option World :=
  if is_file w p && negb (is_locked w p)
  then Some (set_nodes w (delete p (nodes w)))
  else None.

(** [src.rename(dst)] for a regular file [src]. *)
Definition rename (w : World) (src dst : Path) : option World :=
  match nodes w !! src with
  | Some (File data) =>
      if is_locked w src then None
      else Some (set_nodes w (<[dst := File data]> (delete src (nodes w))))
  | _ => None
  end.

(** The directories [d.mkdir(parents=True, exist_ok=True)] looks at: [d]
    and the directories above it, outermost first. *)
Fixpoint dirs_from (a : str) (pre rest : list str) : list Path :=
  match rest with
  | [] => []
  | x :: rest' =>
      {| anchor := a; parts := pre ++ [x] |} :: dirs_from a (pre ++ [x]) rest'
  end.

Definition dirs_to (d : Path) : list Path := dirs_from (anchor d) [] (parts d).

(** [d.mkdir(parents=True, exist_ok=True)]: it raises when a regular file
    is in the way, else every directory to [d] exists afterwards. *)
Definition mkdir_p (w : World) (d : Path) : option World :=
  if existsb (is_file w) (dirs_to d) then None
  else Some (set_nodes w (fold_right (fun p m => <[p := Dir]> m)
                                     (nodes w) (dirs_to d))).

(** Where [shutil] writes: inside [dst] when [dst] is a directory. *)
Definition real_dst (w : World) (src dst : Path) : Path :=
  match nodes w !! dst with
  | Some Dir => joinpath dst (name src)
  | _ => dst
  end.

(** [shutil.copy2(src, dst)]. *)
Definition copy2 (w : World) (src dst : Path) : option World :=
  match nodes w !! src with
  | Some (File data) =>
      if is_unreadable w src then None
      else Some (set_nodes w (<[real_dst w src dst := File data]> (nodes w)))
  | _ => None
  end.

(** [shutil.move(src, dst)] for a regular file [src]: the world afterwards,
    and whether it returned.  A destination directory that already holds
    the name is refused.  When [os.rename] is refused, [copy2] writes the
    destination and the [os.unlink] of the source that follows raises. *)
Definition move (w : World) (src dst : Path) : World * bool :=
  match nodes w !! src with
  | Some (File data) =>
      if is_file w dst || negb (path_exists w (real_dst w src dst)) then
        if is_locked w src then
          match copy2 w src (real_dst w src dst) with
          | Some w' => (w', false)
          | None => (w, false)
          end
        else
          (set_nodes w (<[real_dst w src dst := File data]>
                          (delete src (nodes w))), true)
      else (w, false)
  | _ => (w, false)
  end.

(** [move_or_copy]: the world afterwards, and whether it returned. *)
Definition move_or_copy (w : World) (src dst : Path) (copy : bool) : World * bool :=
  match mkdir_p w (parent dst) with
  | None => (w, false)
  | Some w1 =>
      if copy then
        match copy2 w1 src dst with
        | Some w2 => (w2, true)
        | None => (w1, false)
        end
      else move w1 src dst
  end.

(** ** The loop of [main] *)

Inductive Policy := dup | skip | overwrite | hash.

(** The options the loop reads. *)
Record Args := {
  a_copy : bool; a_dry_run : bool; a_on_conflict : Policy;
  a_batch : str; a_min_bytes : Z }.

(** The lines written to the log, one constructor per call of the logger
    in the loop. *)
Inductive Event :=
| WarnTooSmall (f : Path)
| WarnUnmatched (n : str)
| ErrRename (old new : str)
| InfoRenamePlanned (old new : str)
| InfoFromFileName (n : str)
| InfoDestination (f dest : Path)
| InfoHashDup (n same : str)
| InfoSkipExisting (dest : Path)
| InfoOverwrite (dest : Path)
| InfoDone (final : Path)
| ErrFailed (f : Path).

Record Counters := {
  moved : nat; copied : nat; skipped_unmatched : nat; skipped_small : nat;
  skipped_conflict : nat; skipped_hash_dup : nat; overwritten : nat;
  dupped : nat }.

(** [moved=copied=...=dupped=0]. *)
Definition zero_counters : Counters :=
  {| moved := 0; copied := 0; skipped_unmatched := 0; skipped_small := 0;
     skipped_conflict := 0; skipped_hash_dup := 0; overwritten := 0;
     dupped := 0 |}.

Definition bump_moved (c : Counters) : Counters :=
  {| moved := S (moved c); copied := copied c;
     skipped_unmatched := skipped_unmatched c; skipped_small := skipped_small c;
     skipped_conflict := skipped_conflict c;
     skipped_hash_dup := skipped_hash_dup c; overwritten := overwritten c;
     dupped := dupped c |}.

Definition bump_copied (c : Counters) : Counters :=
  {| moved := moved c; copied := S (copied c);
     skipped_unmatched := skipped_unmatched c; skipped_small := skipped_small c;
     skipped_conflict := skipped_conflict c;
     skipped_hash_dup := skipped_hash_dup c; overwritten := overwritten c;
     dupped := dupped c |}.

Definition bump_skipped_unmatched (c : Counters) : Counters :=
  {| moved := moved c; copied := copied c;
     skipped_unmatched := S (skipped_unmatched c);
     skipped_small := skipped_small c;
     skipped_conflict := skipped_conflict c;
     skipped_hash_dup := skipped_hash_dup c; overwritten := overwritten c;
     dupped := dupped c |}.

Definition bump_skipped_small (c : Counters) : Counters :=
  {| moved := moved c; copied := copied c;
     skipped_unmatched := skipped_unmatched c;
     skipped_small := S (skipped_small c);
     skipped_conflict := skipped_conflict c;
     skipped_hash_dup := skipped_hash_dup c; overwritten := overwritten c;
     dupped := dupped c |}.

Definition bump_skipped_conflict (c : Counters) : Counters :=
  {| moved := moved c; copied := copied c;
     skipped_unmatched := skipped_unmatched c; skipped_small := skipped_small c;
     skipped_conflict := S (skipped_conflict c);
     skipped_hash_dup := skipped_hash_dup c; overwritten := overwritten c;
     dupped := dupped c |}.

Definition bump_skipped_hash_dup (c : Counters) : Counters :=
  {| moved := moved c; copied := copied c;
     skipped_unmatched := skipped_unmatched c; skipped_small := skipped_small c;
     skipped_conflict := skipped_conflict c;
     skipped_hash_dup := S (skipped_hash_dup c); overwritten := overwritten c;
     dupped := dupped c |}.

(** The variables the loop updates. *)
Record Run := {
  world : World; counters : Counters; moved_records : list Path;
  log : list Event }.

Definition set_world (st : Run) (w : World) : Run :=
  {| world := w; counters := counters st;
     moved_records := moved_records st; log := log st |}.

Definition count (st : Run) (bump : Counters -> Counters) : Run :=
  {| world := world st; counters := bump (counters st);
     moved_records := moved_records st; log := log st |}.

Definition say (st : Run) (e : Event) : Run :=
  {| world := world st; counters := counters st;
     moved_records := moved_records st; log := log st ++ [e] |}.

Definition record_final (st : Run) (p : Path) : Run :=
  {| world := world st; counters := counters st;
     moved_records := moved_records st ++ [p]; log := log st |}.

(** What the [try] block of the loop does with one file. *)
Inductive Outcome :=
| Placed (w : World) (final : Path) (unlinked : bool)
| SkipHashDup (same : Path)
| SkipExisting
| Failed (w : World) (unlinked : bool).

Section Loop.

(** [hashlib.sha1(data).hexdigest()]. *)
Variable sha1 : list N -> str.

(** [sha1sum(p)]: the file is read in blocks, all of which are hashed. *)
Definition sha1sum (w : World) (p : Path) : option str :=
  match nodes w !! p with
  | Some (File data) => if is_unreadable w p then None else Some (sha1 data)
  | _ => None
  end.

(** The entries [dest_dir.iterdir()] yields, in the order of the map. *)
Definition iterdir (w : World) (d : Path) : list Path :=
  List.filter (fun p => nonempty (name p) && bool_decide (parent p = d))
              (map fst (map_to_list (nodes w))).

(** [find_same_hash]; [None] when [iterdir] raises because [dest_dir] is
    a regular file. *)
Definition find_same_hash (w : World) (dest_dir : Path) (digest : str)
  : option (option Path) :=
  match nodes w !! dest_dir with
  | None => Some None
  | Some (File _) => None
  | Some Dir =>
      Some (List.find (fun p => is_file w p &&
                         match sha1sum w p with
                         | Some h => eqb_str h digest
                         | None => false
                         end)
                      (iterdir w dest_dir))
  end.

Variable args : Args.
Variable mode : str.
Variable root : Path.
Variable row_map : list (str * Cats).

(** The end of the [try] block: [move_or_copy] to [final]. *)
Definition finish (w : World) (f final : Path) (unlinked : bool) : Outcome :=
  match move_or_copy w f final (a_copy args) with
  | (w', true) => Placed w' final unlinked
  | (w', false) => Failed w' unlinked
  end.

(** The [try] block, once the hash check is over. *)
Definition place_by_name (w : World) (f dest_path : Path) : Outcome :=
  if path_exists w dest_path then
    match a_on_conflict args with
    | skip => SkipExisting
    | overwrite =>
        match unlink w dest_path with
        | Some w1 => finish w1 f dest_path true
        | None => Failed w true
        end
    | _ => finish w f (ensure_unique_path w dest_path) false
    end
  else finish w f dest_path false.

(** The [try] block. *)
Definition place (w : World) (f dest_dir dest_path : Path) : Outcome :=
  match a_on_conflict args with
  | hash =>
      match sha1sum w f with
      | None => Failed w false
      | Some digest =>
          match find_same_hash w dest_dir digest with
          | None => Failed w false
          | Some (Some same) => SkipHashDup same
          | Some None => place_by_name w f dest_path
          end
      end
  | _ => place_by_name w f dest_path
  end.

(** The counters and log lines that go with an outcome. *)
Definition settle (st : Run) (f dest_path : Path) (o : Outcome) : Run :=
  match o with
  | SkipHashDup same =>
      count (say st (InfoHashDup (name f) (name same))) bump_skipped_hash_dup
  | SkipExisting =>
      count (say st (InfoSkipExisting dest_path)) bump_skipped_conflict
  | Placed w final unlinked =>
      let st := if unlinked then say st (InfoOverwrite dest_path) else st in
      let st := record_final (set_world st w) final in
      let st := count st (if a_copy args then bump_copied else bump_moved) in
      say st (InfoDone final)
  | Failed w unlinked =>
      let st := if unlinked then say st (InfoOverwrite dest_path) else st in
      say (set_world st w) (ErrFailed f)
  end.

(** The renaming to the canonical name: the state afterwards and the path
    the rest of the iteration uses as [f]. *)
Definition rename_to_canonical (st : Run) (f : Path) (canonical : str) : Run * Path :=
  if eqb_str canonical (name f) then (st, f)
  else
    let new_path := with_name f canonical in
    let new_path := if path_exists (world st) new_path
                    then ensure_unique_path (world st) new_path
                    else new_path in
    if a_dry_run args then
      (say st (InfoRenamePlanned (name f) (name new_path)), new_path)
    else
      match rename (world st) f new_path with
      | Some w' => (set_world st w', new_path)
      | None => (say st (ErrRename (name f) (name new_path)), new_path)
      end.

(** The categories of the file and the state after the log line of the
    fall-back.  An empty [row_map] has no key, so the lookup finds nothing
    there, as the test [if row_map] has it. *)
Definition categories (st : Run) (f : Path) (p : parsed) : Run * Cats :=
  match lookup_cats row_map (stem f) with
  | Some c => (st, c)
  | None => (say st (InfoFromFileName (name f)), fallback_cats p)
  end.

(** [dest_dir] and [dest_path] of a file. *)
Definition destination (cats : Cats) (p : parsed) (f : Path) : Path * Path :=
  let dest_dir := plan_dir root mode cats (p_date p) (a_batch args) in
  (dest_dir, joinpath dest_dir (name f)).

(** One iteration of the loop.  [None] is an exception that leaves [main]:
    [f.stat()] on a path that is not there, or [relative_to] on a
    destination outside [root]. *)
Definition process_file (st : Run) (f : Path) : option Run :=
  match nodes (world st) !! f with
  | Some (File data) =>
      if (Z.of_nat (length data) <? Z.max 0 (a_min_bytes args))%Z then
        Some (count (say st (WarnTooSmall f)) bump_skipped_small)
      else
        match parse_filename (name f) with
        | None =>
            Some (count (say st (WarnUnmatched (name f))) bump_skipped_unmatched)
        | Some p =>
            let '(st, f) := rename_to_canonical st f (build_canonical_name p) in
            let '(st, cats) := categories st f p in
            let '(dest_dir, dest_path) := destination cats p f in
            match relative_to dest_path root with
            | None => None
            | Some _ =>
                let st := say st (InfoDestination f dest_path) in
                if a_dry_run args then Some st
                else Some (settle st f dest_path
                             (place (world st) f dest_dir dest_path))
            end
        end
  | _ => None
  end.

(** The loop over the files in the order given. *)
Fixpoint process_all (st : Run) (files : list Path) : option Run :=
  match files with
  | [] => Some st
  | f :: files' =>
      match process_file st f with
      | Some st' => process_all st' files'
      | None => None
      end
  end.

End Loop.

(** The state the loop starts in. *)
Definition start (w : World) : Run :=
  {| world := w; counters := zero_counters; moved_records := []; log := [] |}.


(** ** The grammar of a name, field by field *)

(** [n] digits. *)
Definition digitsb (n : nat) (d : str) : bool :=
  Nat.eqb (length d) n && forallb is_digit d.

(** A non-empty run without underscore. *)
Definition is_field (c : str) : bool :=
  nonempty c && forallb (fun x => negb (x =? c_us)) c.

(** A non-empty run without newline. *)
Definition is_middle (m : str) : bool :=
  nonempty m && forallb (fun x => negb (x =? c_nl)) m.

(** One of the extensions, in any case. *)
Definition is_ext (e : str) : bool :=
  existsb (fun a => match ci_word a e with
                    | Some (_, []) => true
                    | _ => false
                    end) ext_alternatives.

(** [m] ends with an underscore and five digits that follow a non-empty
    text. *)
Definition has_num_suffix (m : str) : bool :=
  match rev m with
  | d5 :: d4 :: d3 :: d2 :: d1 :: u :: _ :: _ =>
      (u =? c_us) && forallb is_digit [d1; d2; d3; d4; d5]
  | _ => false
  end.

(** A normalized name spelled from its fields: what may stand between the
    number and the dot is in [between]. *)
Definition spell (d c h f m n between e : str) : str :=
  d ++ [c_us] ++ c ++ [c_us] ++ h ++ [c_us] ++ f ++ [c_us] ++ m ++ [c_us]
  ++ n ++ between ++ [c_dot] ++ e.

(** The characters the ext group can hold. *)
Definition ext_char (c : N) : Prop := 65 <= c <= 122 \/ c = 0x130 \/ c = 0x131.

(** What [(?:_\d{5})?_?] can match. *)
Inductive between_shape : str -> Prop :=
| between_none : between_shape []
| between_us : between_shape [c_us]
| between_num d : digitsb 5 d = true -> between_shape (c_us :: d)
| between_num_us d : digitsb 5 d = true -> between_shape (c_us :: d ++ [c_us]).

(** ** What normalization establishes *)

(** A relation between every two neighbours of a text. *)
Fixpoint chain (R : N -> N -> Prop) (s : str) : Prop :=
  match s with
  | a :: t => match t with
              | b :: _ => R a b /\ chain R t
              | [] => True
              end
  | [] => True
  end.

(** No white space next to an underscore. *)
Definition okU (a b : N) : Prop :=
  ~ (is_space a = true /\ b = c_us) /\ ~ (a = c_us /\ is_space b = true).

(** No white space before a dot. *)
Definition okD (a b : N) : Prop := ~ (is_space a = true /\ b = c_dot).

(** None of the characters [normalize_filename] replaces or deletes. *)
Definition not_banned (c : N) : Prop :=
  c <> c_fullwidth_us /\ c <> c_middle_dot /\ c <> c_katakana_dot.

Definition head_ok (s : str) : Prop :=
  match s with c :: _ => is_space c = false | [] => True end.

(** The form of a normalized name. *)
Definition clean (s : str) : Prop :=
  Forall not_banned s /\ chain okU s /\ chain okD s
  /\ head_ok s /\ head_ok (rev s).

(** A matcher for [re_sub] consumes at least one character. *)
Definition consumes (m : str -> option str) : Prop :=
  forall s r, m s = Some r -> exists k, k <> [] /\ s = k ++ r.

(** What the first character of the result of the first substitution
    tells about its argument. *)
Definition headU (s out : str) : Prop :=
  match out with
  | [] => True
  | h :: _ =>
      (is_space h = true -> match_ws_us s = None)
      /\ (h = c_us -> match_ws_us s <> None)
  end.

(** What the first character of the result of the second substitution
    tells about its argument: it was copied, or it is the dot that comes
    for a match. *)
Definition headD (s out : str) : Prop :=
  match out with
  | [] => True
  | h :: _ =>
      (exists t, s = h :: t /\ match_ws_dot s = None)
      \/ (h = c_dot /\ match_ws_dot s <> None)
  end.

(** The extension holds no U+0307, the mark that the lower case of U+0130
    ends with. *)
Definition no_dot_above (e : str) : bool :=
  forallb (fun c => negb (c =? 0x307)) e.

(** ** The destination as the specification words it *)

(** One path component: not empty, without "/", and not ".". *)
Definition is_segment (s : str) : bool :=
  nonempty s && forallb (fun c => negb (c =? c_slash)) s
  && negb (eqb_str s [c_dot]).

(** The directory "of exactly the present values in the fixed order, with
    a non-empty batch tag as one final segment". *)
Definition stated_dir (root : Path) (mode : str) (cats : Cats) (date batch : str) : Path :=
  {| anchor := anchor root;
     parts := parts root ++ folder_parts mode cats date
              ++ (if nonempty batch then [batch] else []) |}.

(** The nine values in the order of the folders. *)
Definition folder_values (mode : str) (cats : Cats) (date : str) : list str :=
  [mode; content cats; character cats; face cats; body cats;
   backg cats; photo cats; light cats; date].

(** ** Rows as the specification words them *)

(** Two rows that differ in the pose column at most. *)
Definition same_but_pose (r1 r2 : Row) : Prop :=
  delete col_pose r1 = delete col_pose r2.

(** The first row of the table whose key is a prefix of the stem. *)
Definition first_with_prefix (df : list Row) (stem : str) : option Row :=
  List.find (fun r => nonempty (row_key r) && startswith stem (row_key r)) df.

(** The last row of the table that has the key [k]. *)
Definition last_with_key (df : list Row) (k : str) : option Row :=
  List.find (fun r => nonempty (row_key r) && eqb_str k (row_key r)) (rev df).

(** "The row whose key is found first in spreadsheet row order supplies the
    categories". *)
Definition stated_lookup (df : list Row) (stem : str) : option Cats :=
  option_map build_category_from_excel_row (first_with_prefix df stem).

(** The first key of a dictionary that satisfies [P]. *)
Definition first_key {V} (P : str -> bool) (d : list (str * V)) : option str :=
  option_map fst (List.find (fun kv => P (fst kv)) d).

(** The worlds after a file has been put at a free path. *)
Definition put (w w' : World) (f final : Path) (data : list N) (copy : bool) : Prop :=
  nodes w' !! final = Some (File data)
  /\ (forall q, q <> final -> q <> f -> q ∉ dirs_to (parent final) ->
                nodes w' !! q = nodes w !! q)
  /\ (forall q, q ∈ dirs_to (parent final) -> nodes w' !! q = Some Dir)
  /\ nodes w' !! f = (if copy then Some (File data) else None)
  /\ locked w' = locked w /\ unreadable w' = unreadable w.

(** ** Further vocabulary *)

(** The seven values of a category dictionary. *)
Definition slots (c : Cats) : list str :=
  [content c; character c; face c; body c; backg c; photo c; light c].

(** The files the counters account for. *)
Definition tally (c : Counters) : nat :=
  (moved c + copied c + skipped_unmatched c + skipped_small c
   + skipped_conflict c + skipped_hash_dup c)%nat.

(** The lines of the log that report a failed placement. *)
Definition is_failure (e : Event) : bool :=
  match e with ErrFailed _ => true | _ => false end.

Definition count_failed (l : list Event) : nat :=
  length (List.filter is_failure l).

(** The world an outcome of the [try] block leaves. *)
Definition outcome_world (w : World) (o : Outcome) : World :=
  match o with
  | Placed w' _ _ => w'
  | Failed w' _ => w'
  | _ => w
  end.

(** Whether the loop came to its end. *)
Definition ended (o : option Run) : bool :=
  match o with Some _ => true | None => false end.

(** ** The path of the updated table *)

(** [s.endswith(k)]. *)
Definition endswith (s k : str) : bool := startswith (rev s) (rev k).

(** The check of [with_name] on the new name: not empty, no "/" at its
    end, no root, and exactly one component when parsed. *)
Definition valid_name (n : str) : bool :=
  nonempty n && negb (List.last n 0 =? c_slash)
  && negb (nonempty (root_of n))
  && Nat.eqb (length (components n)) 1.

(** [p.with_name(n)] with its checks: ValueError ([None]) when [p] has no
    name or [n] is not accepted. *)
Definition with_name_checked (p : Path) (n : str) : option Path :=
  if nonempty (name p) && valid_name n then Some (with_name p n) else None.

(** The stem of the table with the marker after it, unless it ends with
    the marker already. *)
Definition marked_stem (src_path : Path) (marker : str) : str :=
  if endswith (stem src_path) marker then stem src_path
  else stem src_path ++ [c_us] ++ marker.

(** The name [f"{stem}_{i}{src_path.suffix}"]. *)
Definition output_name (src_path : Path) (stem1 : str) (i : nat) : str :=
  stem1 ++ [c_us] ++ str_of_nat i ++ suffix src_path.

(** The [while True] loop of [suffixed_output_path], from [i]: at most
    [fuel] candidates are probed. *)
Fixpoint first_free_output (w : World) (src_path : Path) (stem1 : str)
    (fuel i : nat) : option Path :=
  match with_name_checked src_path (output_name src_path stem1 i) with
  | None => None
  | Some cand =>
      match fuel with
      | O => Some cand
      | S k =>
          if path_exists w cand
          then first_free_output w src_path stem1 k (S i)
          else Some cand
      end
  end.

(** [suffixed_output_path]; the loop is entered when [out] exists, and
    then ends within [size (nodes w)] probes, as in [ensure_unique_path]. *)
Definition suffixed_output_path (w : World) (src_path : Path) (marker : str)
  : option Path :=
  let stem1 := marked_stem src_path marker in
  match with_name_checked src_path (stem1 ++ suffix src_path) with
  | None => None
  | Some out =>
      if path_exists w out
      then first_free_output w src_path stem1 (size (nodes w)) 2
      else Some out
  end.

(** The characters of the lower case of an extension. *)
Definition lowered_char (c : N) : Prop :=
  65 <= c <= 122 \/ c = 0x131 \/ c = 0x307.

(** ** Writing the result back to the table *)

(** [d.setdefault(k, v)]: a key that is present keeps its value. *)
Definition dict_setdefault {V} (k : str) (v : V) (d : list (str * V))
  : list (str * V) :=
  match dict_get k d with
  | Some _ => d
  | None => d ++ [(k, v)]
  end.

(** The loop that fills [stem_map] from [moved_records]. *)
Definition build_stem_map (moved_records : list Path) : list (str * Path) :=
  fold_left (fun d p => dict_setdefault (stem p) p d) moved_records [].

(** The path [p] chosen for a row with the key [prefix]: the entry of that
    key, else the first entry in iteration order whose key starts with
    [prefix]. *)
Definition record_for (stem_map : list (str * Path)) (prefix : str) : option Path :=
  match dict_get prefix stem_map with
  | Some p => Some p
  | None => option_map snd (List.find (fun kv => startswith (fst kv) prefix) stem_map)
  end.

(** ** Paths the model stands for *)

(** Every component is a proper one and none is "..". *)
Definition plainb (p : Path) : bool :=
  forallb (fun s => is_segment s && negb (eqb_str s (lit ".."))) (parts p).

(** The paths of the tree. *)
Definition all_paths (w : World) : list Path := map fst (map_to_list (nodes w)).

(** The directories the loop can plan for [files]: for each file whose
    name parses, with the categories of the file name and with those of
    each row. *)
Definition planned_dirs (args : Args) (mode : str) (root : Path)
    (row_map : list (str * Cats)) (files : list Path) : list Path :=
  flat_map (fun f =>
              match parse_filename (name f) with
              | Some p =>
                  map (fun c => plan_dir root mode c (p_date p) (a_batch args))
                      (fallback_cats p :: map snd row_map)
              | None => []
              end)
           files.

(** * Properties *)

(** ** Characters *)

Lemma is_space_spec c :
  is_space c = true <->
  (9 <= c <= 13 \/ 28 <= c <= 32 \/ c = 0x85 \/ c = 0xA0 \/ c = 0x1680
   \/ 0x2000 <= c <= 0x200A \/ c = 0x2028 \/ c = 0x2029 \/ c = 0x202F
   \/ c = 0x205F \/ c = 0x3000).
Proof.
  unfold is_space.
  rewrite !orb_true_iff, !andb_true_iff, !N.leb_le, !N.eqb_eq. lia.
Qed.

(** The blocks of the code space that hold the digits. *)
Lemma is_digit_range c :
  is_digit c = true ->
  48 <= c <= 57 \/ 0x660 <= c < 0x109a \/ 0x17e0 <= c < 0x1c5a \/ 0xa620 <= c.
Proof.
  unfold is_digit. intros H. apply existsb_exists in H.
  destruct H as [[lo n] [Hin H]]. cbn [fst snd] in H.
  apply andb_true_iff in H. destruct H as [H1 H2].
  apply N.leb_le in H1. apply N.ltb_lt in H2.
  unfold Nd_runs in Hin. cbn [In] in Hin.
  repeat (destruct Hin as [Hin|Hin]; [injection Hin as <- <-; lia|]).
  destruct Hin.
Qed.

Lemma digit_not_space c : is_digit c = true -> is_space c = false.
Proof.
  intros Hd%is_digit_range. destruct (is_space c) eqn:Hs; [|reflexivity].
  apply is_space_spec in Hs. lia.
Qed.

Lemma digit_not_us c : is_digit c = true -> c <> c_us.
Proof. intros H%is_digit_range. unfold c_us. lia. Qed.

Lemma digit_not_dot c : is_digit c = true -> c <> c_dot.
Proof. intros H%is_digit_range. unfold c_dot. lia. Qed.

Lemma digit_not_nl c : is_digit c = true -> c <> c_nl.
Proof. intros H%is_digit_range. unfold c_nl. lia. Qed.

Lemma us_not_space : is_space c_us = false.
Proof. reflexivity. Qed.

Lemma dot_not_space : is_space c_dot = false.
Proof. reflexivity. Qed.

(** ** The pieces of NAME_RE *)

Lemma digitsb_spec n d :
  digitsb n d = true <-> length d = n /\ Forall (fun c => is_digit c = true) d.
Proof.
  unfold digitsb. rewrite andb_true_iff, Nat.eqb_eq, forallb_forall, List.Forall_forall.
  reflexivity.
Qed.

Lemma digits_app n d r : digitsb n d = true -> digits n (d ++ r) = Some (d, r).
Proof.
  rewrite digitsb_spec. intros [Hl Hd]. revert n Hl.
  induction Hd as [|c d Hc Hd IH]; intros n Hl; simpl in Hl; subst n; simpl.
  - reflexivity.
  - rewrite Hc, (IH _ eq_refl). reflexivity.
Qed.

Lemma digits_sound n s d r :
  digits n s = Some (d, r) -> s = d ++ r /\ digitsb n d = true.
Proof.
  revert s d r. induction n as [|n IH]; intros s d r H; simpl in H.
  - injection H as <- <-. split; reflexivity.
  - destruct s as [|c s]; [discriminate|].
    destruct (is_digit c) eqn:Hc; [|discriminate].
    destruct (digits n s) as [[d' r']|] eqn:Hn; [|discriminate].
    injection H as <- <-. apply IH in Hn. destruct Hn as [-> Hd].
    split; [reflexivity|]. apply digitsb_spec in Hd. destruct Hd as [Hl Hd].
    apply digitsb_spec. split; [simpl; lia|]. constructor; assumption.
Qed.

Lemma digitsb_5_inv d :
  digitsb 5 d = true ->
  exists a b c e f, d = [a; b; c; e; f] /\ is_digit a = true /\ is_digit b = true
    /\ is_digit c = true /\ is_digit e = true /\ is_digit f = true.
Proof.
  unfold digitsb. intros H. apply andb_true_iff in H. destruct H as [Hl Hd].
  apply Nat.eqb_eq in Hl.
  destruct d as [|a [|b [|c [|e [|f [|g d]]]]]]; try discriminate.
  simpl in Hd. rewrite !andb_true_iff in Hd.
  exists a, b, c, e, f. intuition.
Qed.

Lemma is_field_spec c :
  is_field c = true <-> c <> [] /\ Forall (fun x => x <> c_us) c.
Proof.
  unfold is_field. rewrite andb_true_iff, forallb_forall, List.Forall_forall.
  split; intros [Hn Hf]; split.
  - destruct c; [discriminate|congruence].
  - intros x Hx. specialize (Hf x Hx). apply negb_true_iff, N.eqb_neq in Hf. exact Hf.
  - destruct c; [congruence|reflexivity].
  - intros x Hx. apply negb_true_iff, N.eqb_neq. auto.
Qed.

Lemma is_middle_spec m :
  is_middle m = true <-> m <> [] /\ Forall (fun x => x <> c_nl) m.
Proof.
  unfold is_middle. rewrite andb_true_iff, forallb_forall, List.Forall_forall.
  split; intros [Hn Hf]; split.
  - destruct m; [discriminate|congruence].
  - intros x Hx. specialize (Hf x Hx). apply negb_true_iff, N.eqb_neq in Hf. exact Hf.
  - destruct m; [congruence|reflexivity].
  - intros x Hx. apply negb_true_iff, N.eqb_neq. auto.
Qed.

Lemma span_not_us_app c r :
  Forall (fun x => x <> c_us) c -> span_not_us (c ++ c_us :: r) = (c, c_us :: r).
Proof.
  induction 1 as [|x c Hx Hc IH]; simpl.
  - reflexivity.
  - apply N.eqb_neq in Hx. rewrite Hx, IH. reflexivity.
Qed.

Lemma span_not_us_sound s c r :
  span_not_us s = (c, r) ->
  s = c ++ r /\ Forall (fun x => x <> c_us) c /\ underscore r = None \/
  exists r', s = c ++ c_us :: r' /\ r = c_us :: r' /\ Forall (fun x => x <> c_us) c.
Proof.
  revert c r. induction s as [|x s IH]; intros c r H; simpl in H.
  - injection H as <- <-. left. repeat split; constructor.
  - destruct (x =? c_us) eqn:Hx.
    + injection H as <- <-. apply N.eqb_eq in Hx. subst x. right.
      exists s. repeat split. constructor.
    + destruct (span_not_us s) as [f r0] eqn:Hs. injection H as <- <-.
      apply N.eqb_neq in Hx.
      destruct (IH _ _ eq_refl) as [(-> & Hf & Hu)|(r' & -> & -> & Hf)].
      * left. repeat split; [constructor; assumption|assumption].
      * right. exists r'. repeat split. constructor; assumption.
Qed.

Lemma field_app c r : is_field c = true -> field (c ++ c_us :: r) = Some (c, r).
Proof.
  intros [Hn Hf]%is_field_spec. unfold field.
  rewrite span_not_us_app by assumption.
  destruct c; [congruence|]. simpl. reflexivity.
Qed.

Lemma field_sound s c r :
  field s = Some (c, r) -> s = c ++ c_us :: r /\ is_field c = true.
Proof.
  unfold field. destruct (span_not_us s) as [f r0] eqn:Hs.
  destruct f as [|x f]; [discriminate|].
  destruct (underscore r0) as [r'|] eqn:Hu; [|discriminate].
  intros H. injection H as <- <-.
  destruct (span_not_us_sound _ _ _ Hs) as [(_ & _ & Hn)|(r1 & -> & -> & Hf)].
  - congruence.
  - simpl in Hu. injection Hu as <-. split; [reflexivity|].
    apply is_field_spec. split; [discriminate|assumption].
Qed.

(** ** The extension *)

Lemma ci_word_spec p s w r :
  ci_word p s = Some (w, r) <->
  s = w ++ r /\ Forall2 (fun a c => ci_char a c = true) p w.
Proof.
  revert s w r. induction p as [|a p IH]; intros s w r; simpl.
  - split.
    + intros H. injection H as <- <-. split; [reflexivity|constructor].
    + intros [-> H]. inversion H. reflexivity.
  - destruct s as [|c s].
    + split; [discriminate|]. intros [H1 H2]. inversion H2; subst. discriminate.
    + destruct (ci_char a c) eqn:Hc.
      * destruct (ci_word p s) as [[w' r']|] eqn:Hw.
        -- apply IH in Hw. destruct Hw as [-> Hf]. split.
           ++ intros H. injection H as <- <-. split; [reflexivity|]. constructor; assumption.
           ++ intros [H1 H2]. inversion H2; subst. simpl in H1. injection H1 as H1.
              assert (Hw : ci_word p (w' ++ r') = Some (l', r)) by (apply IH; auto).
              assert (Hw' : ci_word p (w' ++ r') = Some (w', r')) by (apply IH; auto).
              congruence.
        -- split; [discriminate|]. intros [H1 H2]. inversion H2; subst.
           simpl in H1. injection H1 as H1. subst s.
           assert (Hw' : ci_word p (l' ++ r) = Some (l', r)) by (apply IH; auto).
           congruence.
      * split; [discriminate|]. intros [H1 H2]. inversion H2; subst.
        simpl in H1. injection H1 as -> H1. congruence.
Qed.

Lemma ci_char_ext a c : 97 <= a <= 122 -> ci_char a c = true -> ext_char c.
Proof.
  unfold ci_char, ext_char.
  rewrite !orb_true_iff, !andb_true_iff, !orb_true_iff, !N.eqb_eq. lia.
Qed.

Lemma alternatives_lower :
  Forall (Forall (fun a => 97 <= a <= 122)) ext_alternatives.
Proof. repeat constructor; cbv; discriminate. Qed.

Lemma is_ext_spec e :
  is_ext e = true <->
  exists a, In a ext_alternatives /\ Forall2 (fun a c => ci_char a c = true) a e.
Proof.
  unfold is_ext. rewrite existsb_exists. split; intros [a [Ha H]]; exists a; split; auto.
  - destruct (ci_word a e) as [[w [|? ?]]|] eqn:Hw; try discriminate.
    apply ci_word_spec in Hw. destruct Hw as [He Hf]. rewrite app_nil_r in He.
    subst. assumption.
  - assert (Hw : ci_word a e = Some (e, [])).
    { apply ci_word_spec. rewrite app_nil_r. auto. }
    rewrite Hw. reflexivity.
Qed.

Lemma is_ext_chars e : is_ext e = true -> Forall ext_char e.
Proof.
  intros (a & Ha & Hf)%is_ext_spec.
  pose proof alternatives_lower as Hl.
  rewrite List.Forall_forall in Hl. specialize (Hl a Ha).
  clear Ha. induction Hf as [|x c a e Hx Hf IH]; constructor.
  - inversion Hl; subst. eapply ci_char_ext; eassumption.
  - apply IH. inversion Hl; assumption.
Qed.

Lemma is_ext_nonempty e : is_ext e = true -> e <> [].
Proof.
  intros (a & Ha & Hf)%is_ext_spec. intros ->. inversion Hf; subst.
  cbn in Ha. intuition discriminate.
Qed.

Lemma ext_char_not_dot c : ext_char c -> c <> c_dot.
Proof. unfold ext_char, c_dot. lia. Qed.

Lemma ext_char_not_nl c : ext_char c -> c <> c_nl.
Proof. unfold ext_char, c_nl. lia. Qed.

Lemma ext_char_not_space c : ext_char c -> is_space c = false.
Proof.
  intros H. destruct (is_space c) eqn:Hs; [|reflexivity].
  apply is_space_spec in Hs. unfold ext_char in H. lia.
Qed.

Lemma ext_alt_sound alts s e :
  ext_alt alts s = Some e ->
  exists a r, In a alts /\ ci_word a s = Some (e, r) /\ at_end r = true.
Proof.
  induction alts as [|a alts IH]; simpl; [discriminate|].
  destruct (ci_word a s) as [[w r]|] eqn:Hw.
  - destruct (at_end r) eqn:Hr.
    + intros H. injection H as <-. exists a, r. auto.
    + intros H. destruct (IH H) as (a' & r' & ? & ? & ?). exists a', r'. auto.
  - intros H. destruct (IH H) as (a' & r' & ? & ? & ?). exists a', r'. auto.
Qed.

Lemma at_end_spec r : at_end r = true <-> r = [] \/ r = [c_nl].
Proof.
  destruct r as [|c [|d r]]; simpl.
  - intuition.
  - rewrite N.eqb_eq. split; [intros ->; auto|]. intros [H|H]; congruence.
  - split; [discriminate|]. intros [H|H]; discriminate.
Qed.

Lemma ext_alt_complete alts e :
  Forall (fun c => c <> c_nl) e ->
  (exists a, In a alts /\ Forall2 (fun a c => ci_char a c = true) a e) ->
  ext_alt alts e = Some e.
Proof.
  intros Hnl. induction alts as [|a alts IH]; intros (a0 & Hin & Hf).
  - destruct Hin.
  - simpl. destruct (ci_word a e) as [[w r]|] eqn:Hw.
    + apply ci_word_spec in Hw. destruct Hw as [He Hw].
      destruct (at_end r) eqn:Hr.
      * apply at_end_spec in Hr. destruct Hr as [->| ->].
        -- rewrite app_nil_r in He. congruence.
        -- exfalso. rewrite He in Hnl. apply List.Forall_app in Hnl.
           destruct Hnl as [_ Hnl]. inversion Hnl; congruence.
      * destruct Hin as [<-|Hin].
        -- assert (Hw' : ci_word a e = Some (e, [])).
           { apply ci_word_spec. rewrite app_nil_r. auto. }
           assert (Hw'' : ci_word a e = Some (w, r)) by (apply ci_word_spec; auto).
           rewrite Hw' in Hw''. injection Hw'' as <- <-. discriminate.
        -- apply IH. eauto.
    + destruct Hin as [<-|Hin].
      * assert (Hw' : ci_word a e = Some (e, [])).
        { apply ci_word_spec. rewrite app_nil_r. auto. }
        congruence.
      * apply IH. eauto.
Qed.

Lemma is_ext_no_nl e : is_ext e = true -> Forall (fun c => c <> c_nl) e.
Proof.
  intros H%is_ext_chars. eapply List.Forall_impl; [|exact H].
  intros c. apply ext_char_not_nl.
Qed.

Lemma is_ext_no_dot e : is_ext e = true -> Forall (fun c => c <> c_dot) e.
Proof.
  intros H%is_ext_chars. eapply List.Forall_impl; [|exact H].
  intros c. apply ext_char_not_dot.
Qed.

Lemma dot_ext_complete e : is_ext e = true -> dot_ext (c_dot :: e) = Some e.
Proof.
  intros H. unfold dot_ext. rewrite N.eqb_refl. apply ext_alt_complete.
  - apply is_ext_no_nl, H.
  - apply is_ext_spec, H.
Qed.

Lemma dot_ext_sound s e :
  dot_ext s = Some e ->
  exists nl, s = c_dot :: e ++ nl /\ (nl = [] \/ nl = [c_nl]) /\ is_ext e = true.
Proof.
  unfold dot_ext. destruct s as [|c s]; [discriminate|].
  destruct (c =? c_dot) eqn:Hc; [|discriminate].
  apply N.eqb_eq in Hc. subst c. intros H.
  apply ext_alt_sound in H. destruct H as (a & r & Ha & Hw & Hr).
  apply ci_word_spec in Hw. destruct Hw as [-> Hf].
  exists r. split; [reflexivity|]. split; [apply at_end_spec, Hr|].
  apply is_ext_spec. eauto.
Qed.

(** ** The tail of the name *)

Lemma underscore_spec s r : underscore s = Some r <-> s = c_us :: r.
Proof.
  unfold underscore. destruct s as [|c s].
  - split; discriminate.
  - destruct (c =? c_us) eqn:Hc.
    + apply N.eqb_eq in Hc. subst c. split; intros H; injection H as <-; reflexivity.
    + apply N.eqb_neq in Hc. split; [discriminate|]. intros H. injection H as -> _. congruence.
Qed.

Lemma underscore_dot r : underscore (c_dot :: r) = None.
Proof. reflexivity. Qed.

Lemma digits_dot n r : digits (S n) (c_dot :: r) = None.
Proof. reflexivity. Qed.

Lemma opt_us_dot_ext_sound s e :
  opt_us_dot_ext s = Some e ->
  exists u nl, s = u ++ c_dot :: e ++ nl /\ (u = [] \/ u = [c_us])
               /\ (nl = [] \/ nl = [c_nl]) /\ is_ext e = true.
Proof.
  unfold opt_us_dot_ext. intros H.
  assert (Hd : forall x, dot_ext x = Some e ->
                 exists nl, x = [] ++ c_dot :: e ++ nl /\ (nl = [] \/ nl = [c_nl])
                            /\ is_ext e = true) by (intros x Hx; apply dot_ext_sound, Hx).
  destruct (underscore s) as [r|] eqn:Hu.
  - apply underscore_spec in Hu. subst s.
    destruct (dot_ext r) as [e'|] eqn:Hr.
    + injection H as ->. apply dot_ext_sound in Hr.
      destruct Hr as (nl & -> & Hnl & He). exists [c_us], nl. auto.
    + destruct (Hd _ H) as (nl & ? & ? & ?). exists [], nl. auto.
  - destruct (Hd _ H) as (nl & ? & ? & ?). exists [], nl. auto.
Qed.

Lemma opt_num2_sound s e :
  opt_num2 s = Some e ->
  exists mid nl, s = mid ++ c_dot :: e ++ nl /\ between_shape mid
                 /\ (nl = [] \/ nl = [c_nl]) /\ is_ext e = true.
Proof.
  unfold opt_num2. intros H.
  assert (Hd : forall x, opt_us_dot_ext x = Some e ->
                 exists mid nl, x = mid ++ c_dot :: e ++ nl /\ between_shape mid
                                /\ (nl = [] \/ nl = [c_nl]) /\ is_ext e = true).
  { intros x Hx. apply opt_us_dot_ext_sound in Hx.
    destruct Hx as (u & nl & -> & [->| ->] & Hnl & He);
      eexists _, nl; (split; [reflexivity|]); split; auto; constructor. }
  destruct (underscore s) as [r|] eqn:Hu; [|auto].
  apply underscore_spec in Hu. subst s.
  destruct (digits 5 r) as [[d r']|] eqn:Hr; [|auto].
  apply digits_sound in Hr. destruct Hr as [-> Hdg].
  destruct (opt_us_dot_ext r') as [e'|] eqn:Hr'; [|auto].
  injection H as ->. apply opt_us_dot_ext_sound in Hr'.
  destruct Hr' as (u & nl & -> & [->| ->] & Hnl & He).
  - exists (c_us :: d), nl. repeat split; auto. constructor; assumption.
  - exists (c_us :: d ++ [c_us]), nl. repeat split; auto.
    + simpl. rewrite <- !app_assoc. reflexivity.
    + constructor; assumption.
Qed.

Lemma name_tail_sound s n e :
  name_tail s = Some (n, e) ->
  exists mid nl, s = c_us :: n ++ mid ++ c_dot :: e ++ nl /\ digitsb 5 n = true
                 /\ between_shape mid /\ (nl = [] \/ nl = [c_nl])
                 /\ is_ext e = true.
Proof.
  unfold name_tail. intros H.
  destruct (underscore s) as [r|] eqn:Hu; [|discriminate].
  apply underscore_spec in Hu. subst s.
  destruct (digits 5 r) as [[d r']|] eqn:Hr; [|discriminate].
  apply digits_sound in Hr. destruct Hr as [-> Hdg].
  destruct (opt_num2 r') as [e'|] eqn:Hr'; [|discriminate].
  injection H as -> ->. apply opt_num2_sound in Hr'.
  destruct Hr' as (mid & nl & -> & Hm & Hnl & He).
  exists mid, nl. auto.
Qed.

Lemma opt_us_dot_ext_dot e :
  is_ext e = true -> opt_us_dot_ext (c_dot :: e) = Some e.
Proof.
  intros He. unfold opt_us_dot_ext.
  rewrite underscore_dot. apply dot_ext_complete, He.
Qed.

Lemma opt_us_dot_ext_us e :
  is_ext e = true -> opt_us_dot_ext (c_us :: c_dot :: e) = Some e.
Proof.
  intros He. unfold opt_us_dot_ext.
  replace (underscore (c_us :: c_dot :: e)) with (Some (c_dot :: e)) by reflexivity.
  rewrite dot_ext_complete by assumption. reflexivity.
Qed.

Lemma name_tail_complete n mid e :
  digitsb 5 n = true -> between_shape mid -> is_ext e = true ->
  name_tail (c_us :: n ++ mid ++ c_dot :: e) = Some (n, e).
Proof.
  intros Hn Hm He. unfold name_tail.
  replace (underscore (c_us :: n ++ mid ++ c_dot :: e))
    with (Some (n ++ mid ++ c_dot :: e)) by reflexivity.
  rewrite digits_app by assumption.
  assert (opt_num2 (mid ++ c_dot :: e) = Some e) as ->; [|reflexivity].
  unfold opt_num2. destruct Hm as [| |d Hd|d Hd].
  - rewrite app_nil_l, underscore_dot. apply opt_us_dot_ext_dot, He.
  - replace (underscore ([c_us] ++ c_dot :: e)) with (Some (c_dot :: e)) by reflexivity.
    rewrite digits_dot. apply opt_us_dot_ext_us, He.
  - replace (underscore ((c_us :: d) ++ c_dot :: e)) with (Some (d ++ c_dot :: e)) by reflexivity.
    rewrite digits_app by assumption.
    rewrite opt_us_dot_ext_dot by assumption. reflexivity.
  - replace (underscore ((c_us :: d ++ [c_us]) ++ c_dot :: e))
      with (Some (d ++ c_us :: c_dot :: e))
      by (simpl; rewrite <- app_assoc; reflexivity).
    rewrite digits_app by assumption.
    rewrite opt_us_dot_ext_us by assumption. reflexivity.
Qed.

(** Two texts that end in a dot and a dot-free run agree on both sides of
    that dot. *)
Lemma split_last_dot (a b e1 e2 : str) :
  Forall (fun c => c <> c_dot) e1 -> Forall (fun c => c <> c_dot) e2 ->
  a ++ c_dot :: e1 = b ++ c_dot :: e2 -> a = b /\ e1 = e2.
Proof.
  intros H1 H2. revert b. induction a as [|x a IH]; intros [|y b] H; simpl in H.
  - injection H as ->. auto.
  - injection H as <- ->. exfalso. apply List.Forall_app in H1. destruct H1 as [_ H1].
    inversion H1; congruence.
  - injection H as -> <-. exfalso. apply List.Forall_app in H2. destruct H2 as [_ H2].
    inversion H2; congruence.
  - injection H as -> H. destruct (IH _ H) as [-> ->]. auto.
Qed.

(** A tail that ends in [. e] for an extension [e] has no newline after
    it, and [e] is the extension it yields. *)
Lemma tail_ends x e n' mid e' nl :
  is_ext e = true -> is_ext e' = true -> nl = [] \/ nl = [c_nl] ->
  x ++ c_dot :: e = c_us :: n' ++ mid ++ c_dot :: e' ++ nl ->
  x = c_us :: n' ++ mid /\ e' = e.
Proof.
  intros He He' Hnl H.
  assert (H' : x ++ c_dot :: e = (c_us :: n' ++ mid) ++ c_dot :: (e' ++ nl)).
  { rewrite H. simpl. rewrite <- app_assoc. reflexivity. }
  apply split_last_dot in H'.
  - destruct H' as [-> H']. split; [reflexivity|].
    destruct Hnl as [->| ->].
    + rewrite app_nil_r in H'. auto.
    + exfalso. apply is_ext_no_nl in He. rewrite H' in He.
      apply List.Forall_app in He. destruct He as [_ He]. inversion He; congruence.
  - apply is_ext_no_dot, He.
  - apply List.Forall_app. split; [apply is_ext_no_dot, He'|].
    destruct Hnl as [->| ->]; repeat constructor. discriminate.
Qed.

(** ** The lazy middle and the whole pattern *)

Lemma is_middle_cons c m :
  is_middle (c :: m) = true -> c <> c_nl /\ (m = [] \/ is_middle m = true).
Proof.
  intros [_ Hf]%is_middle_spec. inversion Hf as [|? ? Hc Hm]; subst.
  split; [assumption|]. destruct m as [|c' m']; [left; reflexivity|right].
  apply is_middle_spec. split; [discriminate|assumption].
Qed.

Lemma middle_lazy_complete acc m t num e :
  is_middle m = true -> name_tail t = Some (num, e) ->
  (forall m1 m2, m = m1 ++ m2 -> m1 <> [] -> m2 <> [] ->
                 name_tail (m2 ++ t) = None) ->
  middle_lazy acc (m ++ t) = Some (acc ++ m, num, e).
Proof.
  revert acc. induction m as [|c m IH]; intros acc Hm Ht Hmin.
  - discriminate.
  - apply is_middle_cons in Hm. destruct Hm as [Hc Hm].
    apply N.eqb_neq in Hc. simpl. rewrite Hc.
    destruct Hm as [->|Hm].
    + simpl. rewrite Ht. reflexivity.
    + rewrite (Hmin [c] m eq_refl) by first [discriminate | intros ->; discriminate Hm].
      rewrite IH; auto.
      * rewrite <- app_assoc. reflexivity.
      * intros m1 m2 -> H1 H2. apply (Hmin (c :: m1) m2); auto.
Qed.

Lemma middle_lazy_sound acc s m num e :
  middle_lazy acc s = Some (m, num, e) ->
  exists m0 t, m = acc ++ m0 /\ s = m0 ++ t /\ is_middle m0 = true
               /\ name_tail t = Some (num, e).
Proof.
  revert acc. induction s as [|c s IH]; intros acc H; simpl in H; [discriminate|].
  destruct (c =? c_nl) eqn:Hc; [discriminate|].
  apply N.eqb_neq in Hc.
  destruct (name_tail s) as [[n' e']|] eqn:Ht.
  - injection H as <- <- <-. exists [c], s. repeat split; auto.
    apply is_middle_spec. split; [discriminate|]. repeat constructor. assumption.
  - apply IH in H. destruct H as (m0 & t & -> & -> & Hm & Ht').
    exists (c :: m0), t. repeat split; auto.
    + rewrite <- app_assoc. reflexivity.
    + apply is_middle_spec in Hm. destruct Hm as [_ Hm].
      apply is_middle_spec. split; [discriminate|]. constructor; assumption.
Qed.

Lemma NAME_RE_sound s g :
  NAME_RE s = Some g ->
  exists t,
    s = g_date g ++ [c_us] ++ g_content g ++ [c_us] ++ g_char g ++ [c_us]
        ++ g_face g ++ [c_us] ++ g_middle g ++ t
    /\ digitsb 8 (g_date g) = true /\ is_field (g_content g) = true
    /\ is_field (g_char g) = true /\ is_field (g_face g) = true
    /\ is_middle (g_middle g) = true
    /\ name_tail t = Some (g_num g, g_ext g).
Proof.
  unfold NAME_RE. intros H.
  destruct (digits 8 s) as [[d r0]|] eqn:H0; [|discriminate].
  destruct (underscore r0) as [r1|] eqn:H1; [|discriminate].
  destruct (field r1) as [[c r2]|] eqn:H2; [|discriminate].
  destruct (field r2) as [[h r3]|] eqn:H3; [|discriminate].
  destruct (field r3) as [[f r4]|] eqn:H4; [|discriminate].
  destruct (middle_lazy [] r4) as [[[m n] e]|] eqn:H5; [|discriminate].
  injection H as <-. cbn [g_date g_content g_char g_face g_middle g_num g_ext].
  apply digits_sound in H0. destruct H0 as [-> Hd].
  apply underscore_spec in H1. subst r0.
  apply field_sound in H2. destruct H2 as [-> Hc].
  apply field_sound in H3. destruct H3 as [-> Hh].
  apply field_sound in H4. destruct H4 as [-> Hf].
  apply middle_lazy_sound in H5. destruct H5 as (m0 & t & -> & -> & Hm & Ht).
  exists t. simpl. repeat split; auto.
Qed.

Lemma NAME_RE_complete d c h f m t n e :
  digitsb 8 d = true -> is_field c = true -> is_field h = true ->
  is_field f = true -> is_middle m = true -> name_tail t = Some (n, e) ->
  (forall m1 m2, m = m1 ++ m2 -> m1 <> [] -> m2 <> [] ->
                 name_tail (m2 ++ t) = None) ->
  NAME_RE (d ++ [c_us] ++ c ++ [c_us] ++ h ++ [c_us] ++ f ++ [c_us] ++ m ++ t)
  = Some {| g_date := d; g_content := c; g_char := h; g_face := f;
            g_middle := m; g_num := n; g_ext := e |}.
Proof.
  intros Hd Hc Hh Hf Hm Ht Hmin. unfold NAME_RE.
  rewrite digits_app by assumption.
  replace (underscore ([c_us] ++ c ++ [c_us] ++ h ++ [c_us] ++ f ++ [c_us] ++ m ++ t))
    with (Some (c ++ c_us :: h ++ [c_us] ++ f ++ [c_us] ++ m ++ t)) by reflexivity.
  rewrite field_app by assumption.
  replace (h ++ [c_us] ++ f ++ [c_us] ++ m ++ t)
    with (h ++ c_us :: f ++ [c_us] ++ m ++ t) by reflexivity.
  rewrite field_app by assumption.
  replace (f ++ [c_us] ++ m ++ t) with (f ++ c_us :: m ++ t) by reflexivity.
  rewrite field_app by assumption.
  rewrite (middle_lazy_complete [] m t n e) by assumption.
  reflexivity.
Qed.

(** No text before two groups of five digits can be cut shorter: what is
    left of it would have to be followed by a third group. *)
Lemma no_shorter_two_groups m2 n1 n2 u e :
  m2 <> [] -> digitsb 5 n1 = true -> digitsb 5 n2 = true ->
  u = [] \/ u = [c_us] -> is_ext e = true ->
  name_tail (m2 ++ c_us :: n1 ++ (c_us :: n2 ++ u) ++ c_dot :: e) = None.
Proof.
  intros Hm H1 H2 Hu He.
  destruct (name_tail _) as [[n' e']|] eqn:Ht; [|reflexivity]. exfalso.
  apply name_tail_sound in Ht.
  destruct Ht as (mid & nl & Heq & Hn' & Hmid & Hnl & He').
  assert (Heq' : (m2 ++ c_us :: n1 ++ c_us :: n2 ++ u) ++ c_dot :: e
                 = c_us :: n' ++ mid ++ c_dot :: e' ++ nl).
  { rewrite <- Heq. rewrite <- !app_assoc. simpl. rewrite <- !app_assoc.
    simpl. rewrite <- !app_assoc. reflexivity. }
  apply tail_ends in Heq'; auto. destruct Heq' as [HX _].
  apply digitsb_5_inv in H1. destruct H1 as (a1 & a2 & a3 & a4 & a5 & -> & _).
  apply digitsb_5_inv in H2.
  destruct H2 as (b1 & b2 & b3 & b4 & b5 & -> & _ & _ & _ & _ & Hb5).
  apply digitsb_5_inv in Hn'. destruct Hn' as (x1 & x2 & x3 & x4 & x5 & -> & _).
  pose proof (f_equal (@length N) HX) as Hl.
  destruct m2 as [|y m2]; [congruence|].
  destruct Hmid as [| |z Hz|z Hz];
    try (apply digitsb_5_inv in Hz;
         destruct Hz as (z1 & z2 & z3 & z4 & z5 & -> & _));
    destruct Hu as [->| ->];
    rewrite ?length_app in Hl; simpl in Hl; rewrite ?length_app in Hl;
    simpl in Hl; try lia.
  destruct m2; [|simpl in Hl; lia].
  apply (f_equal (fun l => List.last l 0)) in HX. simpl in HX.
  apply digit_not_us in Hb5. congruence.
Qed.

(** ** Canonical names *)

Lemma parse_filename_spelled name d c h f m n between e :
  normalize_filename name = spell d c h f m n between e ->
  digitsb 8 d = true -> is_field c = true -> is_field h = true ->
  is_field f = true -> is_middle m = true -> digitsb 5 n = true ->
  between_shape between -> is_ext e = true ->
  (forall m1 m2, m = m1 ++ m2 -> m1 <> [] -> m2 <> [] ->
                 name_tail (m2 ++ c_us :: n ++ between ++ c_dot :: e) = None) ->
  parse_filename name
  = Some {| p_date := d; p_content := c; p_char := h; p_face := f;
            p_middle := m; p_num := n; p_ext := lower e |}.
Proof.
  intros Hn Hd Hc Hh Hf Hm Hnum Hb He Hmin. unfold parse_filename.
  rewrite Hn. unfold spell.
  replace (m ++ [c_us] ++ n ++ between ++ [c_dot] ++ e)
    with (m ++ c_us :: n ++ between ++ c_dot :: e) by reflexivity.
  rewrite (NAME_RE_complete d c h f m _ n e); auto.
  apply name_tail_complete; auto.
Qed.

(** C2: a name whose normalized form follows the grammar with two groups of
    five digits before the extension (and maybe an underscore after them)
    is rendered with the first group only and without that underscore; the
    example of the specification is one of them. *)
Theorem second_sequence_collapse :
  (forall name d c h f m n1 n2 u e,
      normalize_filename name = spell d c h f m n1 (c_us :: n2 ++ u) e ->
      digitsb 8 d = true -> is_field c = true -> is_field h = true ->
      is_field f = true -> is_middle m = true ->
      digitsb 5 n1 = true -> digitsb 5 n2 = true ->
      u = [] \/ u = [c_us] -> is_ext e = true ->
      canonicalize name = Some (spell d c h f m n1 [] (lower e)))
  /\ canonicalize (lit "20240102_illustA_charX_faceY_poseZ_00017_00017_.png")
     = Some (lit "20240102_illustA_charX_faceY_poseZ_00017.png").
Proof.
  split; [|vm_compute; reflexivity].
  intros name d c h f m n1 n2 u e Hn Hd Hc Hh Hf Hm H1 H2 Hu He.
  unfold canonicalize.
  rewrite (parse_filename_spelled name d c h f m n1 (c_us :: n2 ++ u) e); auto.
  - destruct Hu as [->| ->]; [rewrite app_nil_r|]; constructor; assumption.
  - intros m1 m2 -> Hm1 Hm2. apply no_shorter_two_groups; auto.
Qed.

Lemma second_sequence_collapse_witness :
  normalize_filename (lit "20231231_cat_Mia_smile_red_dress_00042_00043.JPG")
  = spell (lit "20231231") (lit "cat") (lit "Mia") (lit "smile")
          (lit "red_dress") (lit "00042") (c_us :: lit "00043" ++ []) (lit "JPG")
  /\ canonicalize (lit "20231231_cat_Mia_smile_red_dress_00042_00043.JPG")
     = Some (lit "20231231_cat_Mia_smile_red_dress_00042.jpg").
Proof.
  split; [vm_compute; reflexivity|].
  apply (proj1 second_sequence_collapse
           (lit "20231231_cat_Mia_smile_red_dress_00042_00043.JPG")
           (lit "20231231") (lit "cat") (lit "Mia") (lit "smile")
           (lit "red_dress") (lit "00042") (lit "00043") [] (lit "JPG"));
    try (vm_compute; reflexivity).
  left; reflexivity.
Defined.

(** ** Substitution *)

Lemma consumes_length m s r : consumes m -> m s = Some r -> (length r < length s)%nat.
Proof.
  intros Hm H. destruct (Hm s r H) as (k & Hk & ->).
  rewrite length_app. destruct k; [congruence|simpl; lia].
Qed.

Lemma re_sub_from_enough m repl :
  consumes m ->
  forall k1 k2 s, (length s <= k1)%nat -> (length s <= k2)%nat ->
                  re_sub_from k1 m repl s = re_sub_from k2 m repl s.
Proof.
  intros Hm. induction k1 as [|k1 IH]; intros k2 s H1 H2.
  - destruct s; [|simpl in H1; lia]. destruct k2; reflexivity.
  - destruct s as [|c s]; [destruct k2; reflexivity|].
    destruct k2 as [|k2]; [simpl in H2; lia|]. simpl in H1, H2. simpl.
    destruct (m (c :: s)) as [r|] eqn:Hr.
    + pose proof (consumes_length _ _ _ Hm Hr) as Hl. simpl in Hl.
      rewrite (IH k2 r) by lia. reflexivity.
    + rewrite (IH k2 s) by lia. reflexivity.
Qed.

Lemma re_sub_nil m repl : re_sub m repl [] = [].
Proof. reflexivity. Qed.

Lemma re_sub_cons m repl c s :
  consumes m ->
  re_sub m repl (c :: s)
  = match m (c :: s) with
    | Some r => repl ++ re_sub m repl r
    | None => c :: re_sub m repl s
    end.
Proof.
  intros Hm. unfold re_sub. simpl.
  destruct (m (c :: s)) as [r|] eqn:Hr.
  - pose proof (consumes_length _ _ _ Hm Hr) as Hl. simpl in Hl.
    rewrite (re_sub_from_enough m repl Hm (length s) (length r) r) by lia.
    reflexivity.
  - reflexivity.
Qed.

(** Induction along the scan of [re_sub]. *)
Lemma re_sub_ind m repl (P : str -> str -> Prop) :
  consumes m ->
  P [] [] ->
  (forall c s, m (c :: s) = None -> P s (re_sub m repl s) ->
               P (c :: s) (c :: re_sub m repl s)) ->
  (forall c s r, m (c :: s) = Some r -> P r (re_sub m repl r) ->
                 P (c :: s) (repl ++ re_sub m repl r)) ->
  forall s, P s (re_sub m repl s).
Proof.
  intros Hm Hnil Hcopy Hrepl s.
  remember (length s) as n eqn:Hn. revert s Hn.
  induction n as [n IH] using lt_wf_ind. intros s Hn.
  destruct s as [|c s]; [exact Hnil|].
  rewrite re_sub_cons by assumption.
  destruct (m (c :: s)) as [r|] eqn:Hr.
  - apply Hrepl; [assumption|].
    apply (IH (length r)); [|reflexivity].
    pose proof (consumes_length _ _ _ Hm Hr). lia.
  - apply Hcopy; [assumption|].
    apply (IH (length s)); [|reflexivity]. simpl in Hn. lia.
Qed.

Lemma re_sub_elements m repl (Q : N -> Prop) s :
  consumes m -> Forall Q repl -> Forall Q s -> Forall Q (re_sub m repl s).
Proof.
  intros Hm Hrepl. revert s.
  apply (re_sub_ind m repl (fun s out => Forall Q s -> Forall Q out)); auto.
  - intros c s _ IH H. inversion H; subst. constructor; auto.
  - intros c s r Hr IH H. apply List.Forall_app. split; [assumption|].
    apply IH. destruct (Hm _ _ Hr) as (k & _ & Hk). rewrite Hk in H.
    apply List.Forall_app in H. apply H.
Qed.

Lemma drop_space_split s :
  exists k, s = k ++ drop_space s /\ Forall (fun c => is_space c = true) k.
Proof.
  induction s as [|c s (k & Hk & Hf)]; simpl.
  - exists []. split; [reflexivity|constructor].
  - destruct (is_space c) eqn:Hc.
    + exists (c :: k). split; [simpl; congruence|constructor; assumption].
    + exists []. split; [reflexivity|constructor].
Qed.

Lemma drop_space_head s : head_ok (drop_space s).
Proof.
  induction s as [|c s IH]; simpl; [exact I|].
  destruct (is_space c) eqn:Hc; [assumption|]. simpl. assumption.
Qed.

Lemma drop_space_id s : head_ok s -> drop_space s = s.
Proof. destruct s as [|c s]; simpl; [reflexivity|]. intros ->. reflexivity. Qed.

Lemma drop_space_cons_space c s : is_space c = true -> drop_space (c :: s) = drop_space s.
Proof. intros H. simpl. rewrite H. reflexivity. Qed.

Lemma match_ws_us_consumes : consumes match_ws_us.
Proof.
  intros s r. unfold match_ws_us.
  destruct (drop_space_split s) as (k & Hk & _).
  destruct (drop_space s) as [|c r0] eqn:Hs; [discriminate|].
  destruct (c =? c_us); [|discriminate]. intros H. injection H as <-.
  destruct (drop_space_split r0) as (k' & Hk' & _).
  exists (k ++ c :: k'). split; [destruct k; discriminate|].
  rewrite Hk. rewrite <- app_assoc. simpl. rewrite <- Hk'. reflexivity.
Qed.

Lemma match_ws_dot_consumes : consumes match_ws_dot.
Proof.
  intros s r. unfold match_ws_dot. destruct s as [|c s]; [discriminate|].
  destruct (is_space c); [|discriminate].
  destruct (drop_space_split s) as (k & Hk & _).
  destruct (drop_space s) as [|d r0] eqn:Hs; [discriminate|].
  destruct (d =? c_dot); [|discriminate]. intros H. injection H as <-.
  exists (c :: k ++ [d]). split; [discriminate|].
  simpl. rewrite <- app_assoc. simpl. congruence.
Qed.

(** ** Neighbours *)

Lemma chain_tail R c s : chain R (c :: s) -> chain R s.
Proof. destruct s; simpl; [auto|]. intros [_ H]. exact H. Qed.

Lemma chain_app_r R x y : chain R (x ++ y) -> chain R y.
Proof.
  induction x as [|a x IH]; simpl app; [auto|].
  intros H. apply IH. eapply chain_tail, H.
Qed.

Lemma chain_app_l R x y : chain R (x ++ y) -> chain R x.
Proof.
  induction x as [|a x IH]; [simpl; auto|].
  destruct x as [|b x]; [simpl; auto|].
  intros H. simpl in H. destruct H as [Hab H]. split; [assumption|].
  apply IH. exact H.
Qed.

Lemma chain_cons R a s :
  chain R s -> (forall b t, s = b :: t -> R a b) -> chain R (a :: s).
Proof.
  intros Hs Hh. destruct s as [|b t]; [exact I|].
  split; [eapply Hh; reflexivity|exact Hs].
Qed.

Lemma chain_app R x a b y :
  chain R (x ++ [a]) -> R a b -> chain R (b :: y) -> chain R (x ++ a :: b :: y).
Proof.
  intros Hx Hab Hy. induction x as [|c x IH].
  - simpl. auto.
  - destruct x as [|d x].
    + simpl in *. intuition.
    + simpl in Hx. destruct Hx as [Hcd Hx]. simpl. split; [assumption|].
      apply IH. exact Hx.
Qed.

Lemma okU_no_space a b : is_space a = false -> is_space b = false -> okU a b.
Proof. intros Ha Hb. split; intros [H1 H2]; congruence. Qed.

Lemma okD_no_space a b : is_space a = false -> okD a b.
Proof. intros Ha [H1 H2]. congruence. Qed.

(** ** The stages of [normalize_filename] *)

Lemma replace_char_id a b s : Forall (fun c => c <> a) s -> replace_char a b s = s.
Proof.
  induction 1 as [|c s Hc Hs IH]; simpl; [reflexivity|].
  apply N.eqb_neq in Hc. rewrite Hc. f_equal. exact IH.
Qed.

Lemma remove_char_id a s : Forall (fun c => c <> a) s -> remove_char a s = s.
Proof.
  induction 1 as [|c s Hc Hs IH]; simpl; [reflexivity|].
  apply N.eqb_neq in Hc. rewrite Hc. simpl. f_equal. exact IH.
Qed.

Lemma stage1_not_banned s :
  Forall not_banned
    (remove_char c_katakana_dot
       (remove_char c_middle_dot (replace_char c_fullwidth_us c_us s))).
Proof.
  apply List.Forall_forall. intros c Hc.
  unfold remove_char in Hc. apply List.filter_In in Hc. destruct Hc as [Hc H3].
  apply List.filter_In in Hc. destruct Hc as [Hc H2].
  apply negb_true_iff, N.eqb_neq in H2, H3.
  unfold replace_char in Hc. apply List.in_map_iff in Hc.
  destruct Hc as (x & Hx & _). repeat split; auto.
  destruct (x =? c_fullwidth_us) eqn:E; [subst c; discriminate|].
  apply N.eqb_neq in E. congruence.
Qed.

Lemma match_ws_us_space c s :
  is_space c = true -> match_ws_us (c :: s) = match_ws_us s.
Proof. intros H. unfold match_ws_us. rewrite drop_space_cons_space by assumption. reflexivity. Qed.

Lemma match_ws_us_us s : match_ws_us (c_us :: s) = Some (drop_space s).
Proof. reflexivity. Qed.

Lemma sub_us_chain s :
  let out := re_sub match_ws_us [c_us] s in chain okU out /\ headU s out.
Proof.
  cbv zeta.
  apply (re_sub_ind match_ws_us [c_us] (fun s out => chain okU out /\ headU s out)).
  - apply match_ws_us_consumes.
  - split; exact I.
  - intros c s0 Hc [IH1 IH2]. split.
    + apply chain_cons; [assumption|]. intros b t Ht. rewrite Ht in IH2.
      destruct IH2 as [IHs IHu]. split; intros [H1 H2].
      * apply IHu; [assumption|]. rewrite <- (match_ws_us_space c) by assumption.
        assumption.
      * subst c. rewrite match_ws_us_us in Hc. discriminate.
    + split; [auto|]. intros ->. rewrite match_ws_us_us in Hc. discriminate.
  - intros c s0 r Hr [IH1 IH2]. split.
    + simpl. apply chain_cons; [assumption|]. intros b t Ht. rewrite Ht in IH2.
      destruct IH2 as [IHs IHu]. split; intros [H1 H2].
      * rewrite us_not_space in H1. discriminate.
      * specialize (IHs H2). unfold match_ws_us in Hr.
        destruct (drop_space (c :: s0)) as [|x r0]; [discriminate|].
        destruct (x =? c_us); [|discriminate]. injection Hr as <-.
        (* [r] starts with white space, yet had it dropped *)
        pose proof (drop_space_head r0) as Hh.
        revert IHs. unfold match_ws_us.
        rewrite (drop_space_id (drop_space r0)) by assumption.
        clear - Ht IH1 H2 Hh.
        destruct (drop_space r0) as [|y r1]; intros _.
        -- rewrite re_sub_nil in Ht. discriminate.
        -- simpl in Hh.
           rewrite re_sub_cons in Ht by apply match_ws_us_consumes.
           destruct (match_ws_us (y :: r1)).
           ++ simpl in Ht. injection Ht as <- _. rewrite us_not_space in H2. discriminate.
           ++ injection Ht as <- _. congruence.
    + simpl. split; [rewrite us_not_space; discriminate|]. intros _. congruence.
Qed.

Lemma match_ws_dot_space c s :
  is_space c = true -> match_ws_dot s <> None -> match_ws_dot (c :: s) <> None.
Proof.
  intros Hc. unfold match_ws_dot at 1. destruct s as [|x s]; [congruence|].
  destruct (is_space x) eqn:Hx; [|congruence].
  intros H. unfold match_ws_dot. rewrite Hc.
  rewrite drop_space_cons_space by assumption.
  destruct (drop_space s) as [|d r]; [congruence|].
  destruct (d =? c_dot); congruence.
Qed.

Lemma match_ws_dot_before_dot c s :
  is_space c = true -> match_ws_dot (c :: c_dot :: s) <> None.
Proof. intros Hc. unfold match_ws_dot. rewrite Hc. simpl. discriminate. Qed.

Lemma sub_dot_chain s :
  let out := re_sub match_ws_dot [c_dot] s in
  (chain okU s -> chain okU out) /\ chain okD out /\ headD s out.
Proof.
  cbv zeta.
  apply (re_sub_ind match_ws_dot [c_dot]
           (fun s out => (chain okU s -> chain okU out) /\ chain okD out
                         /\ headD s out)).
  - apply match_ws_dot_consumes.
  - repeat split; auto.
  - intros c s0 Hc (IH1 & IH2 & IH3). repeat split.
    + intros HU. apply chain_cons; [apply IH1; eapply chain_tail, HU|].
      intros b t Ht. rewrite Ht in IH3.
      destruct IH3 as [(t0 & -> & _)|[-> _]].
      * simpl in HU. apply HU.
      * split; intros [H1 H2]; [discriminate|].
        rewrite dot_not_space in H2. discriminate.
    + apply chain_cons; [assumption|]. intros b t Ht. rewrite Ht in IH3.
      intros [H1 H2]. subst b.
      destruct IH3 as [(t0 & -> & _)|[_ Hm]].
      * apply (match_ws_dot_before_dot c t0); assumption.
      * apply (match_ws_dot_space c s0); assumption.
    + left. exists s0. auto.
  - intros c s0 r Hr (IH1 & IH2 & IH3). repeat split.
    + intros HU. simpl. apply chain_cons.
      * apply IH1. destruct (match_ws_dot_consumes _ _ Hr) as (k & _ & Hk).
        rewrite Hk in HU. eapply chain_app_r, HU.
      * intros b t _. split; intros [H1 H2]; [|discriminate].
        rewrite dot_not_space in H1. discriminate.
    + simpl. apply chain_cons; [assumption|]. intros b t _ [H1 _].
      rewrite dot_not_space in H1. discriminate.
    + cbn [app headD]. right. split; [reflexivity|congruence].
Qed.

(** [strip] cuts white space off both ends. *)
Lemma strip_split s :
  exists a b, s = a ++ strip s ++ b.
Proof.
  unfold strip. destruct (drop_space_split s) as (a & Ha & _).
  destruct (drop_space_split (rev (drop_space s))) as (b & Hb & _).
  exists a, (rev b). rewrite <- rev_app_distr, <- Hb, rev_involutive. exact Ha.
Qed.

Lemma strip_head s : head_ok (strip s).
Proof.
  unfold strip. pose proof (drop_space_head s) as Hs.
  destruct (drop_space_split (rev (drop_space s))) as (b & Hb & _).
  apply (f_equal (@rev N)) in Hb. rewrite rev_involutive, rev_app_distr in Hb.
  destruct (rev (drop_space (rev (drop_space s)))) as [|x t]; [exact I|].
  rewrite Hb in Hs. exact Hs.
Qed.

Lemma strip_last s : head_ok (rev (strip s)).
Proof. unfold strip. rewrite rev_involutive. apply drop_space_head. Qed.

Lemma strip_id s : head_ok s -> head_ok (rev s) -> strip s = s.
Proof.
  intros H1 H2. unfold strip.
  rewrite (drop_space_id s), (drop_space_id (rev s)) by assumption.
  apply rev_involutive.
Qed.

(** The result of [normalize_filename] has the normal form. *)
Lemma normalize_clean name : clean (normalize_filename name).
Proof.
  unfold normalize_filename.
  set (s1 := remove_char _ _).
  set (s2 := re_sub match_ws_us [c_us] s1).
  set (s3 := re_sub match_ws_dot [c_dot] s2).
  assert (B1 : Forall not_banned s1) by apply stage1_not_banned.
  assert (B2 : Forall not_banned s2).
  { apply re_sub_elements; auto using match_ws_us_consumes.
    repeat constructor; discriminate. }
  assert (B3 : Forall not_banned s3).
  { apply re_sub_elements; auto using match_ws_dot_consumes.
    repeat constructor; discriminate. }
  destruct (sub_us_chain s1) as [U2 _]. fold s2 in U2.
  destruct (sub_dot_chain s2) as (U3 & D3 & _). fold s3 in U3, D3.
  specialize (U3 U2).
  destruct (strip_split s3) as (a & b & Hs).
  rewrite Hs in B3, U3, D3.
  repeat split.
  - apply List.Forall_app in B3. destruct B3 as [_ B3].
    apply List.Forall_app in B3. apply B3.
  - eapply chain_app_l, chain_app_r, U3.
  - eapply chain_app_l, chain_app_r, D3.
  - apply strip_head.
  - apply strip_last.
Qed.

(** A run of white space in a text with [R] between neighbours, where [R]
    lets no white space stand before [x], is not followed by [x]. *)
Lemma space_run_not_before (R : N -> N -> Prop) x s :
  (forall a b, R a b -> ~ (is_space a = true /\ b = x)) ->
  chain R s ->
  match s with c :: _ => is_space c = true | [] => False end ->
  match drop_space s with c :: _ => c <> x | [] => True end.
Proof.
  intros HR. induction s as [|c s IH]; [intros _ []|].
  intros Hc Hs. rewrite drop_space_cons_space by assumption.
  destruct s as [|d s]; [exact I|].
  destruct Hc as [Hcd Hc].
  destruct (is_space d) eqn:Hd.
  - apply IH; [exact Hc|reflexivity].
  - simpl. rewrite Hd. intros ->. apply (HR _ _ Hcd). auto.
Qed.

Lemma sub_us_id s : chain okU s -> re_sub match_ws_us [c_us] s = s.
Proof.
  induction s as [|c s IH]; intros HU; [reflexivity|].
  rewrite re_sub_cons by apply match_ws_us_consumes.
  specialize (IH (chain_tail _ _ _ HU)).
  destruct (match_ws_us (c :: s)) as [r|] eqn:Hr; [|congruence].
  destruct (is_space c) eqn:Hc.
  - exfalso.
    pose proof (space_run_not_before okU c_us (c :: s)
                  (fun a b H => proj1 H) HU Hc) as Hn.
    unfold match_ws_us in Hr. destruct (drop_space (c :: s)) as [|x r0]; [discriminate|].
    destruct (x =? c_us) eqn:Hx; [|discriminate]. apply N.eqb_eq in Hx. auto.
  - unfold match_ws_us in Hr. simpl in Hr. rewrite Hc in Hr.
    destruct (c =? c_us) eqn:Hx; [|discriminate]. apply N.eqb_eq in Hx. subst c.
    injection Hr as <-. rewrite drop_space_id.
    + simpl. congruence.
    + destruct s as [|d s]; [exact I|]. simpl in HU. destruct HU as [[_ H] _].
      simpl. destruct (is_space d); [exfalso; apply H; auto|reflexivity].
Qed.

Lemma sub_dot_id s : chain okD s -> re_sub match_ws_dot [c_dot] s = s.
Proof.
  induction s as [|c s IH]; intros HD; [reflexivity|].
  rewrite re_sub_cons by apply match_ws_dot_consumes.
  specialize (IH (chain_tail _ _ _ HD)).
  destruct (match_ws_dot (c :: s)) as [r|] eqn:Hr; [|congruence].
  exfalso. unfold match_ws_dot in Hr.
  destruct (is_space c) eqn:Hc; [|discriminate].
  pose proof (space_run_not_before okD c_dot (c :: s) (fun a b H => H) HD Hc) as Hn.
  rewrite drop_space_cons_space in Hn by assumption.
  destruct (drop_space s) as [|x r0]; [discriminate|].
  destruct (x =? c_dot) eqn:Hx; [|discriminate]. apply N.eqb_eq in Hx. auto.
Qed.

Lemma not_banned_stage1_id s :
  Forall not_banned s ->
  remove_char c_katakana_dot
    (remove_char c_middle_dot (replace_char c_fullwidth_us c_us s)) = s.
Proof.
  intros H. rewrite List.Forall_forall in H.
  assert (H1 : Forall (fun c => c <> c_fullwidth_us) s)
    by (apply List.Forall_forall; intros c Hc; apply (H c Hc)).
  assert (H2 : Forall (fun c => c <> c_middle_dot) s)
    by (apply List.Forall_forall; intros c Hc; apply (H c Hc)).
  assert (H3 : Forall (fun c => c <> c_katakana_dot) s)
    by (apply List.Forall_forall; intros c Hc; apply (H c Hc)).
  rewrite (replace_char_id _ _ s H1), (remove_char_id _ s H2).
  apply remove_char_id, H3.
Qed.

(** A text in normal form is left as it is. *)
Lemma normalize_id s : clean s -> normalize_filename s = s.
Proof.
  intros (B & U & D & H1 & H2). unfold normalize_filename.
  rewrite not_banned_stage1_id, sub_us_id, sub_dot_id by assumption.
  apply strip_id; assumption.
Qed.

(** ** Lower case of the extension *)

Lemma lower_char_ci a c :
  97 <= a <= 122 -> ci_char a c = true -> c <> 0x130 ->
  exists c', lower_char c = [c'] /\ ci_char a c' = true /\ lower_char c' = [c'].
Proof.
  intros Ha Hc Hn. unfold ci_char in Hc.
  rewrite !orb_true_iff, !andb_true_iff, !orb_true_iff, !N.eqb_eq in Hc.
  assert (Hlow : forall x, 97 <= x <= 122 \/ x = 0x131 -> lower_char x = [x]).
  { intros x Hx. unfold lower_char.
    destruct (N.leb_spec 65 x), (N.leb_spec x 90); simpl; try lia;
      destruct (N.eqb_spec x 0x130); try lia; reflexivity. }
  destruct Hc as [[Hc|Hc]|[Hi [Hc|Hc]]].
  - subst c. exists a. rewrite Hlow by lia. unfold ci_char. rewrite N.eqb_refl. auto.
  - exists a. split; [|split].
    + unfold lower_char.
      destruct (N.leb_spec 65 c), (N.leb_spec c 90); simpl; try lia. congruence.
    + unfold ci_char. rewrite N.eqb_refl. reflexivity.
    + apply Hlow. lia.
  - congruence.
  - subst a c. exists 0x131. repeat split; reflexivity.
Qed.

Lemma lower_is_ext e :
  is_ext e = true -> no_dot_above (lower e) = true ->
  is_ext (lower e) = true /\ lower (lower e) = lower e.
Proof.
  intros (a & Ha & Hf)%is_ext_spec Hno.
  pose proof alternatives_lower as Hl. rewrite List.Forall_forall in Hl.
  specialize (Hl a Ha).
  assert (H : Forall2 (fun a c => ci_char a c = true) a (lower e)
              /\ lower (lower e) = lower e).
  { clear Ha. induction Hf as [|x c a e Hx Hf IH].
    - split; [constructor|reflexivity].
    - inversion Hl as [|? ? Hx' Hl']; subst.
      unfold lower in *. simpl flat_map in *. unfold no_dot_above in *.
      rewrite forallb_app in Hno. apply andb_true_iff in Hno.
      destruct Hno as [Hno1 Hno2]. destruct (IH Hno2 Hl') as [IH1 IH2].
      destruct (N.eq_dec c 0x130) as [->|Hc]; [discriminate Hno1|].
      destruct (lower_char_ci x c Hx' Hx Hc) as (c' & E1 & E2 & E3).
      rewrite E1. simpl. rewrite E3. simpl. split; [constructor; assumption|].
      f_equal. exact IH2. }
  destruct H as [H1 H2]. split; [|assumption].
  apply is_ext_spec. eauto.
Qed.

Lemma ext_char_not_banned c : ext_char c -> not_banned c.
Proof.
  unfold ext_char, not_banned, c_fullwidth_us, c_middle_dot, c_katakana_dot. lia.
Qed.

(** ** Re-parsing a canonical name *)

Lemma chain_join R x a y :
  chain R (x ++ [a]) -> chain R (a :: y) -> chain R (x ++ a :: y).
Proof.
  intros Hx Hy. induction x as [|c x IH]; [exact Hy|].
  destruct x as [|d x].
  - simpl in *. intuition.
  - simpl in Hx. destruct Hx as [Hcd Hx]. simpl. split; [assumption|].
    apply IH. exact Hx.
Qed.

Lemma chain_no_space R s :
  (forall a b, is_space a = false -> is_space b = false -> R a b) ->
  Forall (fun c => is_space c = false) s -> chain R s.
Proof.
  intros HR. induction 1 as [|a s Ha Hs IH]; [exact I|].
  apply chain_cons; [assumption|]. intros b t ->.
  inversion Hs; subst. apply HR; auto.
Qed.

Lemma head_ok_rev_app x y :
  y <> [] -> Forall (fun c => is_space c = false) y -> head_ok (rev (x ++ y)).
Proof.
  intros Hy Hf. rewrite rev_app_distr.
  apply Forall_rev in Hf.
  destruct (rev y) as [|c t] eqn:E.
  - apply (f_equal (@rev N)) in E. rewrite rev_involutive in E. simpl in E. congruence.
  - simpl. inversion Hf; assumption.
Qed.

(** A text in normal form that runs up to a digit, then a dot and an
    extension, is in normal form. *)
Lemma clean_stem_ext x a rest e :
  clean (x ++ [a] ++ rest) -> head_ok (x ++ [a]) -> is_digit a = true ->
  is_ext e = true -> clean (x ++ [a] ++ c_dot :: e).
Proof.
  intros (B & U & D & _ & _) Hh Ha He.
  assert (Hsp : Forall (fun c => is_space c = false) (a :: c_dot :: e)).
  { constructor; [apply digit_not_space, Ha|]. constructor; [reflexivity|].
    eapply List.Forall_impl; [|apply is_ext_chars, He].
    intros c. apply ext_char_not_space. }
  rewrite app_assoc in B, U, D.
  repeat split.
  - apply List.Forall_app in B. destruct B as [B _].
    rewrite app_assoc. apply List.Forall_app. split; [exact B|].
    constructor; [repeat split; discriminate|].
    eapply List.Forall_impl; [|apply is_ext_chars, He].
    intros c. apply ext_char_not_banned.
  - apply chain_join; [eapply chain_app_l, U|].
    apply chain_no_space; [apply okU_no_space|exact Hsp].
  - apply chain_join; [eapply chain_app_l, D|].
    apply chain_no_space; [intros; apply okD_no_space; assumption|exact Hsp].
  - destruct x; simpl in *; assumption.
  - rewrite app_assoc. apply head_ok_rev_app; [discriminate|].
    inversion Hsp; subst. inversion H2; subst. constructor; assumption.
Qed.

Lemma last_app_cons (x : str) c y d :
  List.last (x ++ c :: y) d = List.last (c :: y) d.
Proof.
  induction x as [|a x IH]; [reflexivity|].
  simpl app. rewrite <- IH. simpl. destruct (x ++ c :: y) eqn:E; [|reflexivity].
  destruct x; discriminate.
Qed.

(** A middle without a number at its end cannot be cut shorter before a
    single number. *)
Lemma no_shorter_one_group m m1 m2 n e :
  has_num_suffix m = false -> m = m1 ++ m2 -> m1 <> [] -> m2 <> [] ->
  digitsb 5 n = true -> is_ext e = true ->
  name_tail (m2 ++ c_us :: n ++ [] ++ c_dot :: e) = None.
Proof.
  intros Hs -> Hm1 Hm2 Hn He.
  destruct (name_tail _) as [[n' e']|] eqn:Ht; [|reflexivity]. exfalso.
  apply name_tail_sound in Ht.
  destruct Ht as (mid & nl & Heq & Hn' & Hmid & Hnl & He').
  assert (Heq' : (m2 ++ c_us :: n) ++ c_dot :: e
                 = c_us :: n' ++ mid ++ c_dot :: e' ++ nl).
  { rewrite <- Heq. rewrite <- !app_assoc. reflexivity. }
  apply tail_ends in Heq'; auto. destruct Heq' as [HX _].
  apply digitsb_5_inv in Hn.
  destruct Hn as (a1 & a2 & a3 & a4 & a5 & -> & _ & _ & _ & _ & Ha5).
  apply digitsb_5_inv in Hn'.
  destruct Hn' as (x1 & x2 & x3 & x4 & x5 & -> & Hx1 & Hx2 & Hx3 & Hx4 & Hx5).
  pose proof (f_equal (@length N) HX) as Hl.
  pose proof (f_equal (fun l => List.last l 0) HX) as Hlast.
  cbv beta in Hlast. rewrite last_app_cons in Hlast.
  destruct Hmid as [| |z Hz|z Hz].
  - rewrite length_app in Hl. simpl in Hl. destruct m2; [congruence|simpl in Hl; lia].
  - simpl in Hlast. apply digit_not_us in Ha5. congruence.
  - apply digitsb_5_inv in Hz. destruct Hz as (z1 & z2 & z3 & z4 & z5 & -> & _).
    change (c_us :: [x1; x2; x3; x4; x5] ++ c_us :: [z1; z2; z3; z4; z5])
      with ((c_us :: [x1; x2; x3; x4; x5]) ++ (c_us :: [z1; z2; z3; z4; z5])) in HX.
    apply app_inj_2 in HX; [|reflexivity]. destruct HX as [-> _].
    clear - Hs Hm1 Hx1 Hx2 Hx3 Hx4 Hx5.
    unfold has_num_suffix in Hs. rewrite rev_app_distr in Hs. simpl in Hs.
    destruct (rev m1) as [|y t] eqn:E.
    + apply (f_equal (@rev N)) in E. rewrite rev_involutive in E. simpl in E. congruence.
    + simpl in Hs. rewrite Hx1, Hx2, Hx3, Hx4, Hx5 in Hs. discriminate.
  - apply digitsb_5_inv in Hz. destruct Hz as (z1 & z2 & z3 & z4 & z5 & -> & _).
    simpl in Hlast. apply digit_not_us in Ha5. congruence.
Qed.

Lemma parse_filename_sound name p :
  parse_filename name = Some p ->
  exists between e nl,
    normalize_filename name
    = spell (p_date p) (p_content p) (p_char p) (p_face p) (p_middle p)
            (p_num p) between e ++ nl
    /\ p_ext p = lower e
    /\ digitsb 8 (p_date p) = true /\ is_field (p_content p) = true
    /\ is_field (p_char p) = true /\ is_field (p_face p) = true
    /\ is_middle (p_middle p) = true /\ digitsb 5 (p_num p) = true
    /\ is_ext e = true.
Proof.
  unfold parse_filename. destruct (NAME_RE (normalize_filename name)) as [g|] eqn:Hg;
    [|discriminate].
  intros H. injection H as <-. cbn [p_date p_content p_char p_face p_middle p_num p_ext].
  apply NAME_RE_sound in Hg.
  destruct Hg as (t & Hs & Hd & Hc & Hh & Hf & Hm & Ht).
  apply name_tail_sound in Ht.
  destruct Ht as (mid & nl & -> & Hn & _ & _ & He).
  exists mid, (g_ext g), nl. repeat split; auto.
  rewrite Hs. unfold spell. repeat (progress (rewrite <- ?app_assoc; simpl)).
  reflexivity.
Qed.

Lemma canonical_clean name p :
  parse_filename name = Some p -> is_ext (p_ext p) = true ->
  clean (build_canonical_name p).
Proof.
  intros Hp He.
  destruct (parse_filename_sound _ _ Hp)
    as (between & e & nl & Hn & _ & Hd & _ & _ & _ & _ & Hnum & _).
  pose proof (normalize_clean name) as Hc. rewrite Hn in Hc.
  destruct p as [d c h f m n e']. simpl in *. unfold build_canonical_name. simpl.
  apply digitsb_5_inv in Hnum.
  destruct Hnum as (a1 & a2 & a3 & a4 & a5 & -> & _ & _ & _ & _ & Ha5).
  set (x := d ++ [c_us] ++ c ++ [c_us] ++ h ++ [c_us] ++ f ++ [c_us] ++ m
            ++ [c_us] ++ [a1; a2; a3; a4]).
  assert (E1 : forall r, d ++ c_us :: c ++ c_us :: h ++ c_us :: f ++ c_us :: m
                         ++ c_us :: [a1; a2; a3; a4; a5] ++ r
                         = x ++ [a5] ++ r).
  { intros r. unfold x. repeat (progress (rewrite <- ?app_assoc; simpl)).
    reflexivity. }
  rewrite (E1 (c_dot :: e')).
  apply (clean_stem_ext x a5 (between ++ [c_dot] ++ e ++ nl)); auto.
  - rewrite <- E1. unfold spell in Hc.
    repeat (progress (rewrite <- ?app_assoc in Hc; simpl in Hc)).
    exact Hc.
  - apply digitsb_spec in Hd. destruct Hd as [Hl Hd].
    destruct d as [|d1 d]; [discriminate|]. inversion Hd; subst.
    simpl. apply digit_not_space. assumption.
Qed.

(** C1, amended: a name that parses, whose middle does not itself end with
    an underscore and five digits after some text, and whose extension
    holds no U+0307, is rendered to a name that parses to the same tuple;
    rendering the parse of that name gives it back. *)
Theorem canonicalize_idempotent_amended name p :
  parse_filename name = Some p ->
  has_num_suffix (p_middle p) = false ->
  no_dot_above (p_ext p) = true ->
  parse_filename (build_canonical_name p) = Some p
  /\ canonicalize (build_canonical_name p) = Some (build_canonical_name p).
Proof.
  intros Hp Hs Hno.
  destruct (parse_filename_sound _ _ Hp)
    as (between & e & nl & Hn & Hext & Hd & Hc & Hh & Hf & Hm & Hnum & He).
  rewrite Hext in Hno. destruct (lower_is_ext e He Hno) as [Hle Hll].
  assert (Hclean : clean (build_canonical_name p)).
  { apply (canonical_clean name); [assumption|]. rewrite Hext. assumption. }
  assert (Hparse : parse_filename (build_canonical_name p) = Some p).
  { rewrite (parse_filename_spelled (build_canonical_name p)
               (p_date p) (p_content p) (p_char p) (p_face p) (p_middle p)
               (p_num p) [] (lower e)); auto.
    - rewrite Hll, <- Hext. destruct p; reflexivity.
    - rewrite normalize_id by assumption.
      unfold build_canonical_name, spell. rewrite Hext. reflexivity.
    - constructor.
    - intros m1 m2 Hsplit H1 H2.
      apply (no_shorter_one_group (p_middle p) m1 m2); auto. }
  split; [assumption|]. unfold canonicalize. rewrite Hparse. reflexivity.
Qed.

Lemma canonicalize_idempotent_amended_witness :
  parse_filename (lit "20240102_illustA_charX_faceY_poseZ_00017_00017_.PNG")
  = Some {| p_date := lit "20240102"; p_content := lit "illustA";
            p_char := lit "charX"; p_face := lit "faceY";
            p_middle := lit "poseZ"; p_num := lit "00017";
            p_ext := lit "png" |}
  /\ canonicalize (lit "20240102_illustA_charX_faceY_poseZ_00017.png")
     = Some (lit "20240102_illustA_charX_faceY_poseZ_00017.png").
Proof.
  split; [vm_compute; reflexivity|].
  apply (canonicalize_idempotent_amended
           (lit "20240102_illustA_charX_faceY_poseZ_00017_00017_.PNG")
           {| p_date := lit "20240102"; p_content := lit "illustA";
              p_char := lit "charX"; p_face := lit "faceY";
              p_middle := lit "poseZ"; p_num := lit "00017";
              p_ext := lit "png" |});
    vm_compute; reflexivity.
Defined.

(** C1 as stated fails: with three groups of five digits the first render
    still has two of them, and rendering its parse drops one more. *)
Lemma canonicalize_not_idempotent :
  canonicalize (lit "20240102_a_b_c_d_00001_00002_00003.png")
  = Some (lit "20240102_a_b_c_d_00001_00002.png")
  /\ canonicalize (lit "20240102_a_b_c_d_00001_00002.png")
     = Some (lit "20240102_a_b_c_d_00001.png")
  /\ lit "20240102_a_b_c_d_00001.png" <> lit "20240102_a_b_c_d_00001_00002.png".
Proof. repeat split; try (vm_compute; reflexivity). discriminate. Qed.

(** ** The planned directory *)

Lemma split_on_no_sep sep s :
  Forall (fun c => c <> sep) s -> split_on sep s = [s].
Proof.
  induction 1 as [|c s Hc Hs IH]; [reflexivity|].
  simpl. apply N.eqb_neq in Hc. rewrite Hc, IH. reflexivity.
Qed.

Lemma is_segment_spec s :
  is_segment s = true <->
  s <> [] /\ Forall (fun c => c <> c_slash) s /\ s <> [c_dot].
Proof.
  unfold is_segment, eqb_str.
  rewrite !andb_true_iff, negb_true_iff, bool_decide_eq_false, forallb_forall,
    List.Forall_forall.
  split.
  - intros [[Hn Hf] Hd]. repeat split; auto.
    + destruct s; [discriminate|congruence].
    + intros x Hx. specialize (Hf x Hx). apply negb_true_iff, N.eqb_neq in Hf. exact Hf.
  - intros (Hn & Hf & Hd). repeat split; auto.
    + destruct s; [congruence|reflexivity].
    + intros x Hx. apply negb_true_iff, N.eqb_neq. auto.
Qed.

Lemma root_of_no_slash s : Forall (fun c => c <> c_slash) s -> root_of s = [].
Proof.
  intros H. destruct s as [|a s]; [reflexivity|]. inversion H; subst.
  simpl. apply N.eqb_neq in H2. rewrite H2. reflexivity.
Qed.

(** Joining a text without "/": one component, or none when it is empty
    or ".". *)
Lemma joinpath_no_slash p s :
  Forall (fun c => c <> c_slash) s ->
  joinpath p s
  = {| anchor := anchor p;
       parts := parts p ++ (if is_segment s then [s] else []) |}.
Proof.
  intros H. unfold joinpath, components.
  rewrite root_of_no_slash, split_on_no_sep by assumption. simpl.
  replace (is_segment s) with (nonempty s && negb (eqb_str s [c_dot])).
  - destruct (nonempty s && negb (eqb_str s [c_dot])); reflexivity.
  - unfold is_segment.
    assert (forallb (fun c => negb (c =? c_slash)) s = true) as ->.
    { apply forallb_forall. rewrite List.Forall_forall in H. intros x Hx.
      apply negb_true_iff, N.eqb_neq. auto. }
    rewrite andb_true_r. reflexivity.
Qed.

Lemma sanitize_no_slash s : Forall (fun c => c <> c_slash) (sanitize s).
Proof.
  unfold sanitize, replace_char. apply List.Forall_forall. intros c Hc.
  apply List.in_map_iff in Hc. destruct Hc as (x & <- & _).
  destruct (x =? c_slash) eqn:E; [discriminate|]. apply N.eqb_neq. exact E.
Qed.

Lemma sanitize_nil : sanitize [] = [].
Proof. reflexivity. Qed.

Lemma is_segment_nonempty s : is_segment s = true -> nonempty s = true.
Proof. unfold is_segment. rewrite !andb_true_iff. tauto. Qed.

Lemma safe_join_parts p l :
  safe_join p l
  = {| anchor := anchor p;
       parts := parts p ++ List.filter is_segment (map sanitize l) |}.
Proof.
  unfold safe_join. revert p. induction l as [|s l IH]; intros p; simpl.
  - rewrite app_nil_r. destruct p; reflexivity.
  - rewrite IH. destruct (nonempty (sanitize s)) eqn:Hn.
    + rewrite joinpath_no_slash by apply sanitize_no_slash. simpl.
      destruct (is_segment (sanitize s)); simpl; rewrite <- ?app_assoc; reflexivity.
    + destruct (is_segment (sanitize s)) eqn:Hs; [|reflexivity].
      apply is_segment_nonempty in Hs. congruence.
Qed.

Lemma filter_segments_present l :
  List.filter is_segment (map sanitize (List.filter nonempty l))
  = List.filter is_segment (map sanitize l).
Proof.
  induction l as [|s l IH]; [reflexivity|]. simpl.
  destruct s as [|c s]; simpl nonempty; cbv iota.
  - rewrite IH. reflexivity.
  - simpl. rewrite IH. reflexivity.
Qed.

(** C3, amended: the planned directory lies under the root and its
    segments are the nine values in the fixed order, each trimmed and with
    its slashes and backslashes replaced, those left out that are then
    empty or "."; no segment is empty, so with background and photo style
    absent the lighting follows what stands before them; a batch tag that
    is one path component is the last segment, and without a batch tag
    there is none. *)
Theorem plan_dir_segments root mode cats date batch :
  batch = [] \/ is_segment batch = true ->
  let segs := List.filter is_segment
                (map sanitize (folder_values mode cats date)) in
  plan_dir root mode cats date batch
  = {| anchor := anchor root;
       parts := parts root ++ segs ++ (if nonempty batch then [batch] else []) |}
  /\ Forall (fun s => s <> []) segs
  /\ (backg cats = [] -> photo cats = [] ->
      segs = List.filter is_segment
               (map sanitize [mode; content cats; character cats; face cats;
                              body cats; light cats; date])).
Proof.
  intros Hb. cbv zeta. unfold plan_dir, folder_parts.
  fold (folder_values mode cats date).
  rewrite safe_join_parts, filter_segments_present. repeat split.
  - destruct Hb as [->|Hb].
    + simpl. rewrite app_nil_r. reflexivity.
    + rewrite (is_segment_nonempty _ Hb).
      rewrite joinpath_no_slash by (apply is_segment_spec in Hb; tauto).
      rewrite Hb. simpl. rewrite <- app_assoc. reflexivity.
  - apply List.Forall_forall. intros s Hs. apply List.filter_In in Hs.
    destruct Hs as [_ Hs]. apply is_segment_spec in Hs. tauto.
  - intros H1 H2. unfold folder_values. rewrite H1, H2.
    cbn [map List.filter]. change (is_segment (sanitize [])) with false.
    cbv iota. reflexivity.
Qed.

Lemma plan_dir_segments_witness :
  plan_dir {| anchor := [c_slash]; parts := [lit "img"] |} (lit "SFW")
    {| content := lit "illustA"; character := lit "charX"; face := lit "faceY";
       body := lit "dress/red"; backg := []; photo := []; light := lit "soft" |}
    (lit "20240102") (lit "run1")
  = {| anchor := [c_slash];
       parts := [lit "img"; lit "SFW"; lit "illustA"; lit "charX"; lit "faceY";
                 lit "dress_red"; lit "soft"; lit "20240102"; lit "run1"] |}.
Proof.
  apply (plan_dir_segments {| anchor := [c_slash]; parts := [lit "img"] |}
           (lit "SFW")
           {| content := lit "illustA"; character := lit "charX";
              face := lit "faceY"; body := lit "dress/red"; backg := [];
              photo := []; light := lit "soft" |}
           (lit "20240102") (lit "run1")).
  right. vm_compute. reflexivity.
Defined.

(** C3 as stated fails: a batch tag with a slash makes two segments. *)
Lemma batch_tag_two_segments :
  plan_dir {| anchor := [c_slash]; parts := [lit "img"] |} (lit "SFW")
    {| content := lit "illustA"; character := lit "charX"; face := lit "faceY";
       body := lit "poseZ"; backg := []; photo := []; light := [] |}
    (lit "20240102") (lit "2024/run1")
  = {| anchor := [c_slash];
       parts := [lit "img"; lit "SFW"; lit "illustA"; lit "charX"; lit "faceY";
                 lit "poseZ"; lit "20240102"; lit "2024"; lit "run1"] |}
  /\ plan_dir {| anchor := [c_slash]; parts := [lit "img"] |} (lit "SFW")
       {| content := lit "illustA"; character := lit "charX"; face := lit "faceY";
          body := lit "poseZ"; backg := []; photo := []; light := [] |}
       (lit "20240102") (lit "2024/run1")
     <> stated_dir {| anchor := [c_slash]; parts := [lit "img"] |} (lit "SFW")
          {| content := lit "illustA"; character := lit "charX";
             face := lit "faceY"; body := lit "poseZ"; backg := [];
             photo := []; light := [] |}
          (lit "20240102") (lit "2024/run1").
Proof. split; [vm_compute; reflexivity|]. vm_compute. discriminate. Qed.

(** ** The pose column *)

Lemma val_same_but_pose r1 r2 col :
  same_but_pose r1 r2 -> col <> col_pose -> val r1 col = val r2 col.
Proof.
  intros H Hc. unfold val.
  rewrite <- (lookup_delete_ne r1 col_pose col), <- (lookup_delete_ne r2 col_pose col)
    by congruence.
  rewrite H. reflexivity.
Qed.

Lemma build_category_same_but_pose r1 r2 :
  same_but_pose r1 r2 ->
  build_category_from_excel_row r1 = build_category_from_excel_row r2.
Proof.
  intros H. unfold build_category_from_excel_row.
  rewrite !(val_same_but_pose r1 r2) by (assumption || (vm_compute; discriminate)).
  reflexivity.
Qed.

Lemma row_key_same_but_pose r1 r2 :
  same_but_pose r1 r2 -> row_key r1 = row_key r2.
Proof.
  intros H. unfold row_key. apply val_same_but_pose; [assumption|].
  vm_compute. discriminate.
Qed.

Lemma build_row_map_same_but_pose df1 df2 :
  Forall2 same_but_pose df1 df2 -> build_row_map df1 = build_row_map df2.
Proof.
  intros H. unfold build_row_map. generalize (@nil (str * Cats)) as d.
  induction H as [|r1 r2 df1 df2 Hr Hdf IH]; intros d; [reflexivity|].
  simpl. rewrite (row_key_same_but_pose r1 r2 Hr),
    (build_category_same_but_pose r1 r2 Hr). apply IH.
Qed.

(** C4: two tables whose rows differ in the pose column at most give every
    row the same categories, and every file the same categories, the same
    destination directory and path, and the same iteration of the loop. *)
Theorem pose_column_ignored df1 df2 :
  Forall2 same_but_pose df1 df2 ->
  Forall2 (fun r1 r2 => build_category_from_excel_row r1
                        = build_category_from_excel_row r2) df1 df2
  /\ (forall args mode root p f,
         let cats1 := resolve_cats (build_row_map df1) p (stem f) in
         let cats2 := resolve_cats (build_row_map df2) p (stem f) in
         cats1 = cats2
         /\ destination args mode root cats1 p f
            = destination args mode root cats2 p f)
  /\ (forall sha1 args mode root st f,
         process_file sha1 args mode root (build_row_map df1) st f
         = process_file sha1 args mode root (build_row_map df2) st f).
Proof.
  intros H. split; [|split].
  - eapply Forall2_impl; [exact H|]. apply build_category_same_but_pose.
  - intros. subst cats1 cats2.
    rewrite (build_row_map_same_but_pose df1 df2 H). auto.
  - intros. rewrite (build_row_map_same_but_pose df1 df2 H). reflexivity.
Qed.

Lemma pose_column_ignored_witness :
  let row (pose : str) : Row :=
    <[col_pose := pose]>
      (<[col_filename_prefix := lit "20240102_illustA"]>
         (<[col_content := lit "illustA"]> (<[col_light := lit "soft"]> ∅))) in
  Forall2 (fun r1 r2 => build_category_from_excel_row r1
                        = build_category_from_excel_row r2)
          [row (lit "standing")] [row (lit "sitting")].
Proof.
  intros row.
  apply (pose_column_ignored [row (lit "standing")] [row (lit "sitting")]).
  constructor; [|constructor]. vm_compute. reflexivity.
Defined.

(** ** The row map *)

Lemma eqb_str_spec a b : eqb_str a b = true <-> a = b.
Proof. unfold eqb_str. apply bool_decide_eq_true. Qed.

Lemma dict_get_set {V} k k' (v : V) d :
  dict_get k (dict_set k' v d) = if eqb_str k k' then Some v else dict_get k d.
Proof.
  unfold dict_get. induction d as [|[k0 v0] d IH]; simpl.
  - destruct (eqb_str k k'); reflexivity.
  - destruct (eqb_str k' k0) eqn:E; simpl.
    + apply eqb_str_spec in E. subst k0. destruct (eqb_str k k'); reflexivity.
    + destruct (eqb_str k k0) eqn:E0; simpl.
      * destruct (eqb_str k k') eqn:E1; [|reflexivity].
        apply eqb_str_spec in E0, E1. subst.
        assert (eqb_str k0 k0 = true) by (apply eqb_str_spec; reflexivity).
        congruence.
      * exact IH.
Qed.

(** Setting a key leaves the first key with a property where it is, or
    makes the new key the first when there was none. *)
Lemma first_key_set {V} P k' (v : V) d :
  first_key P (dict_set k' v d)
  = match first_key P d with
    | Some k => Some k
    | None => if P k' then Some k' else None
    end.
Proof.
  unfold first_key. induction d as [|[k0 v0] d IH]; simpl.
  - destruct (P k'); reflexivity.
  - destruct (eqb_str k' k0) eqn:E; simpl.
    + apply eqb_str_spec in E. subst k0. destruct (P k') eqn:HP; simpl; [reflexivity|].
      destruct (List.find (fun kv => P (fst kv)) d); reflexivity.
    + destruct (P k0); simpl; [reflexivity|]. exact IH.
Qed.

(** The entry a search by a property of the key finds is the entry of its
    key. *)
Lemma find_by_key {V} P (d : list (str * V)) :
  option_map snd (List.find (fun kv => P (fst kv)) d)
  = match first_key P d with
    | Some k => dict_get k d
    | None => None
    end.
Proof.
  unfold first_key, dict_get. induction d as [|[k0 v0] d IH]; simpl; [reflexivity|].
  destruct (P k0) eqn:HP; simpl.
  - assert (eqb_str k0 k0 = true) as -> by (apply eqb_str_spec; reflexivity).
    reflexivity.
  - rewrite IH. destruct (List.find (fun kv => P (fst kv)) d) as [[k1 v1]|] eqn:F;
      simpl; [|reflexivity].
    destruct (eqb_str k1 k0) eqn:E; [|reflexivity].
    apply eqb_str_spec in E. subst k1. apply List.find_some in F.
    simpl in F. destruct F as [_ F]. congruence.
Qed.

Lemma build_row_map_snoc df r :
  build_row_map (df ++ [r])
  = if nonempty (row_key r)
    then dict_set (row_key r) (build_category_from_excel_row r) (build_row_map df)
    else build_row_map df.
Proof. unfold build_row_map. rewrite fold_left_app. reflexivity. Qed.

Lemma find_snoc {A} (f : A -> bool) l x :
  List.find f (l ++ [x])
  = match List.find f l with
    | Some y => Some y
    | None => if f x then Some x else None
    end.
Proof.
  induction l as [|a l IH]; simpl; [reflexivity|].
  destruct (f a); [reflexivity|exact IH].
Qed.

Lemma dict_get_row_map df k :
  dict_get k (build_row_map df)
  = option_map build_category_from_excel_row (last_with_key df k).
Proof.
  unfold last_with_key. induction df as [|r df IH] using rev_ind; [reflexivity|].
  rewrite build_row_map_snoc, rev_app_distr. simpl.
  destruct (nonempty (row_key r)) eqn:Hn; simpl.
  - rewrite dict_get_set. destruct (eqb_str k (row_key r)); [reflexivity|exact IH].
  - exact IH.
Qed.

Lemma first_key_row_map P df :
  first_key P (build_row_map df)
  = option_map row_key
      (List.find (fun r => nonempty (row_key r) && P (row_key r)) df).
Proof.
  induction df as [|r df IH] using rev_ind; [reflexivity|].
  rewrite build_row_map_snoc, find_snoc.
  destruct (nonempty (row_key r)) eqn:Hn; simpl.
  - rewrite first_key_set, IH.
    destruct (List.find _ df); simpl; [reflexivity|].
    destruct (P (row_key r)); reflexivity.
  - rewrite IH. destruct (List.find _ df); reflexivity.
Qed.

(** C8, amended: a row whose key is the stem itself supplies the
    categories; without one, the key of the first row in spreadsheet order
    whose key is a prefix of the stem is taken; under either key the
    categories are those of the last row that carries it. *)
Theorem lookup_cats_by_rows df stem :
  lookup_cats (build_row_map df) stem
  = match last_with_key df stem with
    | Some r => Some (build_category_from_excel_row r)
    | None =>
        match first_with_prefix df stem with
        | Some r => option_map build_category_from_excel_row
                      (last_with_key df (row_key r))
        | None => None
        end
    end.
Proof.
  unfold lookup_cats. rewrite dict_get_row_map.
  destruct (last_with_key df stem); [reflexivity|]. simpl.
  rewrite (find_by_key (startswith stem)), first_key_row_map.
  unfold first_with_prefix.
  destruct (List.find _ df); simpl; [|reflexivity].
  apply dict_get_row_map.
Qed.

(** C8 as stated fails: the second row has the stem as its key and wins
    over the first row, whose key is a prefix of the stem too. *)
Lemma exact_key_beats_first_prefix :
  let row (key cat : str) : Row :=
    <[col_filename_prefix := key]> (<[col_content := cat]> ∅) in
  let df := [row (lit "20240102_a") (lit "first");
             row (lit "20240102_a_b_c_d_00017") (lit "second")] in
  let stem := lit "20240102_a_b_c_d_00017" in
  forallb (fun r => startswith stem (row_key r)) df = true
  /\ option_map content (lookup_cats (build_row_map df) stem) = Some (lit "second")
  /\ option_map content (stated_lookup df stem) = Some (lit "first")
  /\ lookup_cats (build_row_map df) stem <> stated_lookup df stem.
Proof.
  intros row df stem. repeat split; try (vm_compute; reflexivity).
  vm_compute. discriminate.
Qed.

(** ** Numbered names *)

Lemma lit_inj s1 s2 : lit s1 = lit s2 -> s1 = s2.
Proof.
  revert s2. induction s1 as [|a s1 IH]; intros [|b s2] H; simpl in H;
    try discriminate; [reflexivity|].
  injection H as Hab H. f_equal; [|apply IH, H].
  rewrite <- (ascii_N_embedding a), <- (ascii_N_embedding b). congruence.
Qed.

Lemma str_of_nat_inj i j : str_of_nat i = str_of_nat j -> i = j.
Proof.
  unfold str_of_nat. intros H%lit_inj.
  apply DecimalNat.Unsigned.to_uint_inj.
  pose proof (NilEmpty.usu (Nat.to_uint i)) as Hi.
  pose proof (NilEmpty.usu (Nat.to_uint j)) as Hj.
  rewrite H in Hi. congruence.
Qed.

Lemma name_stem_suffix p : name p = stem p ++ suffix p.
Proof.
  unfold stem, suffix. destruct (suffix_at (name p)).
  - symmetry. apply firstn_skipn.
  - rewrite app_nil_r. reflexivity.
Qed.

Lemma with_name_inj p n1 n2 : with_name p n1 = with_name p n2 -> n1 = n2.
Proof.
  unfold with_name. intros H. injection H as H.
  apply app_inv_head in H. congruence.
Qed.

Lemma candidate_inj p i j : candidate p i = candidate p j -> i = j.
Proof.
  unfold candidate. intros H%with_name_inj.
  apply app_inv_head in H. simpl in H. injection H as H.
  apply app_inv_tail in H. apply str_of_nat_inj, H.
Qed.

Lemma removelast_snoc_last (l : list str) : l <> [] -> removelast l ++ [List.last l []] = l.
Proof. intros H. symmetry. apply app_removelast_last, H. Qed.

Lemma candidate_ne p i : candidate p i <> p.
Proof.
  unfold candidate, with_name. destruct p as [a ps]. simpl.
  intros H. injection H as H.
  destruct ps as [|x ps] using rev_ind; [discriminate|].
  rewrite removelast_last in H. apply app_inv_head in H. injection H as H.
  pose proof (name_stem_suffix {| anchor := a; parts := ps ++ [x] |}) as Hn.
  unfold name in Hn. simpl in Hn. rewrite last_last in Hn.
  apply (f_equal (@length N)) in H, Hn. rewrite !length_app in H, Hn.
  simpl in H. rewrite length_app in H. lia.
Qed.

Lemma parent_with_name p n : parent (with_name p n) = parent p.
Proof. unfold parent, with_name. simpl. rewrite removelast_last. reflexivity. Qed.

Lemma parent_candidate p i : parent (candidate p i) = parent p.
Proof. apply parent_with_name. Qed.

Lemma first_free_spec w p fuel i :
  (exists j, (i <= j < i + fuel)%nat /\ path_exists w (candidate p j) = false) ->
  exists k, (i <= k)%nat /\ first_free w p fuel i = candidate p k
            /\ path_exists w (candidate p k) = false
            /\ forall j, (i <= j < k)%nat -> path_exists w (candidate p j) = true.
Proof.
  revert i. induction fuel as [|fuel IH]; intros i (j & Hj & Hfree); [lia|].
  simpl. destruct (path_exists w (candidate p i)) eqn:Hi.
  - destruct (IH (S i)) as (k & Hk & E & Hf & Hmin).
    + exists j. split; [|assumption].
      destruct (Nat.eq_dec i j) as [->|]; [congruence|lia].
    + exists k. repeat split; auto; [lia|]. intros j' Hj'.
      destruct (Nat.eq_dec i j') as [<-|]; [assumption|apply Hmin; lia].
  - exists i. repeat split; auto. intros j' Hj'. lia.
Qed.

Lemma all_or_some (P : nat -> bool) i n :
  (forall j, (i <= j < i + n)%nat -> P j = true)
  \/ (exists j, (i <= j < i + n)%nat /\ P j = false).
Proof.
  induction n as [|n [IH|(j & Hj & Hf)]].
  - left. intros j Hj. lia.
  - destruct (P (i + n)%nat) eqn:E.
    + left. intros j Hj. destruct (Nat.eq_dec j (i + n)%nat) as [->|]; [assumption|].
      apply IH. lia.
    + right. exists (i + n)%nat. split; [lia|assumption].
  - right. exists j. split; [lia|assumption].
Qed.

Lemma path_exists_dom w p : path_exists w p = true <-> p ∈ dom (nodes w).
Proof.
  unfold path_exists. rewrite bool_decide_eq_true. symmetry. apply elem_of_dom.
Qed.

(** Among as many candidates as the tree has nodes, one is free when the
    path itself exists. *)
Lemma free_candidate w p :
  path_exists w p = true ->
  exists j, (2 <= j < 2 + size (nodes w))%nat
            /\ path_exists w (candidate p j) = false.
Proof.
  intros Hp.
  destruct (all_or_some (fun j => path_exists w (candidate p j)) 2 (size (nodes w)))
    as [Hall|H]; [exfalso|exact H].
  set (n := size (nodes w)) in *.
  set (l := p :: map (candidate p) (seq 2 n)).
  assert (Hnd : NoDup l).
  { unfold l. constructor.
    - intros Hin. apply list_elem_of_In, List.in_map_iff in Hin.
      destruct Hin as (j & Hj & _). apply (candidate_ne p j Hj).
    - apply NoDup_fmap_2; [intros i j; apply candidate_inj|].
      apply NoDup_ListNoDup, List.seq_NoDup. }
  assert (Hsub : (list_to_set l : gset Path) ⊆ dom (nodes w)).
  { intros q Hq. apply elem_of_list_to_set in Hq. unfold l in Hq.
    apply elem_of_cons in Hq. destruct Hq as [->|Hq].
    - apply path_exists_dom, Hp.
    - apply list_elem_of_In, List.in_map_iff in Hq. destruct Hq as (j & <- & Hj).
      apply List.in_seq in Hj. apply path_exists_dom, Hall. lia. }
  apply subseteq_size in Hsub.
  rewrite size_list_to_set in Hsub by assumption.
  rewrite size_dom in Hsub. unfold l in Hsub. simpl in Hsub.
  rewrite length_map, length_seq in Hsub. fold n in Hsub. lia.
Qed.

(** [ensure_unique_path] on a path that exists: the candidate with the
    least number from 2 on that does not exist. *)
Lemma ensure_unique_path_spec w p :
  path_exists w p = true ->
  exists k, (2 <= k)%nat /\ ensure_unique_path w p = candidate p k
            /\ path_exists w (candidate p k) = false
            /\ forall j, (2 <= j < k)%nat -> path_exists w (candidate p j) = true.
Proof.
  intros Hp. unfold ensure_unique_path. rewrite Hp.
  apply first_free_spec, free_candidate, Hp.
Qed.

Lemma ensure_unique_path_free w p : path_exists w p = false -> ensure_unique_path w p = p.
Proof. intros Hp. unfold ensure_unique_path. rewrite Hp. reflexivity. Qed.

(** ** The renaming to the canonical name *)

Lemma name_with_name p n : name (with_name p n) = n.
Proof. unfold name, with_name. simpl. apply last_last. Qed.

Lemma name_candidate_longer p i : (length (name p) < length (name (candidate p i)))%nat.
Proof.
  unfold candidate. rewrite name_with_name, name_stem_suffix.
  rewrite !length_app. simpl. rewrite ?length_app. lia.
Qed.

(** C10: when the canonical name differs from the name of the file and a
    path of that name exists beside the file, the iteration goes on with
    the candidate of the least number from 2 on that does not exist; its
    name is not the canonical name; outside a dry run a file the system
    lets rename is found under it afterwards, and no longer under its old
    path. *)
Theorem canonical_name_taken args st f canonical :
  canonical <> name f ->
  path_exists (world st) (with_name f canonical) = true ->
  exists k,
    (2 <= k)%nat
    /\ snd (rename_to_canonical args st f canonical)
       = candidate (with_name f canonical) k
    /\ path_exists (world st) (candidate (with_name f canonical) k) = false
    /\ (forall j, (2 <= j < k)%nat ->
          path_exists (world st) (candidate (with_name f canonical) j) = true)
    /\ name (candidate (with_name f canonical) k) <> canonical
    /\ (forall data,
          a_dry_run args = false ->
          nodes (world st) !! f = Some (File data) ->
          is_locked (world st) f = false ->
          let w' := world (fst (rename_to_canonical args st f canonical)) in
          nodes w' !! candidate (with_name f canonical) k = Some (File data)
          /\ nodes w' !! f = None).
Proof.
  intros Hne Hex.
  destruct (ensure_unique_path_spec _ _ Hex) as (k & Hk & E & Hfree & Hmin).
  exists k. split; [assumption|].
  assert (Hb : eqb_str canonical (name f) = false).
  { unfold eqb_str. apply bool_decide_eq_false. assumption. }
  unfold rename_to_canonical. rewrite Hb, Hex, E.
  split; [|split; [assumption|split; [assumption|split]]].
  - destruct (a_dry_run args); [reflexivity|].
    destruct (rename _ _ _); reflexivity.
  - intros Hn. pose proof (name_candidate_longer (with_name f canonical) k) as Hl.
    rewrite Hn, name_with_name in Hl. lia.
  - intros data Hdry Hf Hl. cbv zeta. rewrite Hdry. unfold rename.
    rewrite Hf, Hl. simpl. split; [apply lookup_insert_eq|].
    rewrite lookup_insert_ne, lookup_delete_eq; [reflexivity|].
    intros Heq. rewrite Heq in Hfree.
    unfold path_exists in Hfree. apply bool_decide_eq_false in Hfree.
    apply Hfree. rewrite Hf. eauto.
Qed.

Lemma canonical_name_taken_witness :
  let dir := {| anchor := [c_slash]; parts := [lit "img"] |} in
  let f := joinpath dir (lit "20240102_a_b_c_d_00017_00017_.png") in
  let w := {| nodes := <[f := File [1; 2; 3]]>
                         (<[joinpath dir (lit "20240102_a_b_c_d_00017.png")
                            := File [4; 5]]>
                            (<[joinpath dir (lit "20240102_a_b_c_d_00017_2.png")
                               := File [6]]> (<[dir := Dir]> ∅)));
              locked := ∅; unreadable := ∅ |} in
  let args := {| a_copy := false; a_dry_run := false; a_on_conflict := dup;
                 a_batch := []; a_min_bytes := 1 |} in
  exists k,
    (2 <= k)%nat
    /\ snd (rename_to_canonical args (start w) f (lit "20240102_a_b_c_d_00017.png"))
       = candidate (with_name f (lit "20240102_a_b_c_d_00017.png")) k
    /\ path_exists w (candidate (with_name f (lit "20240102_a_b_c_d_00017.png")) k)
       = false.
Proof.
  intros dir f w args.
  destruct (canonical_name_taken args (start w) f (lit "20240102_a_b_c_d_00017.png"))
    as (k & Hk & E & Hfree & _).
  - vm_compute. discriminate.
  - vm_compute. reflexivity.
  - exists k. auto.
Defined.

(** ** Placing a file *)

Lemma lookup_mkdirs (ds : list Path) (m : gmap Path node) q :
  fold_right (fun p m => <[p := Dir]> m) m ds !! q
  = if bool_decide (q ∈ ds) then Some Dir else m !! q.
Proof.
  induction ds as [|p ds IH]; cbn [fold_right].
  - rewrite bool_decide_eq_false_2 by apply not_elem_of_nil. reflexivity.
  - destruct (decide (p = q)) as [->|Hne].
    + rewrite lookup_insert_eq, bool_decide_eq_true_2 by (apply elem_of_cons; auto).
      reflexivity.
    + rewrite lookup_insert_ne by assumption. rewrite IH.
      destruct (bool_decide (q ∈ ds)) eqn:E.
      * apply bool_decide_eq_true in E.
        rewrite bool_decide_eq_true_2 by (apply elem_of_cons; auto).
        reflexivity.
      * apply bool_decide_eq_false in E.
        rewrite bool_decide_eq_false_2; [reflexivity|].
        intros [?|?]%elem_of_cons; congruence.
Qed.

Lemma dirs_from_length a pre rest q :
  q ∈ dirs_from a pre rest ->
  (length pre < length (parts q) <= length pre + length rest)%nat.
Proof.
  revert pre. induction rest as [|x rest IH]; intros pre Hq; simpl in Hq.
  - apply elem_of_nil in Hq. destruct Hq.
  - apply elem_of_cons in Hq. destruct Hq as [->|Hq].
    + simpl. rewrite length_app. simpl. lia.
    + apply IH in Hq. rewrite length_app in Hq. simpl in Hq. simpl. lia.
Qed.

(** A path is not among the directories that lead to its parent. *)
Lemma not_in_own_dirs p : p ∉ dirs_to (parent p).
Proof.
  intros H. unfold dirs_to in H. apply dirs_from_length in H.
  unfold parent in H. simpl in H.
  destruct (parts p) as [|x l] using rev_ind; [simpl in H; lia|].
  rewrite removelast_last, length_app in H. simpl in H. lia.
Qed.

Lemma no_file_in_dirs w ds q :
  existsb (is_file w) ds = false -> q ∈ ds -> is_file w q = false.
Proof.
  intros H Hq. destruct (is_file w q) eqn:E; [|reflexivity].
  assert (existsb (is_file w) ds = true); [|congruence].
  apply existsb_exists. exists q. split; [apply list_elem_of_In, Hq|assumption].
Qed.

Lemma finish_placed args w f final u data :
  nodes w !! f = Some (File data) ->
  is_locked w f = false -> is_unreadable w f = false ->
  existsb (is_file w) (dirs_to (parent final)) = false ->
  nodes w !! final = None ->
  exists w', finish args w f final u = Placed w' final u
             /\ put w w' f final data (a_copy args).
Proof.
  intros Hf Hl Hr Hd Hfree.
  pose proof (not_in_own_dirs final) as Hown.
  assert (Hfd : f ∉ dirs_to (parent final)).
  { intros Hin. apply (no_file_in_dirs _ _ _ Hd) in Hin.
    unfold is_file in Hin. rewrite Hf in Hin. discriminate. }
  assert (Hne : f <> final) by congruence.
  unfold finish, move_or_copy, mkdir_p. rewrite Hd.
  set (m1 := fold_right _ _ _).
  assert (L1 : forall q, m1 !! q = if bool_decide (q ∈ dirs_to (parent final))
                                   then Some Dir else nodes w !! q)
    by (intros q; apply lookup_mkdirs).
  assert (Hf1 : m1 !! f = Some (File data)).
  { rewrite L1, bool_decide_eq_false_2 by assumption. assumption. }
  assert (Hfree1 : m1 !! final = None).
  { rewrite L1, bool_decide_eq_false_2 by assumption. assumption. }
  destruct (a_copy args).
  - unfold copy2, real_dst, is_unreadable. cbn [nodes set_nodes unreadable].
    rewrite Hf1, Hfree1. fold (is_unreadable w f). rewrite Hr.
    eexists. split; [reflexivity|]. unfold put. cbn [nodes set_nodes locked unreadable].
    repeat split.
    + apply lookup_insert_eq.
    + intros q H1 H2 H3. rewrite lookup_insert_ne, L1, bool_decide_eq_false_2; auto.
    + intros q Hq. rewrite lookup_insert_ne, L1, bool_decide_eq_true_2; auto.
      congruence.
    + rewrite lookup_insert_ne; auto.
  - unfold move, real_dst, is_locked, is_file, path_exists.
    cbn [nodes set_nodes locked]. rewrite Hf1, Hfree1.
    fold (is_locked w f). rewrite Hl.
    rewrite (bool_decide_eq_false_2 (is_Some (m1 !! final)))
      by (rewrite Hfree1; intros [? ?]; discriminate).
    cbn [orb negb].
    eexists. split; [reflexivity|]. unfold put. cbn [nodes set_nodes locked unreadable].
    repeat split.
    + apply lookup_insert_eq.
    + intros q H1 H2 H3.
      rewrite lookup_insert_ne, lookup_delete_ne, L1, bool_decide_eq_false_2; auto.
    + intros q Hq.
      rewrite lookup_insert_ne, lookup_delete_ne, L1, bool_decide_eq_true_2; auto;
        congruence.
    + rewrite lookup_insert_ne, lookup_delete_eq; auto.
Qed.

Lemma path_exists_lookup w p : path_exists w p = false <-> nodes w !! p = None.
Proof.
  unfold path_exists. rewrite bool_decide_eq_false, eq_None_not_Some. reflexivity.
Qed.

Lemma path_exists_some w p n : nodes w !! p = Some n -> path_exists w p = true.
Proof. intros H. unfold path_exists. apply bool_decide_eq_true. eauto. Qed.

(** The candidate [ensure_unique_path] returns is known once the taken
    numbers below a free one are. *)
Lemma ensure_unique_path_at w p k :
  path_exists w p = true -> (2 <= k)%nat ->
  (forall j, (2 <= j < k)%nat -> path_exists w (candidate p j) = true) ->
  path_exists w (candidate p k) = false ->
  ensure_unique_path w p = candidate p k.
Proof.
  intros Hp Hk Hbelow Hfree.
  destruct (ensure_unique_path_spec w p Hp) as (k' & Hk' & E & Hfree' & Hmin).
  rewrite E. f_equal.
  destruct (Nat.lt_trichotomy k k') as [Hlt|[->|Hgt]]; [|reflexivity|].
  - rewrite Hmin in Hfree by lia. discriminate.
  - rewrite Hbelow in Hfree' by lia. discriminate.
Qed.

Lemma dirs_clear w ds :
  (forall q, q ∈ ds -> nodes w !! q = Some Dir) -> existsb (is_file w) ds = false.
Proof.
  intros H. destruct (existsb (is_file w) ds) eqn:E; [|reflexivity].
  apply existsb_exists in E. destruct E as (q & Hq & Hf).
  apply list_elem_of_In in Hq. unfold is_file in Hf. rewrite (H q Hq) in Hf.
  discriminate.
Qed.

Lemma is_locked_same w w' p : locked w' = locked w -> is_locked w' p = is_locked w p.
Proof. unfold is_locked. intros ->. reflexivity. Qed.

Lemma is_unreadable_same w w' p :
  unreadable w' = unreadable w -> is_unreadable w' p = is_unreadable w p.
Proof. unfold is_unreadable. intros ->. reflexivity. Qed.

Lemma place_dup sha1 args w f d dp :
  a_on_conflict args = dup ->
  place sha1 args w f d dp
  = if path_exists w dp
    then finish args w f (ensure_unique_path w dp) false
    else finish args w f dp false.
Proof. intros H. unfold place, place_by_name. rewrite H. reflexivity. Qed.

Lemma name_candidate_2 p : name (candidate p 2) = stem p ++ lit "_2" ++ suffix p.
Proof. unfold candidate. rewrite name_with_name. reflexivity. Qed.

Lemma name_candidate_3 p : name (candidate p 3) = stem p ++ lit "_3" ++ suffix p.
Proof. unfold candidate. rewrite name_with_name. reflexivity. Qed.





(** ** The hash policy *)

Lemma find_exists {A} (f : A -> bool) l x :
  In x l -> f x = true -> exists y, List.find f l = Some y.
Proof.
  intros Hin Hf. destruct (List.find f l) as [y|] eqn:E; [eauto|].
  rewrite (List.find_none f l E x Hin) in Hf. discriminate.
Qed.

Lemma in_iterdir w d q :
  q ∈ iterdir w d <->
  is_Some (nodes w !! q) /\ nonempty (name q) = true /\ parent q = d.
Proof.
  unfold iterdir. rewrite list_elem_of_In, List.filter_In, andb_true_iff,
    bool_decide_eq_true, <- list_elem_of_In, list_elem_of_fmap.
  split.
  - intros [([q' n] & -> & Hin) [H1 H2]]. apply elem_of_map_to_list in Hin.
    simpl in *. eauto.
  - intros ([n Hn] & H1 & H2). split; [|auto].
    exists (q, n). split; [reflexivity|]. apply elem_of_map_to_list, Hn.
Qed.

(** C6: under the hash policy, a readable source file and a readable file
    of the same digest right in the destination directory make the [try]
    block end with the duplicate-content skip: the tree, the placed paths
    and every counter but skipped_hash_dup stay as they are, and that one
    counter goes up by one. *)
Theorem hash_duplicate_skipped sha1 args st f d dp q digest :
  a_on_conflict args = hash ->
  sha1sum sha1 (world st) f = Some digest ->
  nodes (world st) !! d = Some Dir ->
  parent q = d -> nonempty (name q) = true ->
  sha1sum sha1 (world st) q = Some digest ->
  exists same,
    place sha1 args (world st) f d dp = SkipHashDup same
    /\ parent same = d
    /\ sha1sum sha1 (world st) same = Some digest
    /\ let st' := settle args st f dp (place sha1 args (world st) f d dp) in
       world st' = world st
       /\ moved_records st' = moved_records st
       /\ log st' = log st ++ [InfoHashDup (name f) (name same)]
       /\ skipped_hash_dup (counters st') = S (skipped_hash_dup (counters st))
       /\ moved (counters st') = moved (counters st)
       /\ copied (counters st') = copied (counters st)
       /\ skipped_unmatched (counters st') = skipped_unmatched (counters st)
       /\ skipped_small (counters st') = skipped_small (counters st)
       /\ skipped_conflict (counters st') = skipped_conflict (counters st)
       /\ overwritten (counters st') = overwritten (counters st)
       /\ dupped (counters st') = dupped (counters st).
Proof.
  intros Hpol Hf Hd Hpar Hname Hq.
  set (pred := fun p => is_file (world st) p &&
                        match sha1sum sha1 (world st) p with
                        | Some h => eqb_str h digest
                        | None => false
                        end).
  assert (Hpq : pred q = true).
  { unfold pred. rewrite Hq. unfold sha1sum in Hq. unfold is_file.
    destruct (nodes (world st) !! q) as [[data|]|]; try discriminate.
    simpl. apply eqb_str_spec. reflexivity. }
  assert (Hin : q ∈ iterdir (world st) d).
  { apply in_iterdir. repeat split; auto.
    unfold sha1sum in Hq. destruct (nodes (world st) !! q); [eauto|discriminate]. }
  apply list_elem_of_In in Hin.
  destruct (find_exists pred _ q Hin Hpq) as (same & Hfind).
  pose proof (List.find_some _ _ Hfind) as [Hsame_in Hsame].
  assert (Hplace : place sha1 args (world st) f d dp = SkipHashDup same).
  { unfold place. rewrite Hpol, Hf. unfold find_same_hash. rewrite Hd.
    fold pred. rewrite Hfind. reflexivity. }
  exists same. split; [assumption|]. split; [|split].
  - apply list_elem_of_In, in_iterdir in Hsame_in. tauto.
  - unfold pred in Hsame. apply andb_true_iff in Hsame. destruct Hsame as [_ H].
    destruct (sha1sum sha1 (world st) same); [|discriminate].
    apply eqb_str_spec in H. congruence.
  - rewrite Hplace. cbn. repeat split; reflexivity.
Qed.

Lemma hash_duplicate_skipped_witness :
  let root := {| anchor := [c_slash]; parts := [lit "img"] |} in
  let f := joinpath root (lit "20240102_a_b_c_d_00017.png") in
  let d := joinpath root (lit "SFW/a/b/c/d/20240102") in
  let q := joinpath d (lit "older_name.png") in
  let w := {| nodes := <[f := File [7; 7; 7]]> (<[q := File [7; 7; 7]]>
                         (<[d := Dir]> (<[root := Dir]> ∅)));
              locked := ∅; unreadable := ∅ |} in
  let args := {| a_copy := false; a_dry_run := false; a_on_conflict := hash;
                 a_batch := []; a_min_bytes := 1 |} in
  exists same,
    place (fun data => data) args w f d (joinpath d (name f)) = SkipHashDup same.
Proof.
  intros root f d q w args.
  destruct (hash_duplicate_skipped (fun data => data) args (start w) f d
              (joinpath d (name f)) q [7; 7; 7])
    as (same & H & _); [vm_compute; reflexivity ..|].
  exists same. exact H.
Defined.

(** ** What a failed renaming leaves behind *)

(** C7, the code at the failing input: in copy mode, with a readable file
    that the system does not let rename, the iteration logs the failure
    and goes on with the canonical path, under which there is no file; the
    copy fails, nothing is counted, and the file stays where it was, while
    placing it under its own name would have copied it. *)
Theorem failed_rename_goes_on_with_canonical_path :
  forall sha1,
  let root := {| anchor := [c_slash]; parts := [lit "img"] |} in
  let original := lit "20240102_a_b_c_d_00017_00017_.png" in
  let canonical := lit "20240102_a_b_c_d_00017.png" in
  let f := joinpath root original in
  let w := {| nodes := <[f := File [1; 2; 3]]> (<[root := Dir]> ∅);
              locked := {[f]}; unreadable := ∅ |} in
  let args := {| a_copy := true; a_dry_run := false; a_on_conflict := dup;
                 a_batch := []; a_min_bytes := 1 |} in
  let d := joinpath root (lit "SFW/a/b/c/d/20240102") in
  let run := process_file sha1 args (lit "SFW") root [] (start w) f in
  option_map log run
  = Some [ErrRename original canonical;
          InfoFromFileName canonical;
          InfoDestination (joinpath root canonical) (joinpath d canonical);
          ErrFailed (joinpath root canonical)]
  /\ option_map counters run = Some zero_counters
  /\ option_map moved_records run = Some []
  /\ option_map (fun st => nodes (world st) !! f) run = Some (Some (File [1; 2; 3]))
  /\ option_map (fun st => nodes (world st) !! joinpath d canonical) run = Some None
  /\ option_map (fun st => nodes (world st) !! joinpath d original) run = Some None
  /\ match place sha1 args w f d (joinpath d original) with
     | Placed w' p false =>
         p = joinpath d original /\ nodes w' !! p = Some (File [1; 2; 3])
     | _ => False
     end.
Proof.
  intros sha1 root original canonical f w args d run.
  repeat split; vm_compute; reflexivity.
Qed.

(** ** The counter of overwritten files *)

Lemma rename_to_canonical_counters args st f canonical :
  counters (fst (rename_to_canonical args st f canonical)) = counters st.
Proof.
  unfold rename_to_canonical. destruct (eqb_str canonical (name f)); [reflexivity|].
  destruct (a_dry_run args); [reflexivity|].
  destruct (rename _ _ _); reflexivity.
Qed.

Lemma categories_counters row_map st f p :
  counters (fst (categories row_map st f p)) = counters st.
Proof. unfold categories. destruct (lookup_cats _ _); reflexivity. Qed.

Lemma settle_overwritten args st f dp o :
  overwritten (counters (settle args st f dp o)) = overwritten (counters st).
Proof.
  destruct o as [w final [|]| | |w [|]]; simpl; try reflexivity;
    destruct (a_copy args); reflexivity.
Qed.

Lemma process_file_overwritten sha1 args mode root row_map st f st' :
  process_file sha1 args mode root row_map st f = Some st' ->
  overwritten (counters st') = overwritten (counters st).
Proof.
  unfold process_file.
  destruct (nodes (world st) !! f) as [[data|]|]; try discriminate.
  destruct (_ <? _)%Z; [intros H; injection H as <-; reflexivity|].
  destruct (parse_filename (name f)) as [p|];
    [|intros H; injection H as <-; reflexivity].
  pose proof (rename_to_canonical_counters args st f (build_canonical_name p)) as H1.
  destruct (rename_to_canonical args st f (build_canonical_name p)) as [st1 f1].
  pose proof (categories_counters row_map st1 f1 p) as H2.
  destruct (categories row_map st1 f1 p) as [st2 cats].
  destruct (destination args mode root cats p f1) as [dest_dir dest_path].
  simpl in H1, H2.
  destruct (relative_to dest_path root); [|discriminate].
  destruct (a_dry_run args); intros H; injection H as <-.
  - simpl. congruence.
  - rewrite settle_overwritten. simpl. congruence.
Qed.

Lemma process_all_overwritten sha1 args mode root row_map files st st' :
  process_all sha1 args mode root row_map st files = Some st' ->
  overwritten (counters st') = overwritten (counters st).
Proof.
  revert st. induction files as [|f files IH]; intros st H; simpl in H.
  - injection H as <-. reflexivity.
  - destruct (process_file sha1 args mode root row_map st f) as [st1|] eqn:E;
      [|discriminate].
    rewrite (IH _ H). eapply process_file_overwritten, E.
Qed.

(** C9, the code at the failing input: under the overwrite policy a file
    whose planned path is taken is put there after the file that was
    there has been deleted, and the line of the log says so, but the
    counter of overwritten files is 0 at the end, as it is at the end of
    every loop. *)
Theorem overwritten_never_counted :
  (forall sha1 args mode root row_map files w,
      match process_all sha1 args mode root row_map (start w) files with
      | Some st' => overwritten (counters st') = 0%nat
      | None => True
      end)
  /\ forall sha1,
     let root := {| anchor := [c_slash]; parts := [lit "img"] |} in
     let n := lit "20240102_a_b_c_d_00017.png" in
     let f := joinpath root n in
     let dp := joinpath (joinpath root (lit "SFW/a/b/c/d/20240102")) n in
     let w := {| nodes := <[f := File [1; 2; 3]]> (<[dp := File [9]]>
                            (<[root := Dir]> ∅));
                 locked := ∅; unreadable := ∅ |} in
     let args := {| a_copy := false; a_dry_run := false;
                    a_on_conflict := overwrite; a_batch := [];
                    a_min_bytes := 1 |} in
     let run := process_all sha1 args (lit "SFW") root [] (start w) [f] in
     option_map log run
     = Some [InfoFromFileName n; InfoDestination f dp; InfoOverwrite dp;
             InfoDone dp]
     /\ option_map (fun st => nodes (world st) !! dp) run
        = Some (Some (File [1; 2; 3]))
     /\ option_map (fun st => moved (counters st)) run = Some 1%nat
     /\ option_map (fun st => overwritten (counters st)) run = Some 0%nat.
Proof.
  split.
  - intros sha1 args mode root row_map files w.
    destruct (process_all _ _ _ _ _ _ _) as [st'|] eqn:H; [|exact I].
    apply process_all_overwritten in H. exact H.
  - intros sha1 root n f dp w args run. repeat split; vm_compute; reflexivity.
Qed.

(** * Further properties of the code *)

(** ** Normalization and parsing *)

(** X1: the result of [normalize_filename] is in normal form, and
    normalizing it again changes nothing. *)
Theorem normalize_filename_idempotent name :
  clean (normalize_filename name)
  /\ normalize_filename (normalize_filename name) = normalize_filename name.
Proof. split; [apply normalize_clean|apply normalize_id, normalize_clean]. Qed.

Lemma head_ok_rev_nl (s : str) : head_ok (rev (s ++ [c_nl])) -> False.
Proof. rewrite rev_app_distr. simpl. discriminate. Qed.

(** X2: the tuple [parse_filename] returns spells the normalized name:
    eight digits, three non-empty fields without underscore, a non-empty
    middle, five digits, then at most a second group of five digits and an
    underscore, a dot and one of the extensions, whose lower case is the
    last component. *)
Theorem parse_filename_spells name p :
  parse_filename name = Some p ->
  digitsb 8 (p_date p) = true /\ is_field (p_content p) = true
  /\ is_field (p_char p) = true /\ is_field (p_face p) = true
  /\ is_middle (p_middle p) = true /\ digitsb 5 (p_num p) = true
  /\ exists between e,
       normalize_filename name
       = spell (p_date p) (p_content p) (p_char p) (p_face p) (p_middle p)
               (p_num p) between e
       /\ between_shape between /\ is_ext e = true /\ p_ext p = lower e.
Proof.
  unfold parse_filename.
  destruct (NAME_RE (normalize_filename name)) as [g|] eqn:Hg; [|discriminate].
  intros H. injection H as <-.
  cbn [p_date p_content p_char p_face p_middle p_num p_ext].
  apply NAME_RE_sound in Hg.
  destruct Hg as (t & Hs & Hd & Hc & Hh & Hf & Hm & Ht).
  apply name_tail_sound in Ht.
  destruct Ht as (mid & nl & -> & Hn & Hmid & Hnl & He).
  repeat split; auto. exists mid, (g_ext g).
  assert (nl = []) as ->.
  { destruct Hnl as [->| ->]; [reflexivity|]. exfalso.
    destruct (normalize_clean name) as (_ & _ & _ & _ & Hlast).
    rewrite Hs in Hlast.
    apply (head_ok_rev_nl
             (g_date g ++ [c_us] ++ g_content g ++ [c_us] ++ g_char g ++ [c_us]
              ++ g_face g ++ [c_us] ++ g_middle g ++ c_us :: g_num g ++ mid
              ++ c_dot :: g_ext g)).
    repeat (progress (rewrite <- ?app_assoc in *; simpl in * )).
    exact Hlast. }
  rewrite app_nil_r in Hs. repeat split; auto.
Qed.

Lemma parse_filename_spells_witness :
  digitsb 8 (lit "20240102") = true
  /\ exists between e,
       normalize_filename (lit "20240102 _cat_Mia_smile_red dress_00042_.PNG")
       = spell (lit "20240102") (lit "cat") (lit "Mia") (lit "smile")
               (lit "red dress") (lit "00042") between e
       /\ between_shape between /\ is_ext e = true /\ lit "png" = lower e.
Proof.
  destruct (parse_filename_spells
              (lit "20240102 _cat_Mia_smile_red dress_00042_.PNG")
              {| p_date := lit "20240102"; p_content := lit "cat";
                 p_char := lit "Mia"; p_face := lit "smile";
                 p_middle := lit "red dress"; p_num := lit "00042";
                 p_ext := lit "png" |})
    as (Hd & _ & _ & _ & _ & _ & H); [vm_compute; reflexivity|].
  split; [exact Hd|exact H].
Defined.

(** The lazy middle stops at or before any point where the tail matches. *)
Lemma middle_lazy_prefix acc m t n e :
  is_middle m = true -> name_tail t = Some (n, e) ->
  exists m0 rest n0 e0,
    middle_lazy acc (m ++ t) = Some (acc ++ m0, n0, e0)
    /\ m = m0 ++ rest /\ m0 <> [].
Proof.
  revert acc. induction m as [|c m IH]; intros acc Hm Ht; [discriminate|].
  apply is_middle_cons in Hm. destruct Hm as [Hc Hm].
  apply N.eqb_neq in Hc. simpl. rewrite Hc.
  destruct (name_tail (m ++ t)) as [[n' e']|] eqn:Hmt.
  - exists [c], m, n', e'. repeat split; [discriminate].
  - destruct Hm as [->|Hm]; [simpl in Hmt; congruence|].
    destruct (IH (acc ++ [c]) Hm Ht) as (m0 & rest & n0 & e0 & E & -> & Hne).
    exists (c :: m0), rest, n0, e0. rewrite E, <- app_assoc.
    repeat split; [discriminate].
Qed.

(** X3: a name whose normalized form can be read by the grammar at all is
    parsed, with the date, content, character and face of that reading,
    and with a middle that the middle of the reading starts with: the
    shortest middle wins. *)
Theorem parse_filename_shortest_middle name d c h f m n between e :
  normalize_filename name = spell d c h f m n between e ->
  digitsb 8 d = true -> is_field c = true -> is_field h = true ->
  is_field f = true -> is_middle m = true -> digitsb 5 n = true ->
  between_shape between -> is_ext e = true ->
  exists p rest,
    parse_filename name = Some p
    /\ p_date p = d /\ p_content p = c /\ p_char p = h /\ p_face p = f
    /\ m = p_middle p ++ rest /\ p_middle p <> [].
Proof.
  intros Hn Hd Hc Hh Hf Hm Hnum Hb He.
  assert (Ht : name_tail (c_us :: n ++ between ++ c_dot :: e) = Some (n, e))
    by (apply name_tail_complete; assumption).
  destruct (middle_lazy_prefix [] m _ n e Hm Ht)
    as (m0 & rest & n0 & e0 & E & Hsplit & Hne).
  eexists _, rest. unfold parse_filename. rewrite Hn. unfold spell, NAME_RE.
  rewrite digits_app by assumption.
  replace (underscore ([c_us] ++ c ++ [c_us] ++ h ++ [c_us] ++ f ++ [c_us] ++ m
                       ++ [c_us] ++ n ++ between ++ [c_dot] ++ e))
    with (Some (c ++ c_us :: h ++ [c_us] ++ f ++ [c_us] ++ m ++ [c_us] ++ n
                ++ between ++ [c_dot] ++ e)) by reflexivity.
  rewrite field_app by assumption.
  replace (h ++ [c_us] ++ f ++ [c_us] ++ m ++ [c_us] ++ n ++ between ++ [c_dot] ++ e)
    with (h ++ c_us :: f ++ [c_us] ++ m ++ [c_us] ++ n ++ between ++ [c_dot] ++ e)
    by reflexivity.
  rewrite field_app by assumption.
  replace (f ++ [c_us] ++ m ++ [c_us] ++ n ++ between ++ [c_dot] ++ e)
    with (f ++ c_us :: m ++ c_us :: n ++ between ++ c_dot :: e) by reflexivity.
  rewrite field_app by assumption.
  rewrite E. cbn. repeat split; auto.
Qed.

Lemma parse_filename_shortest_middle_witness :
  exists p rest,
    parse_filename (lit "20240102_a_b_c_d_00001_00002_00003.png") = Some p
    /\ p_date p = lit "20240102" /\ p_content p = lit "a" /\ p_char p = lit "b"
    /\ p_face p = lit "c"
    /\ lit "d_00001_00002" = p_middle p ++ rest /\ p_middle p <> [].
Proof.
  apply (parse_filename_shortest_middle
           (lit "20240102_a_b_c_d_00001_00002_00003.png")
           (lit "20240102") (lit "a") (lit "b") (lit "c") (lit "d_00001_00002")
           (lit "00003") [] (lit "png")); try (vm_compute; reflexivity).
  constructor.
Defined.

(** ** Categories of a row *)

Lemma strip_idempotent s : strip (strip s) = strip s.
Proof. apply strip_id; [apply strip_head|apply strip_last]. Qed.

Lemma blank_absent_spec v :
  blank_absent v = [] \/ (blank_absent v = v /\ v <> lit "nan" /\ v <> lit "None").
Proof.
  unfold blank_absent.
  destruct (eqb_str v []) eqn:E1; [left; reflexivity|].
  destruct (eqb_str v (lit "nan")) eqn:E2; [left; reflexivity|].
  destruct (eqb_str v (lit "None")) eqn:E3; [left; reflexivity|].
  right. simpl. unfold eqb_str in *. apply bool_decide_eq_false in E2, E3. auto.
Qed.

Lemma slot_value_clean row col :
  let v := blank_absent (val row col) in
  strip v = v /\ v <> lit "nan" /\ v <> lit "None"
  /\ (row !! col = None -> v = []).
Proof.
  cbv zeta. split; [|split; [|split]].
  - destruct (blank_absent_spec (val row col)) as [->|[-> _]]; [reflexivity|].
    unfold val. apply strip_idempotent.
  - destruct (blank_absent_spec (val row col)) as [->|[-> [H _]]];
      [discriminate|assumption].
  - destruct (blank_absent_spec (val row col)) as [->|[-> [_ H]]];
      [discriminate|assumption].
  - intros H. unfold val. rewrite H. reflexivity.
Qed.

(** X4: every value of the categories of a row is trimmed and is neither
    "nan" nor "None"; a value whose column the row lacks is empty.  Of the
    columns only the seven of the categories are read. *)
Theorem build_category_values_clean row :
  Forall (fun v => strip v = v /\ v <> lit "nan" /\ v <> lit "None")
         (slots (build_category_from_excel_row row))
  /\ Forall2 (fun col v => row !! col = None -> v = [])
       [col_content; col_character; col_face; col_body; col_backg; col_photo;
        col_light]
       (slots (build_category_from_excel_row row))
  /\ forall row',
       Forall (fun col => row' !! col = row !! col)
         [col_content; col_character; col_face; col_body; col_backg;
          col_photo; col_light] ->
       build_category_from_excel_row row' = build_category_from_excel_row row.
Proof.
  split; [|split].
  - unfold slots, build_category_from_excel_row. cbn.
    repeat constructor; apply (slot_value_clean row).
  - unfold slots, build_category_from_excel_row. cbn.
    repeat constructor; apply (slot_value_clean row).
  - intros row' H. unfold build_category_from_excel_row, val.
    repeat match goal with
           | H : Forall _ (_ :: _) |- _ =>
               let E := fresh "E" in
               let H' := fresh "H" in
               inversion H as [|? ? E H']; subst; clear H; rewrite E
           end.
    reflexivity.
Qed.

(** ** Looking a file up in the table *)

Lemma startswith_refl s : startswith s s = true.
Proof. induction s as [|c s IH]; simpl; [reflexivity|]. rewrite N.eqb_refl. exact IH. Qed.

Lemma find_none_iff {A} (f : A -> bool) l :
  List.find f l = None <-> forall x, In x l -> f x = false.
Proof.
  split; [apply List.find_none|].
  intros H. destruct (List.find f l) as [y|] eqn:E; [|reflexivity].
  apply List.find_some in E. destruct E as [Hin Hy]. rewrite (H y Hin) in Hy.
  discriminate.
Qed.

(** X5: when no row of the table has a non-empty key that the stem starts
    with (rows with a blank key never count, and a table may have no rows),
    the categories come from the file name: content, character and face
    as parsed, the middle as body, and nothing for background, photo
    style and lighting. *)
Theorem no_row_matches_fallback df p stem :
  (forall r, In r df -> nonempty (row_key r) = true ->
             startswith stem (row_key r) = false) ->
  lookup_cats (build_row_map df) stem = None
  /\ resolve_cats (build_row_map df) p stem
     = {| content := p_content p; character := p_char p; face := p_face p;
          body := p_middle p; backg := []; photo := []; light := [] |}.
Proof.
  intros H.
  assert (L : lookup_cats (build_row_map df) stem = None).
  { unfold lookup_cats. rewrite dict_get_row_map.
    assert (last_with_key df stem = None) as ->.
    { unfold last_with_key. apply find_none_iff. intros r Hr.
      apply List.in_rev in Hr.
      destruct (nonempty (row_key r)) eqn:Hn; [|reflexivity]. simpl.
      destruct (eqb_str stem (row_key r)) eqn:E; [|reflexivity].
      apply eqb_str_spec in E. specialize (H r Hr Hn).
      rewrite <- E, startswith_refl in H. discriminate. }
    simpl. rewrite (find_by_key (startswith stem)), first_key_row_map.
    assert (List.find (fun r => nonempty (row_key r) && startswith stem (row_key r)) df
            = None) as ->; [|reflexivity].
    apply find_none_iff. intros r Hr.
    destruct (nonempty (row_key r)) eqn:Hn; [|reflexivity]. simpl. auto. }
  split; [exact L|]. unfold resolve_cats. rewrite L. reflexivity.
Qed.

Lemma no_row_matches_fallback_witness :
  let row (key cat : str) : Row :=
    <[col_filename_prefix := key]> (<[col_content := cat]> ∅) in
  let df := [row (lit "20231231_x") (lit "other"); row (lit "  ") (lit "blank")] in
  lookup_cats (build_row_map df) (lit "20240102_a_b_c_d_00017") = None.
Proof.
  intros row df.
  apply (no_row_matches_fallback df
           {| p_date := lit "20240102"; p_content := lit "a"; p_char := lit "b";
              p_face := lit "c"; p_middle := lit "d"; p_num := lit "00017";
              p_ext := lit "png" |} (lit "20240102_a_b_c_d_00017")).
  intros r [<-|[<-|[]]]; vm_compute; intros; congruence.
Defined.

(** ** The loop: what a dry run leaves alone *)

Lemma rename_to_canonical_dry args st f canonical :
  a_dry_run args = true ->
  let st1 := fst (rename_to_canonical args st f canonical) in
  world st1 = world st /\ moved_records st1 = moved_records st.
Proof.
  intros Hd. unfold rename_to_canonical.
  destruct (eqb_str canonical (name f)); [split; reflexivity|].
  rewrite Hd. split; reflexivity.
Qed.

Lemma categories_keeps row_map st f p :
  let st1 := fst (categories row_map st f p) in
  world st1 = world st /\ moved_records st1 = moved_records st.
Proof. unfold categories. destruct (lookup_cats _ _); split; reflexivity. Qed.

Lemma process_file_dry sha1 args mode root row_map st f st' :
  a_dry_run args = true ->
  process_file sha1 args mode root row_map st f = Some st' ->
  world st' = world st /\ moved_records st' = moved_records st
  /\ moved (counters st') = moved (counters st)
  /\ copied (counters st') = copied (counters st)
  /\ skipped_conflict (counters st') = skipped_conflict (counters st)
  /\ skipped_hash_dup (counters st') = skipped_hash_dup (counters st).
Proof.
  intros Hd. unfold process_file.
  destruct (nodes (world st) !! f) as [[data|]|]; try discriminate.
  destruct (_ <? _)%Z; [intros H; injection H as <-; repeat split|].
  destruct (parse_filename (name f)) as [p|];
    [|intros H; injection H as <-; repeat split].
  pose proof (rename_to_canonical_dry args st f (build_canonical_name p) Hd) as [W1 M1].
  pose proof (rename_to_canonical_counters args st f (build_canonical_name p)) as C1.
  destruct (rename_to_canonical args st f (build_canonical_name p)) as [st1 f1].
  pose proof (categories_keeps row_map st1 f1 p) as [W2 M2].
  pose proof (categories_counters row_map st1 f1 p) as C2.
  destruct (categories row_map st1 f1 p) as [st2 cats].
  destruct (destination args mode root cats p f1) as [dest_dir dest_path].
  simpl in *.
  destruct (relative_to dest_path root); [|discriminate].
  rewrite Hd. intros H. injection H as <-. simpl.
  rewrite W2, W1, M2, M1, C2, C1. repeat split.
Qed.


(** ** The loop: every file is accounted for *)

Lemma count_failed_snoc l e :
  count_failed (l ++ [e]) = (count_failed l + if is_failure e then 1 else 0)%nat.
Proof.
  unfold count_failed. rewrite List.filter_app, length_app. simpl.
  destruct (is_failure e); reflexivity.
Qed.

Lemma rename_to_canonical_account args st f canonical :
  let st1 := fst (rename_to_canonical args st f canonical) in
  count_failed (log st1) = count_failed (log st)
  /\ length (moved_records st1) = length (moved_records st).
Proof.
  unfold rename_to_canonical.
  destruct (eqb_str canonical (name f)); [repeat split; auto|].
  destruct (a_dry_run args).
  - simpl. rewrite count_failed_snoc. simpl. repeat split; auto.
  - destruct (rename _ _ _); simpl; rewrite ?count_failed_snoc; simpl;
      repeat split; auto.
Qed.

Lemma categories_account row_map st f p :
  let st1 := fst (categories row_map st f p) in
  count_failed (log st1) = count_failed (log st)
  /\ moved_records st1 = moved_records st.
Proof.
  unfold categories. destruct (lookup_cats _ _); simpl;
    rewrite ?count_failed_snoc; simpl; split; auto.
Qed.

Lemma settle_account args st f dp o :
  let st' := settle args st f dp o in
  (tally (counters st') + count_failed (log st')
   = tally (counters st) + count_failed (log st) + 1)%nat
  /\ (moved (counters st') + copied (counters st') + length (moved_records st)
      = moved (counters st) + copied (counters st) + length (moved_records st'))%nat.
Proof.
  destruct o as [w final [|]| | |w [|]]; simpl; try destruct (a_copy args); simpl;
    rewrite ?count_failed_snoc, ?length_app; simpl; rewrite ?count_failed_snoc; simpl;
    unfold tally; simpl; split; lia.
Qed.

Lemma process_file_account sha1 args mode root row_map st f st' :
  a_dry_run args = false ->
  process_file sha1 args mode root row_map st f = Some st' ->
  (tally (counters st') + count_failed (log st')
   = tally (counters st) + count_failed (log st) + 1)%nat
  /\ (moved (counters st') + copied (counters st') + length (moved_records st)
      = moved (counters st) + copied (counters st) + length (moved_records st'))%nat.
Proof.
  intros Hd. unfold process_file.
  destruct (nodes (world st) !! f) as [[data|]|]; try discriminate.
  destruct (_ <? _)%Z.
  { intros H; injection H as <-. simpl. rewrite count_failed_snoc. simpl.
    unfold tally. simpl. lia. }
  destruct (parse_filename (name f)) as [p|].
  2:{ intros H; injection H as <-. simpl. rewrite count_failed_snoc. simpl.
      unfold tally. simpl. lia. }
  pose proof (rename_to_canonical_account args st f (build_canonical_name p))
    as (L1 & M1).
  pose proof (rename_to_canonical_counters args st f (build_canonical_name p)) as C1.
  destruct (rename_to_canonical args st f (build_canonical_name p)) as [st1 f1].
  pose proof (categories_account row_map st1 f1 p) as (L2 & M2).
  pose proof (categories_counters row_map st1 f1 p) as C2.
  destruct (categories row_map st1 f1 p) as [st2 cats].
  destruct (destination args mode root cats p f1) as [dest_dir dest_path].
  simpl in *.
  destruct (relative_to dest_path root); [|discriminate].
  rewrite Hd. intros H. injection H as <-.
  match goal with
  | |- context [settle ?a ?s ?x ?y ?o] =>
      pose proof (settle_account a s x y o) as [S1 S2]
  end.
  cbv zeta in S1, S2. simpl in S1, S2. rewrite count_failed_snoc in S1. simpl in S1.
  rewrite S1. rewrite C2, C1, L2, L1, M2 in *. split; lia.
Qed.

(** X8: outside a dry run every file the loop goes through is counted
    once: it adds one to exactly one of moved, copied, skipped_unmatched,
    skipped_small, skipped_conflict and skipped_hash_dup, or it leaves a
    failure line in the log; and the list of placed paths grows by the
    files counted as moved or copied. *)
Theorem every_file_accounted sha1 args mode root row_map files st st' :
  a_dry_run args = false ->
  process_all sha1 args mode root row_map st files = Some st' ->
  (tally (counters st') + count_failed (log st')
   = tally (counters st) + count_failed (log st) + length files)%nat
  /\ (moved (counters st') + copied (counters st') + length (moved_records st)
      = moved (counters st) + copied (counters st) + length (moved_records st'))%nat.
Proof.
  intros Hd. revert st. induction files as [|f files IH]; intros st H; simpl in H.
  - injection H as <-. simpl. split; lia.
  - destruct (process_file sha1 args mode root row_map st f) as [st1|] eqn:E;
      [|discriminate].
    destruct (process_file_account _ _ _ _ _ _ _ _ Hd E) as [A1 A2].
    destruct (IH _ H) as [B1 B2]. simpl. split; lia.
Qed.


Lemma every_file_accounted_witness :
  let root := {| anchor := [c_slash]; parts := [lit "img"] |} in
  let f1 := joinpath root (lit "20240102_a_b_c_d_00017_00017_.png") in
  let f2 := joinpath root (lit "notes.png") in
  let f3 := joinpath root (lit "20240102_a_b_c_d_00018.png") in
  let w := {| nodes := <[f1 := File [1; 2; 3]]> (<[f2 := File [4]]>
                         (<[f3 := File []]> (<[root := Dir]> ∅)));
              locked := ∅; unreadable := ∅ |} in
  let args := {| a_copy := false; a_dry_run := false; a_on_conflict := dup;
                 a_batch := []; a_min_bytes := 1 |} in
  exists st',
    process_all (fun data => data) args (lit "SFW") root [] (start w) [f1; f2; f3]
    = Some st'
    /\ (tally (counters st') + count_failed (log st') = 3)%nat.
Proof.
  intros root f1 f2 f3 w args.
  assert (R : ended (process_all (fun data => data) args (lit "SFW") root []
                       (start w) [f1; f2; f3]) = true) by (vm_compute; reflexivity).
  destruct (process_all (fun data => data) args (lit "SFW") root [] (start w)
              [f1; f2; f3]) as [st'|] eqn:E; [|discriminate R].
  exists st'. split; [reflexivity|].
  destruct (every_file_accounted (fun data => data) args (lit "SFW") root []
              [f1; f2; f3] (start w) st' eq_refl E) as [H _].
  exact H.
Defined.

(** ** The loop: files it does not work on *)

Lemma ensure_unique_path_not_there w p : nodes w !! ensure_unique_path w p = None.
Proof.
  apply path_exists_lookup. destruct (path_exists w p) eqn:Hp.
  - destruct (ensure_unique_path_spec w p Hp) as (k & _ & -> & Hfree & _).
    exact Hfree.
  - rewrite ensure_unique_path_free by assumption. exact Hp.
Qed.

Lemma mkdir_p_keeps w d w1 q :
  mkdir_p w d = Some w1 ->
  (q ∉ dirs_to d -> nodes w1 !! q = nodes w !! q)
  /\ (forall data, nodes w !! q = Some (File data) -> nodes w1 !! q = Some (File data))
  /\ locked w1 = locked w /\ unreadable w1 = unreadable w.
Proof.
  unfold mkdir_p. destruct (existsb (is_file w) (dirs_to d)) eqn:E; [discriminate|].
  intros H. injection H as <-. cbn [nodes set_nodes locked unreadable].
  repeat split.
  - intros Hq. rewrite lookup_mkdirs, bool_decide_eq_false_2 by assumption. reflexivity.
  - intros data Hq. rewrite lookup_mkdirs.
    destruct (bool_decide (q ∈ dirs_to d)) eqn:B; [|assumption].
    apply bool_decide_eq_true in B. apply (no_file_in_dirs _ _ _ E) in B.
    unfold is_file in B. rewrite Hq in B. discriminate.
Qed.

(** [finish] toward a free path leaves every other file as it is. *)
Lemma finish_keeps_files args w f final u q data :
  nodes w !! final = None -> q <> f ->
  nodes w !! q = Some (File data) ->
  nodes (outcome_world w (finish args w f final u)) !! q = Some (File data).
Proof.
  intros Hfree Hqf Hq. unfold finish, move_or_copy.
  destruct (mkdir_p w (parent final)) as [w1|] eqn:M; [|exact Hq].
  destruct (mkdir_p_keeps w (parent final) w1 final M) as (K1 & _ & _ & _).
  destruct (mkdir_p_keeps w (parent final) w1 q M) as (_ & K2 & _ & _).
  specialize (K1 (not_in_own_dirs final)). rewrite Hfree in K1.
  specialize (K2 data Hq).
  assert (Hne : final <> q) by congruence.
  destruct (a_copy args).
  - unfold copy2, real_dst. rewrite K1.
    destruct (nodes w1 !! f) as [[d|]|]; try exact K2.
    destruct (is_unreadable w1 f); [exact K2|].
    cbn [outcome_world nodes set_nodes]. rewrite lookup_insert_ne by assumption.
    exact K2.
  - unfold move, real_dst. rewrite K1.
    destruct (nodes w1 !! f) as [[d|]|] eqn:Hf1; try exact K2.
    destruct (is_file w1 final || negb (path_exists w1 final)); [|exact K2].
    destruct (is_locked w1 f).
    + unfold copy2, real_dst. rewrite Hf1, K1.
      destruct (is_unreadable w1 f); [exact K2|].
      cbn [outcome_world nodes set_nodes]. rewrite lookup_insert_ne by assumption.
      exact K2.
    + cbn [outcome_world nodes set_nodes].
      rewrite lookup_insert_ne, lookup_delete_ne by congruence. exact K2.
Qed.

Lemma finish_outcome_world args w0 w f final u :
  outcome_world w0 (finish args w f final u)
  = outcome_world w (finish args w f final u).
Proof. unfold finish. destruct (move_or_copy _ _ _ _) as [w' [|]]; reflexivity. Qed.

(** The [try] block leaves every file other than the source as it is,
    but for the planned path under the overwrite policy. *)
Lemma place_keeps_files sha1 args w f d dp q data :
  q <> f -> (a_on_conflict args = overwrite -> q <> dp) ->
  nodes w !! q = Some (File data) ->
  nodes (outcome_world w (place sha1 args w f d dp)) !! q = Some (File data).
Proof.
  intros Hqf Hov Hq.
  assert (B : nodes (outcome_world w (place_by_name args w f dp)) !! q
              = Some (File data)).
  { unfold place_by_name. destruct (path_exists w dp) eqn:Hex.
    - destruct (a_on_conflict args) eqn:Hpol.
      + apply finish_keeps_files; auto. apply ensure_unique_path_not_there.
      + exact Hq.
      + unfold unlink. destruct (is_file w dp && negb (is_locked w dp)); [|exact Hq].
        specialize (Hov eq_refl).
        pose proof (finish_keeps_files args
                      (set_nodes w (delete dp (nodes w))) f dp true q data) as F.
        cbn [nodes set_nodes] in F.
        rewrite lookup_delete_eq, lookup_delete_ne in F by congruence.
        specialize (F eq_refl Hqf Hq).
        rewrite (finish_outcome_world args w). exact F.
      + apply finish_keeps_files; auto. apply ensure_unique_path_not_there.
    - apply finish_keeps_files; auto. apply path_exists_lookup, Hex. }
  unfold place. destruct (a_on_conflict args); try exact B.
  destruct (sha1sum sha1 w f) as [digest|]; [|exact Hq].
  destruct (find_same_hash sha1 w d digest) as [[same|]|]; try exact Hq. exact B.
Qed.

Lemma settle_world args st f dp o :
  world (settle args st f dp o) = outcome_world (world st) o.
Proof.
  destruct o as [w final [|]| | |w [|]]; simpl; try reflexivity;
    destruct (a_copy args); reflexivity.
Qed.

Lemma rename_to_canonical_keeps_files args st f canonical q data :
  q <> f -> nodes (world st) !! q = Some (File data) ->
  nodes (world (fst (rename_to_canonical args st f canonical))) !! q
  = Some (File data)
  /\ q <> snd (rename_to_canonical args st f canonical).
Proof.
  intros Hqf Hq. unfold rename_to_canonical.
  destruct (eqb_str canonical (name f)); [split; assumption|].
  set (np := if path_exists (world st) (with_name f canonical)
             then ensure_unique_path (world st) (with_name f canonical)
             else with_name f canonical).
  assert (Hfree : nodes (world st) !! np = None).
  { unfold np. destruct (path_exists (world st) (with_name f canonical)) eqn:E.
    - apply ensure_unique_path_not_there.
    - apply path_exists_lookup, E. }
  assert (Hne : np <> q) by congruence.
  destruct (a_dry_run args); [split; [assumption|cbn [snd]; congruence]|].
  unfold rename. destruct (nodes (world st) !! f) as [[d|]|];
    try (split; [assumption|cbn [snd]; congruence]).
  destruct (is_locked (world st) f); [split; [assumption|cbn [snd]; congruence]|].
  split; [|cbn [snd]; congruence]. cbn [fst world set_world nodes set_nodes].
  rewrite lookup_insert_ne, lookup_delete_ne by congruence. exact Hq.
Qed.

Lemma process_file_keeps_files sha1 args mode root row_map st f st' q data :
  a_on_conflict args <> overwrite ->
  process_file sha1 args mode root row_map st f = Some st' ->
  q <> f -> nodes (world st) !! q = Some (File data) ->
  nodes (world st') !! q = Some (File data).
Proof.
  intros Hpol H Hqf Hq. unfold process_file in H.
  destruct (nodes (world st) !! f) as [[fd|]|]; try discriminate.
  destruct (_ <? _)%Z; [injection H as <-; exact Hq|].
  destruct (parse_filename (name f)) as [p|]; [|injection H as <-; exact Hq].
  pose proof (rename_to_canonical_keeps_files args st f (build_canonical_name p)
                q data Hqf Hq) as [R1 R2].
  destruct (rename_to_canonical args st f (build_canonical_name p)) as [st1 f1].
  pose proof (categories_keeps row_map st1 f1 p) as [W2 _].
  destruct (categories row_map st1 f1 p) as [st2 cats].
  destruct (destination args mode root cats p f1) as [dest_dir dest_path].
  simpl in *.
  destruct (relative_to dest_path root); [|discriminate].
  destruct (a_dry_run args); injection H as <-.
  - simpl. rewrite W2. exact R1.
  - rewrite settle_world. simpl. apply place_keeps_files; auto.
    rewrite W2. exact R1.
Qed.



(** ** The overwrite policy on a file that is where it belongs *)

(** X10: under the overwrite policy a file whose planned path is its own
    path (a file met again where an earlier run put it) is deleted: the
    planned path exists, so it is unlinked, and the move or copy that
    follows finds no source. *)
Theorem overwrite_onto_itself_deletes sha1 args w f d data :
  a_on_conflict args = overwrite ->
  nodes w !! f = Some (File data) ->
  is_locked w f = false ->
  exists w',
    place sha1 args w f d f = Failed w' true
    /\ nodes w' !! f = None.
Proof.
  intros Hpol Hf Hl. unfold place, place_by_name. rewrite Hpol.
  rewrite (path_exists_some _ _ _ Hf). unfold unlink, is_file. rewrite Hf, Hl.
  cbn [andb negb]. set (w1 := set_nodes w (delete f (nodes w))).
  assert (H1 : nodes w1 !! f = None) by apply lookup_delete_eq.
  unfold finish, move_or_copy.
  destruct (mkdir_p w1 (parent f)) as [w2|] eqn:M.
  - destruct (mkdir_p_keeps w1 (parent f) w2 f M) as (K & _).
    specialize (K (not_in_own_dirs f)). rewrite H1 in K.
    exists w2. destruct (a_copy args).
    + unfold copy2. rewrite K. split; reflexivity.
    + unfold move. rewrite K. split; reflexivity.
  - exists w1. split; [reflexivity|assumption].
Qed.

Lemma overwrite_onto_itself_deletes_witness :
  let root := {| anchor := [c_slash]; parts := [lit "img"] |} in
  let d := joinpath root (lit "SFW/a/b/c/d/20240102") in
  let f := joinpath d (lit "20240102_a_b_c_d_00017.png") in
  let w := {| nodes := <[f := File [1; 2; 3]]> (<[d := Dir]> (<[root := Dir]> ∅));
              locked := ∅; unreadable := ∅ |} in
  let args := {| a_copy := false; a_dry_run := false; a_on_conflict := overwrite;
                 a_batch := []; a_min_bytes := 1 |} in
  snd (destination args (lit "SFW") root
         (fallback_cats {| p_date := lit "20240102"; p_content := lit "a";
                           p_char := lit "b"; p_face := lit "c";
                           p_middle := lit "d"; p_num := lit "00017";
                           p_ext := lit "png" |})
         {| p_date := lit "20240102"; p_content := lit "a"; p_char := lit "b";
            p_face := lit "c"; p_middle := lit "d"; p_num := lit "00017";
            p_ext := lit "png" |} f) = f
  /\ exists w', place (fun x => x) args w f d f = Failed w' true
                /\ nodes w' !! f = None.
Proof.
  intros root d f w args. split; [vm_compute; reflexivity|].
  apply (overwrite_onto_itself_deletes (fun x => x) args w f d [1; 2; 3]);
    vm_compute; reflexivity.
Defined.

(** ** The counter of numbered duplicates *)

Lemma settle_dupped args st f dp o :
  dupped (counters (settle args st f dp o)) = dupped (counters st).
Proof.
  destruct o as [w final [|]| | |w [|]]; simpl; try reflexivity;
    destruct (a_copy args); reflexivity.
Qed.

Lemma process_file_dupped sha1 args mode root row_map st f st' :
  process_file sha1 args mode root row_map st f = Some st' ->
  dupped (counters st') = dupped (counters st).
Proof.
  unfold process_file.
  destruct (nodes (world st) !! f) as [[data|]|]; try discriminate.
  destruct (_ <? _)%Z; [intros H; injection H as <-; reflexivity|].
  destruct (parse_filename (name f)) as [p|];
    [|intros H; injection H as <-; reflexivity].
  pose proof (rename_to_canonical_counters args st f (build_canonical_name p)) as H1.
  destruct (rename_to_canonical args st f (build_canonical_name p)) as [st1 f1].
  pose proof (categories_counters row_map st1 f1 p) as H2.
  destruct (categories row_map st1 f1 p) as [st2 cats].
  destruct (destination args mode root cats p f1) as [dest_dir dest_path].
  simpl in H1, H2.
  destruct (relative_to dest_path root); [|discriminate].
  destruct (a_dry_run args); intros H; injection H as <-.
  - simpl. congruence.
  - rewrite settle_dupped. simpl. congruence.
Qed.

(** X11: the counter [dupped] that the summary prints is 0 at the end of
    every loop, also when files were placed under numbered names. *)
Theorem dupped_never_counted sha1 args mode root row_map files w :
  match process_all sha1 args mode root row_map (start w) files with
  | Some st' => dupped (counters st') = 0%nat
  | None => True
  end.
Proof.
  assert (G : forall st st',
             process_all sha1 args mode root row_map st files = Some st' ->
             dupped (counters st') = dupped (counters st)).
  { induction files as [|f files IH]; intros st st' H; simpl in H.
    - injection H as <-. reflexivity.
    - destruct (process_file sha1 args mode root row_map st f) as [st1|] eqn:E;
        [|discriminate].
      rewrite (IH _ _ H). eapply process_file_dupped, E. }
  destruct (process_all _ _ _ _ _ _ _) as [st'|] eqn:H; [|exact I].
  apply G in H. exact H.
Qed.

(** ** The path of the updated table *)

Lemma uint_digits (d : Decimal.uint) :
  Forall (fun c => 48 <= c <= 57) (lit (NilEmpty.string_of_uint d)).
Proof.
  induction d; simpl; constructor; try assumption; cbv; split; discriminate.
Qed.

Lemma str_of_nat_digits i : Forall (fun c => 48 <= c <= 57) (str_of_nat i).
Proof. apply uint_digits. Qed.

Lemma startswith_app k r : startswith (k ++ r) k = true.
Proof.
  induction k as [|c k IH]; simpl; [destruct r; reflexivity|].
  rewrite N.eqb_refl. exact IH.
Qed.

Lemma marked_stem_marked src marker : endswith (marked_stem src marker) marker = true.
Proof.
  unfold marked_stem. destruct (endswith (stem src) marker) eqn:E; [exact E|].
  unfold endswith. rewrite !rev_app_distr, <- app_assoc. apply startswith_app.
Qed.

(** Among as many paths of an injective numbering as the tree has nodes,
    one is free when a path outside the numbering exists. *)
Lemma free_among (cand : nat -> Path) w p :
  (forall i j, cand i = cand j -> i = j) -> (forall i, cand i <> p) ->
  path_exists w p = true ->
  exists j, (2 <= j < 2 + size (nodes w))%nat /\ path_exists w (cand j) = false.
Proof.
  intros Hinj Hne Hp.
  destruct (all_or_some (fun j => path_exists w (cand j)) 2 (size (nodes w)))
    as [Hall|H]; [exfalso|exact H].
  set (n := size (nodes w)) in *.
  set (l := p :: map cand (seq 2 n)).
  assert (Hnd : NoDup l).
  { unfold l. constructor.
    - intros Hin. apply list_elem_of_In, List.in_map_iff in Hin.
      destruct Hin as (j & Hj & _). apply (Hne j Hj).
    - apply NoDup_fmap_2; [intros i j; apply Hinj|].
      apply NoDup_ListNoDup, List.seq_NoDup. }
  assert (Hsub : (list_to_set l : gset Path) ⊆ dom (nodes w)).
  { intros q Hq. apply elem_of_list_to_set in Hq. unfold l in Hq.
    apply elem_of_cons in Hq. destruct Hq as [->|Hq].
    - apply path_exists_dom, Hp.
    - apply list_elem_of_In, List.in_map_iff in Hq. destruct Hq as (j & <- & Hj).
      apply List.in_seq in Hj. apply path_exists_dom, Hall. lia. }
  apply subseteq_size in Hsub.
  rewrite size_list_to_set in Hsub by assumption.
  rewrite size_dom in Hsub. unfold l in Hsub. simpl in Hsub.
  rewrite length_map, length_seq in Hsub. fold n in Hsub. lia.
Qed.

Lemma output_name_segment src stem1 i :
  is_segment (stem1 ++ suffix src) = true ->
  is_segment (output_name src stem1 i) = true.
Proof.
  intros (Hn & Hs & _)%is_segment_spec. apply is_segment_spec.
  unfold output_name. apply List.Forall_app in Hs. destruct Hs as [H1 H2].
  repeat split.
  - destruct stem1; discriminate.
  - apply List.Forall_app. split; [assumption|]. constructor; [discriminate|].
    apply List.Forall_app. split; [|assumption].
    eapply List.Forall_impl; [|apply str_of_nat_digits].
    intros c [Hc _] ->. apply Hc. reflexivity.
  - intros H.
    assert (Hin : In c_us (stem1 ++ [c_us] ++ str_of_nat i ++ suffix src))
      by (apply in_or_app; right; left; reflexivity).
    rewrite H in Hin. destruct Hin as [E|[]]. discriminate E.
Qed.

Lemma valid_name_segment n : is_segment n = true -> valid_name n = true.
Proof.
  intros H. pose proof H as (Hn & Hs & Hd)%is_segment_spec.
  assert (Hne : nonempty n = true) by (destruct n; [congruence|reflexivity]).
  unfold valid_name. rewrite !andb_true_iff. repeat split.
  - exact Hne.
  - apply negb_true_iff, N.eqb_neq.
    destruct (exists_last Hn) as (l & c & ->). rewrite last_last.
    apply List.Forall_app in Hs. destruct Hs as [_ Hc]. inversion Hc; assumption.
  - rewrite root_of_no_slash by assumption. reflexivity.
  - unfold components. rewrite split_on_no_sep by assumption.
    cbn [List.filter]. rewrite Hne.
    replace (eqb_str n [c_dot]) with false; [reflexivity|].
    symmetry. unfold eqb_str. apply bool_decide_eq_false. exact Hd.
Qed.

Lemma first_free_output_spec w src stem1 fuel i :
  nonempty (name src) = true ->
  is_segment (stem1 ++ suffix src) = true ->
  exists j, (i <= j <= i + fuel)%nat
    /\ first_free_output w src stem1 fuel i
       = Some (with_name src (output_name src stem1 j))
    /\ (forall k, (i <= k < j)%nat ->
          path_exists w (with_name src (output_name src stem1 k)) = true)
    /\ ((j < i + fuel)%nat ->
          path_exists w (with_name src (output_name src stem1 j)) = false).
Proof.
  intros Hn Hs. revert i.
  induction fuel as [|fuel IH]; intros i; simpl;
    unfold with_name_checked;
    rewrite Hn, (valid_name_segment _ (output_name_segment src stem1 i Hs)); simpl.
  - exists i. repeat split; [lia|lia| |]; intros; lia.
  - destruct (path_exists w (with_name src (output_name src stem1 i))) eqn:E.
    + destruct (IH (S i)) as (j & Hj & Hr & Hb & Hf).
      exists j. repeat split; [lia|lia|exact Hr| |].
      * intros k Hk. destruct (Nat.eq_dec k i) as [->|]; [exact E|]. apply Hb. lia.
      * intros. apply Hf. lia.
    + exists i. repeat split; [lia|lia| |]; intros; [lia|exact E].
Qed.

Lemma output_name_inj src stem1 i j :
  with_name src (output_name src stem1 i) = with_name src (output_name src stem1 j) ->
  i = j.
Proof.
  intros H%with_name_inj. unfold output_name in H.
  apply app_inv_head in H. simpl in H. injection H as H.
  apply app_inv_tail in H. apply str_of_nat_inj, H.
Qed.

Lemma output_name_ne src stem1 i :
  with_name src (output_name src stem1 i) <> with_name src (stem1 ++ suffix src).
Proof.
  intros H%with_name_inj. unfold output_name in H.
  apply app_inv_head in H. apply (f_equal (@length N)) in H.
  simpl in H. rewrite length_app in H. lia.
Qed.

Lemma stem_nonempty p : name p <> [] -> stem p <> [].
Proof.
  intros Hn. unfold stem, suffix_at.
  destruct (rfind_dot (name p)) as [i|]; [|exact Hn].
  destruct (Nat.ltb 0 i && Nat.ltb i (length (name p) - 1)) eqn:E; [|exact Hn].
  apply andb_true_iff in E. destruct E as [E _]. apply Nat.ltb_lt in E.
  destruct i; [lia|]. destruct (name p); [congruence|discriminate].
Qed.

(** A suffix is empty or a dot and at least one more character. *)
Lemma suffix_length p : suffix p = [] \/ (2 <= length (suffix p))%nat.
Proof.
  unfold suffix, suffix_at.
  destruct (rfind_dot (name p)) as [i|]; [|left; reflexivity].
  destruct (Nat.ltb 0 i && Nat.ltb i (length (name p) - 1)) eqn:E; [|left; reflexivity].
  apply andb_true_iff in E. destruct E as [_ E]. apply Nat.ltb_lt in E.
  right. rewrite length_skipn. lia.
Qed.

Lemma marked_stem_segment src marker :
  is_segment (name src) = true ->
  Forall (fun c => c <> c_slash) marker ->
  is_segment (marked_stem src marker ++ suffix src) = true.
Proof.
  intros (Hn & Hs & Hd)%is_segment_spec Hm.
  pose proof (stem_nonempty src Hn) as Hst.
  rewrite name_stem_suffix in Hs, Hd.
  apply List.Forall_app in Hs. destruct Hs as [Hs1 Hs2].
  apply is_segment_spec. unfold marked_stem.
  destruct (endswith (stem src) marker).
  - repeat split; [destruct (stem src); [congruence|discriminate]
                  |apply List.Forall_app; split; assumption|exact Hd].
  - repeat split.
    + destruct (stem src); [congruence|discriminate].
    + repeat (apply List.Forall_app; split); try assumption.
      constructor; [discriminate|constructor].
    + intros H. apply (f_equal (@length N)) in H. rewrite !length_app in H.
      simpl in H. destruct (stem src); [congruence|simpl in H; lia].
Qed.

(** X6: for a path that has a name, [ensure_unique_path] returns a path
    that does not exist, in the directory of the path it was given; it is
    that path itself exactly when that path does not exist; and
    [with_name] accepts the name of every candidate, so that no probe
    raises. *)
Theorem ensure_unique_path_fresh w p :
  is_segment (name p) = true ->
  path_exists w (ensure_unique_path w p) = false
  /\ parent (ensure_unique_path w p) = parent p
  /\ bool_decide (ensure_unique_path w p = p) = negb (path_exists w p)
  /\ forall i,
       with_name_checked p (stem p ++ [c_us] ++ str_of_nat i ++ suffix p)
       = Some (candidate p i).
Proof.
  intros Hseg.
  assert (Hchecked : forall i,
             with_name_checked p (stem p ++ [c_us] ++ str_of_nat i ++ suffix p)
             = Some (candidate p i)).
  { intros i. unfold with_name_checked.
    assert (Hn : nonempty (name p) = true).
    { apply is_segment_spec in Hseg. destruct Hseg as [Hn _].
      destruct (name p); [congruence|reflexivity]. }
    rewrite name_stem_suffix in Hseg.
    pose proof (valid_name_segment _ (output_name_segment p (stem p) i Hseg)) as Hv.
    unfold output_name in Hv. rewrite Hn, Hv. reflexivity. }
  destruct (path_exists w p) eqn:Hp.
  - destruct (ensure_unique_path_spec w p Hp) as (k & _ & -> & Hfree & _).
    repeat split; [assumption|apply parent_candidate| |exact Hchecked].
    apply bool_decide_eq_false. apply candidate_ne.
  - rewrite ensure_unique_path_free by assumption.
    repeat split; [assumption| |exact Hchecked].
    apply bool_decide_eq_true. reflexivity.
Qed.

Lemma ensure_unique_path_fresh_witness :
  let d := {| anchor := [c_slash]; parts := [lit "img"] |} in
  let p := joinpath d (lit "20240102_a_b_c_d_00017.png") in
  let w := {| nodes := <[p := File [1]]>
                         (<[candidate p 2 := File [2]]> (<[d := Dir]> ∅));
              locked := ∅; unreadable := ∅ |} in
  is_segment (name p) = true
  /\ ensure_unique_path w p = joinpath d (lit "20240102_a_b_c_d_00017_3.png")
  /\ path_exists w (ensure_unique_path w p) = false
  /\ parent (ensure_unique_path w p) = parent p
  /\ bool_decide (ensure_unique_path w p = p) = negb (path_exists w p)
  /\ forall i,
       with_name_checked p (stem p ++ [c_us] ++ str_of_nat i ++ suffix p)
       = Some (candidate p i).
Proof.
  intros d p w.
  assert (H : is_segment (name p) = true) by (vm_compute; reflexivity).
  split; [exact H|]. split; [vm_compute; reflexivity|].
  exact (ensure_unique_path_fresh w p H).
Defined.

(** X12: for a table path with a name and a marker without "/", the path
    chosen for the updated table is free, lies beside the table, keeps its
    extension, and its stem carries the marker, followed by nothing or by
    the least number from 2 whose path is free. *)
Theorem suffixed_output_path_fresh (w : World) (src_path : Path) (marker : str) :
  is_segment (name src_path) = true ->
  Forall (fun c => c <> c_slash) marker ->
  exists out tail,
    suffixed_output_path w src_path marker = Some out
    /\ path_exists w out = false
    /\ parent out = parent src_path
    /\ name out = marked_stem src_path marker ++ tail ++ suffix src_path
    /\ endswith (marked_stem src_path marker) marker = true
    /\ (tail = []
        \/ exists i, (2 <= i)%nat /\ tail = c_us :: str_of_nat i
           /\ path_exists w (with_name src_path
                (marked_stem src_path marker ++ suffix src_path)) = true
           /\ forall k, (2 <= k < i)%nat ->
                path_exists w (with_name src_path
                  (output_name src_path (marked_stem src_path marker) k)) = true).
Proof.
  intros Hseg Hm.
  pose proof (marked_stem_segment src_path marker Hseg Hm) as Hs.
  assert (Hn : nonempty (name src_path) = true).
  { apply is_segment_spec in Hseg. destruct Hseg as [Hn _].
    destruct (name src_path); [congruence|reflexivity]. }
  unfold suffixed_output_path, with_name_checked.
  rewrite Hn, (valid_name_segment _ Hs). simpl.
  set (stem1 := marked_stem src_path marker) in *.
  destruct (path_exists w (with_name src_path (stem1 ++ suffix src_path))) eqn:E.
  - destruct (first_free_output_spec w src_path stem1 (size (nodes w)) 2 Hn Hs)
      as (j & Hj & Hr & Hb & Hf).
    exists (with_name src_path (output_name src_path stem1 j)), (c_us :: str_of_nat j).
    assert (Hfree : path_exists w (with_name src_path (output_name src_path stem1 j)) = false).
    { destruct (free_among (fun k => with_name src_path (output_name src_path stem1 k))
                  w (with_name src_path (stem1 ++ suffix src_path))
                  (output_name_inj src_path stem1) (output_name_ne src_path stem1) E)
        as (k & Hk & Hfk).
      destruct (Nat.lt_ge_cases j (2 + size (nodes w))) as [Hlt|Hge]; [apply Hf, Hlt|].
      rewrite Hb in Hfk by lia. discriminate. }
    repeat split; [exact Hr|exact Hfree|apply parent_with_name| |apply marked_stem_marked|].
    + rewrite name_with_name. reflexivity.
    + right. exists j. repeat split; [lia|exact Hb].
  - exists (with_name src_path (stem1 ++ suffix src_path)), [].
    repeat split; [exact E|apply parent_with_name|apply name_with_name
                  |apply marked_stem_marked|left; reflexivity].
Qed.

Lemma suffixed_output_path_fresh_witness :
  let src := joinpath {| anchor := [c_slash]; parts := [lit "img"] |} (lit "book.xlsx") in
  let marker := [30011; 20687; 20181; 20998; 12369; 28168; 12415] in
  let w := {| nodes := <[src := File []]>
                         (<[with_name src (lit "book_" ++ marker ++ lit ".xlsx") := File []]> ∅);
              locked := ∅; unreadable := ∅ |} in
  is_segment (name src) = true
  /\ Forall (fun c => c <> c_slash) marker
  /\ exists out tail,
       suffixed_output_path w src marker = Some out
       /\ path_exists w out = false
       /\ parent out = parent src
       /\ name out = marked_stem src marker ++ tail ++ suffix src
       /\ endswith (marked_stem src marker) marker = true
       /\ (tail = []
           \/ exists i, (2 <= i)%nat /\ tail = c_us :: str_of_nat i
              /\ path_exists w (with_name src (marked_stem src marker ++ suffix src)) = true
              /\ forall k, (2 <= k < i)%nat ->
                   path_exists w (with_name src
                     (output_name src (marked_stem src marker) k)) = true).
Proof.
  intros src marker w.
  assert (H1 : is_segment (name src) = true) by (vm_compute; reflexivity).
  assert (H2 : Forall (fun c => c <> c_slash) marker)
    by (repeat constructor; discriminate).
  split; [exact H1|]. split; [exact H2|].
  exact (suffixed_output_path_fresh w src marker H1 H2).
Defined.

Lemma startswith_prefix s k : startswith s k = true -> exists r, s = k ++ r.
Proof.
  revert s. induction k as [|a k IH]; intros s H; [exists s; reflexivity|].
  destruct s as [|b s]; [discriminate|]. simpl in H.
  apply andb_true_iff in H. destruct H as [E H]. apply N.eqb_eq in E. subst b.
  destruct (IH s H) as (r & ->). exists r. reflexivity.
Qed.

Lemma first_sep sep (s : str) :
  In sep s -> exists a b, s = a ++ sep :: b /\ Forall (fun c => c <> sep) a.
Proof.
  induction s as [|c s IH]; intros H; [destruct H|].
  destruct (N.eq_dec c sep) as [->|Hc].
  - exists [], s. split; [reflexivity|constructor].
  - destruct H as [H|H]; [congruence|].
    destruct (IH H) as (a & b & -> & Ha).
    exists (c :: a), b. split; [reflexivity|constructor; assumption].
Qed.

Lemma split_on_app_sep sep a b :
  Forall (fun c => c <> sep) a -> split_on sep (a ++ sep :: b) = a :: split_on sep b.
Proof.
  induction 1 as [|c a Hc Ha IH]; simpl.
  - rewrite N.eqb_refl. reflexivity.
  - apply N.eqb_neq in Hc. rewrite Hc, IH. reflexivity.
Qed.

(** The last piece of a split text ends with the text's last run without
    separator. *)
Lemma split_on_last sep x e :
  Forall (fun c => c <> sep) e -> exists l y, split_on sep (x ++ e) = l ++ [y ++ e].
Proof.
  intros He. induction x as [|c x (l & y & IH)]; simpl.
  - exists [], []. rewrite split_on_no_sep by assumption. reflexivity.
  - destruct (c =? sep).
    + exists ([] :: l), y. rewrite IH. reflexivity.
    + rewrite IH. destruct l as [|a l]; simpl.
      * exists [], (c :: y). reflexivity.
      * exists ((c :: a) :: l), y. reflexivity.
Qed.

Lemma component_long (x : str) :
  (2 <= length x)%nat -> nonempty x && negb (eqb_str x [c_dot]) = true.
Proof.
  intros H. destruct x as [|a [|b x]]; simpl in H; try lia.
  unfold eqb_str. rewrite bool_decide_eq_false_2 by discriminate. reflexivity.
Qed.

(** X13: a marker with "/" in it, for a table with an extension, makes
    [suffixed_output_path] raise ValueError, whatever the directory holds. *)
Theorem marker_with_slash_raises (w : World) (src_path : Path) (marker : str) :
  is_segment (name src_path) = true ->
  nonempty (suffix src_path) = true ->
  In c_slash marker ->
  suffixed_output_path w src_path marker = None.
Proof.
  intros (Hn & Hs & _)%is_segment_spec Hext Hin.
  pose proof (stem_nonempty src_path Hn) as Hst.
  rewrite name_stem_suffix in Hs.
  apply List.Forall_app in Hs. destruct Hs as [Hs1 Hs2].
  assert (Hlen : (2 <= length (suffix src_path))%nat).
  { destruct (suffix_length src_path) as [E|E]; [rewrite E in Hext; discriminate|exact E]. }
  assert (Hend : endswith (stem src_path) marker = false).
  { destruct (endswith (stem src_path) marker) eqn:E; [exfalso|reflexivity].
    apply startswith_prefix in E. destruct E as (r & E).
    rewrite List.Forall_forall in Hs1. apply (Hs1 c_slash); [|reflexivity].
    apply List.in_rev. rewrite E. apply in_or_app. left.
    apply List.in_rev in Hin. exact Hin. }
  destruct (first_sep c_slash marker Hin) as (m1 & m2 & -> & Hm1).
  unfold suffixed_output_path, with_name_checked, marked_stem. rewrite Hend.
  replace (valid_name
             ((stem src_path ++ [c_us] ++ m1 ++ c_slash :: m2) ++ suffix src_path))
    with false; [rewrite andb_false_r; reflexivity|].
  symmetry. unfold valid_name. apply andb_false_iff. right.
  apply Nat.eqb_neq. unfold components.
  replace ((stem src_path ++ [c_us] ++ m1 ++ c_slash :: m2) ++ suffix src_path)
    with ((stem src_path ++ [c_us] ++ m1) ++ c_slash :: (m2 ++ suffix src_path))
    by (rewrite <- !app_assoc; reflexivity).
  rewrite split_on_app_sep
    by (repeat (apply List.Forall_app; split); try assumption;
        constructor; [discriminate|constructor]).
  destruct (split_on_last c_slash m2 (suffix src_path) Hs2) as (l & y & ->).
  cbn [List.filter]. rewrite component_long
    by (rewrite !length_app; destruct (stem src_path); [congruence|simpl; lia]).
  rewrite List.filter_app. cbn [List.filter].
  rewrite component_long by (rewrite length_app; lia).
  cbn [length]. rewrite length_app. simpl. lia.
Qed.

Lemma marker_with_slash_raises_witness :
  let src := joinpath {| anchor := [c_slash]; parts := [lit "img"] |} (lit "book.xlsx") in
  let marker := lit "2024/05" in
  let w := {| nodes := <[src := File []]> ∅; locked := ∅; unreadable := ∅ |} in
  is_segment (name src) = true
  /\ nonempty (suffix src) = true
  /\ In c_slash marker
  /\ suffixed_output_path w src marker = None.
Proof.
  intros src marker w.
  assert (H1 : is_segment (name src) = true) by (vm_compute; reflexivity).
  assert (H2 : nonempty (suffix src) = true) by (vm_compute; reflexivity).
  assert (H3 : In c_slash marker) by (vm_compute; tauto).
  split; [exact H1|]. split; [exact H2|]. split; [exact H3|].
  exact (marker_with_slash_raises w src marker H1 H2 H3).
Defined.

(** ** Numbered names and the pattern *)

Lemma lower_chars e : Forall ext_char e -> Forall lowered_char (lower e).
Proof.
  induction 1 as [|c e Hc He IH]; [constructor|].
  unfold lower. cbn [flat_map]. apply List.Forall_app. split; [|exact IH].
  unfold lower_char.
  destruct ((65 <=? c) && (c <=? 90)) eqn:E1.
  - apply andb_true_iff in E1. destruct E1 as [L1 L2].
    apply N.leb_le in L1, L2. constructor; [|constructor].
    unfold lowered_char. lia.
  - destruct (c =? 0x130) eqn:E2.
    + constructor; [unfold lowered_char; lia|].
      constructor; [unfold lowered_char; lia|constructor].
    + apply N.eqb_neq in E2. constructor; [|constructor].
      unfold ext_char in Hc. unfold lowered_char. lia.
Qed.

Lemma lower_nonempty e : e <> [] -> lower e <> [].
Proof.
  destruct e as [|c e]; [congruence|]. intros _.
  unfold lower. cbn [flat_map]. unfold lower_char.
  destruct ((65 <=? c) && (c <=? 90)); [discriminate|].
  destruct (c =? 0x130); discriminate.
Qed.

Lemma lowered_char_plain c :
  lowered_char c -> is_space c = false /\ not_banned c /\ c <> c_dot.
Proof.
  intros H. repeat split.
  - destruct (is_space c) eqn:Hs; [|reflexivity].
    apply is_space_spec in Hs. unfold lowered_char in H. lia.
  - unfold lowered_char in H. unfold c_fullwidth_us. lia.
  - unfold lowered_char in H. unfold c_middle_dot. lia.
  - unfold lowered_char in H. unfold c_katakana_dot. lia.
  - unfold lowered_char in H. unfold c_dot. lia.
Qed.

Lemma decimal_plain c :
  48 <= c <= 57 -> is_digit c = true /\ is_space c = false /\ not_banned c.
Proof.
  intros H.
  assert (Hd : is_digit c = true).
  { assert (E : c = 48 \/ c = 49 \/ c = 50 \/ c = 51 \/ c = 52 \/ c = 53
                \/ c = 54 \/ c = 55 \/ c = 56 \/ c = 57) by lia.
    repeat (destruct E as [->|E]; [vm_compute; reflexivity|]).
    subst c. vm_compute. reflexivity. }
  split; [exact Hd|]. split; [apply digit_not_space, Hd|].
  unfold not_banned, c_fullwidth_us, c_middle_dot, c_katakana_dot. lia.
Qed.

(** A text in normal form that runs up to a digit stays in normal form
    when plain characters follow the digit instead. *)
Lemma clean_stem_tail x a rest t :
  clean (x ++ [a] ++ rest) -> head_ok (x ++ [a]) -> t <> [] ->
  is_space a = false ->
  Forall (fun c => is_space c = false /\ not_banned c) t ->
  clean (x ++ [a] ++ t).
Proof.
  intros (B & U & D & _ & _) Hh Ht Ha Hp.
  assert (Hsp : Forall (fun c => is_space c = false) (a :: t)).
  { constructor; [exact Ha|].
    eapply List.Forall_impl; [|exact Hp]. intros c [H _]. exact H. }
  assert (Hnb : Forall not_banned t)
    by (eapply List.Forall_impl; [|exact Hp]; intros c [_ H]; exact H).
  rewrite app_assoc in B, U, D.
  repeat split.
  - apply List.Forall_app in B. destruct B as [B _].
    rewrite app_assoc. apply List.Forall_app. split; [exact B|exact Hnb].
  - apply chain_join; [eapply chain_app_l, U|].
    apply chain_no_space; [apply okU_no_space|exact Hsp].
  - apply chain_join; [eapply chain_app_l, D|].
    apply chain_no_space; [intros; apply okD_no_space; assumption|exact Hsp].
  - destruct x; simpl in *; assumption.
  - rewrite app_assoc. apply head_ok_rev_app; [exact Ht|].
    inversion Hsp; assumption.
Qed.

(** The stem of the canonical name, followed by plain characters, is in
    normal form. *)
Lemma canonical_stem_clean name p t :
  parse_filename name = Some p -> t <> [] ->
  Forall (fun c => is_space c = false /\ not_banned c) t ->
  clean ((p_date p ++ [c_us] ++ p_content p ++ [c_us] ++ p_char p ++ [c_us]
          ++ p_face p ++ [c_us] ++ p_middle p ++ [c_us] ++ p_num p) ++ t).
Proof.
  intros Hp Ht Hpl.
  destruct (parse_filename_sound _ _ Hp)
    as (between & e & nl & Hn & _ & Hd & _ & _ & _ & _ & Hnum & _).
  pose proof (normalize_clean name) as Hc. rewrite Hn in Hc.
  destruct p as [d c h f m n e']. simpl in *.
  apply digitsb_5_inv in Hnum.
  destruct Hnum as (a1 & a2 & a3 & a4 & a5 & -> & _ & _ & _ & _ & Ha5).
  set (x := d ++ [c_us] ++ c ++ [c_us] ++ h ++ [c_us] ++ f ++ [c_us] ++ m
            ++ [c_us] ++ [a1; a2; a3; a4]).
  assert (E1 : forall r, d ++ c_us :: c ++ c_us :: h ++ c_us :: f ++ c_us :: m
                         ++ c_us :: [a1; a2; a3; a4; a5] ++ r
                         = x ++ [a5] ++ r).
  { intros r. unfold x. repeat (progress (rewrite <- ?app_assoc; simpl)).
    reflexivity. }
  replace ((d ++ c_us :: c ++ c_us :: h ++ c_us :: f ++ c_us :: m
              ++ [c_us; a1; a2; a3; a4; a5]) ++ t)
    with (x ++ [a5] ++ t)
    by (rewrite <- E1; repeat (progress (rewrite <- ?app_assoc; simpl)); reflexivity).
  apply (clean_stem_tail x a5 (between ++ [c_dot] ++ e ++ nl)); auto.
  - rewrite <- E1. unfold spell in Hc.
    repeat (progress (rewrite <- ?app_assoc in Hc; simpl in Hc)).
    exact Hc.
  - apply digitsb_spec in Hd. destruct Hd as [Hl Hd].
    destruct d as [|d1 d]; [discriminate|]. inversion Hd; subst.
    simpl. apply digit_not_space. assumption.
  - apply digit_not_space, Ha5.
Qed.

Lemma rfind_dot_none e : Forall (fun c => c <> c_dot) e -> rfind_dot e = None.
Proof.
  induction 1 as [|c e Hc He IH]; [reflexivity|].
  simpl. rewrite IH. apply N.eqb_neq in Hc. rewrite Hc. reflexivity.
Qed.

Lemma rfind_dot_last a e :
  Forall (fun c => c <> c_dot) e -> rfind_dot (a ++ c_dot :: e) = Some (length a).
Proof.
  intros He. induction a as [|c a IH]; simpl.
  - rewrite rfind_dot_none by assumption. reflexivity.
  - rewrite IH. reflexivity.
Qed.

(** Stem and suffix of a name with text before and after its last dot. *)
Lemma stem_suffix_dot p a e :
  name p = a ++ c_dot :: e -> a <> [] -> e <> [] ->
  Forall (fun c => c <> c_dot) e ->
  stem p = a /\ suffix p = c_dot :: e.
Proof.
  intros Hn Ha He Hd. unfold stem, suffix, suffix_at. rewrite Hn.
  rewrite rfind_dot_last by assumption.
  replace (Nat.ltb 0 (length a)
           && Nat.ltb (length a) (length (a ++ c_dot :: e) - 1)) with true.
  - split; [apply take_app_length|apply drop_app_length].
  - symmetry. apply andb_true_iff. rewrite length_app. simpl.
    split; apply Nat.ltb_lt; destruct a, e; simpl; try congruence; lia.
Qed.

Lemma str_of_nat_short i : (i < 100 * 100)%nat -> (length (str_of_nat i) < 5)%nat.
Proof.
  intros Hi.
  assert (H : forallb (fun i => Nat.ltb (length (str_of_nat i)) 5) (seq 0 (100 * 100)) = true)
    by (vm_compute; reflexivity).
  rewrite forallb_forall in H. apply Nat.ltb_lt, H, List.in_seq.
  split; [apply Nat.le_0_l|exact Hi].
Qed.

Lemma str_of_nat_nonempty i : str_of_nat i <> [].
Proof.
  unfold str_of_nat. intros H.
  destruct (Nat.to_uint i) eqn:U; try discriminate H.
  pose proof (DecimalNat.Unsigned.of_to i) as T. rewrite U in T. simpl in T. subst i.
  discriminate U.
Qed.

(** A text that ends with an underscore and fewer digits than [n] has does
    not end with the digits [n]. *)
Lemma short_digits_end (x ds y n : str) :
  Forall (fun c => is_digit c = true) n -> (length ds < length n)%nat ->
  x ++ c_us :: ds = y ++ n -> False.
Proof.
  intros Hn Hl H. apply (f_equal (@rev N)) in H.
  rewrite !rev_app_distr in H. simpl in H. rewrite <- app_assoc in H. simpl in H.
  assert (H1 : (rev ds ++ c_us :: rev x) !! length (rev ds) = Some c_us)
    by apply list_lookup_middle, eq_refl.
  rewrite H in H1. rewrite lookup_app_l in H1
    by (rewrite !length_rev; exact Hl).
  apply Forall_rev in Hn. rewrite List.Forall_forall in Hn.
  apply list_elem_of_lookup_2, list_elem_of_In, Hn in H1.
  apply digit_not_us in H1. congruence.
Qed.

Lemma digit_end_not_us (x ds y : str) :
  Forall (fun c => is_digit c = true) ds -> ds <> [] ->
  x ++ c_us :: ds = y ++ [c_us] -> False.
Proof.
  intros Hd Hn H. destruct (exists_last Hn) as (l & z & ->).
  change (x ++ c_us :: l ++ [z]) with (x ++ (c_us :: l) ++ [z]) in H.
  rewrite app_assoc in H. apply app_inj_tail in H. destruct H as [_ ->].
  apply List.Forall_app in Hd. destruct Hd as [_ Hd]. inversion Hd; subst.
  apply digit_not_us in H1. congruence.
Qed.

(** X14: the name that [ensure_unique_path] makes of a canonical name with
    a number below 10000 is not accepted by [parse_filename]. *)
Theorem numbered_name_unmatched (name0 : str) (q : parsed) (p : Path) (i : nat) :
  parse_filename name0 = Some q ->
  name p = build_canonical_name q ->
  (i < 100 * 100)%nat ->
  parse_filename (name (candidate p i)) = None.
Proof.
  intros Hq Hname Hi.
  destruct (parse_filename_sound _ _ Hq)
    as (between & e & nl & _ & Hext & Hd & _ & _ & _ & _ & Hnum & He).
  pose proof (lower_chars e (is_ext_chars e He)) as Hlow.
  pose proof (lower_nonempty e (is_ext_nonempty e He)) as Hlne.
  rewrite <- Hext in Hlow, Hlne.
  set (a := p_date q ++ [c_us] ++ p_content q ++ [c_us] ++ p_char q ++ [c_us]
            ++ p_face q ++ [c_us] ++ p_middle q ++ [c_us] ++ p_num q).
  assert (Hc : build_canonical_name q = a ++ c_dot :: p_ext q).
  { unfold build_canonical_name, a.
    repeat (progress (rewrite <- ?app_assoc; simpl)). reflexivity. }
  assert (Hnd : Forall (fun c => c <> c_dot) (p_ext q)).
  { eapply List.Forall_impl; [|exact Hlow]. intros c Hcl.
    apply lowered_char_plain in Hcl. tauto. }
  assert (Ha : a <> []).
  { unfold a. apply digitsb_spec in Hd. destruct Hd as [Hl _].
    destruct (p_date q); discriminate. }
  rewrite Hc in Hname.
  destruct (stem_suffix_dot p a (p_ext q) Hname Ha Hlne Hnd) as [Hst Hsu].
  unfold candidate. rewrite name_with_name, Hst, Hsu.
  set (ds := str_of_nat i).
  assert (Hds : Forall (fun c => 48 <= c <= 57) ds) by apply str_of_nat_digits.
  assert (Hdd : Forall (fun c => is_digit c = true) ds).
  { eapply List.Forall_impl; [|exact Hds]. intros c Hcd.
    apply decimal_plain in Hcd. tauto. }
  assert (Hclean : clean (a ++ [c_us] ++ ds ++ c_dot :: p_ext q)).
  { apply (canonical_stem_clean name0 q); [exact Hq|discriminate|].
    constructor; [split; [reflexivity|repeat split; discriminate]|].
    apply List.Forall_app. split.
    - eapply List.Forall_impl; [|exact Hds]. intros c Hcd.
      apply decimal_plain in Hcd. tauto.
    - constructor; [split; [reflexivity|repeat split; discriminate]|].
      eapply List.Forall_impl; [|exact Hlow]. intros c Hcl.
      apply lowered_char_plain in Hcl. tauto. }
  unfold parse_filename. rewrite normalize_id by exact Hclean.
  destruct (NAME_RE (a ++ [c_us] ++ ds ++ c_dot :: p_ext q)) as [g|] eqn:Hg;
    [exfalso|reflexivity].
  apply NAME_RE_sound in Hg. destruct Hg as (t & Hs & _ & _ & _ & _ & _ & Ht).
  apply name_tail_sound in Ht.
  destruct Ht as (mid & nl' & -> & Hn & Hmid & Hnl & He').
  set (y := g_date g ++ [c_us] ++ g_content g ++ [c_us] ++ g_char g ++ [c_us]
            ++ g_face g ++ [c_us] ++ g_middle g) in *.
  assert (Hs' : (a ++ c_us :: ds) ++ c_dot :: p_ext q
                = (y ++ c_us :: g_num g ++ mid) ++ c_dot :: (g_ext g ++ nl')).
  { transitivity (a ++ [c_us] ++ ds ++ c_dot :: p_ext q);
      [rewrite <- app_assoc; reflexivity|].
    rewrite Hs. unfold y.
    repeat (progress (rewrite <- ?app_assoc; simpl)). reflexivity. }
  apply split_last_dot in Hs'; [|exact Hnd|].
  - destruct Hs' as [Hs' _].
    pose proof (str_of_nat_short i Hi) as Hshort. fold ds in Hshort.
    apply digitsb_spec in Hn. destruct Hn as [Hl5 Hn5].
    destruct Hmid as [| |z Hz|z Hz].
    + rewrite app_nil_r in Hs'.
      change (y ++ c_us :: g_num g) with (y ++ [c_us] ++ g_num g) in Hs'.
      rewrite app_assoc in Hs'.
      apply (short_digits_end _ _ _ _ Hn5) in Hs'; [exact Hs'|lia].
    + change (y ++ c_us :: g_num g ++ [c_us])
        with (y ++ (c_us :: g_num g) ++ [c_us]) in Hs'.
      rewrite app_assoc in Hs'.
      apply digit_end_not_us in Hs'; [exact Hs'|exact Hdd|apply str_of_nat_nonempty].
    + apply digitsb_spec in Hz. destruct Hz as [Hlz Hz].
      replace (y ++ c_us :: g_num g ++ c_us :: z)
        with ((y ++ c_us :: g_num g ++ [c_us]) ++ z) in Hs'
        by (repeat (progress (rewrite <- ?app_assoc; simpl)); reflexivity).
      apply (short_digits_end _ _ _ _ Hz) in Hs'; [exact Hs'|lia].
    + replace (y ++ c_us :: g_num g ++ c_us :: z ++ [c_us])
        with ((y ++ c_us :: g_num g ++ c_us :: z) ++ [c_us]) in Hs'
        by (repeat (progress (rewrite <- ?app_assoc; simpl)); reflexivity).
      apply digit_end_not_us in Hs'; [exact Hs'|exact Hdd|apply str_of_nat_nonempty].
  - apply List.Forall_app. split; [apply is_ext_no_dot, He'|].
    destruct Hnl as [->| ->]; [constructor|].
    constructor; [discriminate|constructor].
Qed.

Lemma numbered_name_unmatched_witness :
  let n := lit "20240102_illustA_charX_faceY_poseZ_00017.png" in
  let q := {| p_date := lit "20240102"; p_content := lit "illustA";
              p_char := lit "charX"; p_face := lit "faceY";
              p_middle := lit "poseZ"; p_num := lit "00017";
              p_ext := lit "png" |} in
  let p := joinpath {| anchor := [c_slash]; parts := [lit "img"] |} n in
  parse_filename n = Some q
  /\ name p = build_canonical_name q
  /\ (2 < 100 * 100)%nat
  /\ name (candidate p 2) = lit "20240102_illustA_charX_faceY_poseZ_00017_2.png"
  /\ parse_filename (name (candidate p 2)) = None.
Proof.
  intros n q p.
  assert (H1 : parse_filename n = Some q) by (vm_compute; reflexivity).
  assert (H2 : name p = build_canonical_name q) by (vm_compute; reflexivity).
  assert (H3 : (2 < 100 * 100)%nat) by (apply Nat.ltb_lt; reflexivity).
  split; [exact H1|]. split; [exact H2|]. split; [exact H3|].
  split; [vm_compute; reflexivity|].
  exact (numbered_name_unmatched n q p 2 H1 H2 H3).
Defined.

(** ** Writing the result back to the table *)

Lemma find_app_l {A} (f : A -> bool) l k x :
  List.find f l = Some x -> List.find f (l ++ k) = Some x.
Proof.
  induction l as [|a l IH]; simpl; [discriminate|].
  destruct (f a); [intros H; exact H|exact IH].
Qed.

Lemma dict_get_setdefault {V} k k' (v : V) d :
  dict_get k (dict_setdefault k' v d)
  = match dict_get k d with
    | Some x => Some x
    | None => if eqb_str k k' then Some v else None
    end.
Proof.
  unfold dict_setdefault. destruct (dict_get k' d) as [x|] eqn:E.
  - destruct (dict_get k d) eqn:E'; [reflexivity|].
    destruct (eqb_str k k') eqn:Hk; [|reflexivity].
    apply eqb_str_spec in Hk. congruence.
  - unfold dict_get. rewrite find_snoc. cbn [fst].
    destruct (List.find (fun kv => eqb_str k (fst kv)) d); [reflexivity|].
    destruct (eqb_str k k'); reflexivity.
Qed.

Lemma stem_map_get k records d :
  dict_get k (fold_left (fun d p => dict_setdefault (stem p) p d) records d)
  = match dict_get k d with
    | Some p => Some p
    | None => List.find (fun p => eqb_str k (stem p)) records
    end.
Proof.
  revert d. induction records as [|p records IH]; intros d; simpl.
  - destruct (dict_get k d); reflexivity.
  - rewrite IH, dict_get_setdefault.
    destruct (dict_get k d); [reflexivity|].
    destruct (eqb_str k (stem p)); reflexivity.
Qed.

Lemma stem_map_find prefix records d :
  List.find (fun kv => startswith (fst kv) prefix)
    (fold_left (fun d p => dict_setdefault (stem p) p d) records d)
  = match List.find (fun kv => startswith (fst kv) prefix) d with
    | Some kv => Some kv
    | None => option_map (fun p => (stem p, p))
                (List.find (fun p => startswith (stem p) prefix) records)
    end.
Proof.
  revert d. induction records as [|p records IH]; intros d; simpl.
  - destruct (List.find _ d); reflexivity.
  - rewrite IH. unfold dict_setdefault.
    destruct (List.find (fun kv => startswith (fst kv) prefix) d) as [kv|] eqn:E.
    + destruct (dict_get (stem p) d); [rewrite E; reflexivity|].
      rewrite (find_app_l _ _ _ _ E). reflexivity.
    + destruct (dict_get (stem p) d) as [x|] eqn:G.
      * rewrite E. destruct (startswith (stem p) prefix) eqn:S; [|reflexivity].
        exfalso. unfold dict_get in G.
        destruct (List.find (fun kv => eqb_str (stem p) (fst kv)) d) as [kv|] eqn:F;
          [|discriminate].
        apply List.find_some in F. destruct F as [Hin Hk].
        apply eqb_str_spec in Hk.
        apply (List.find_none _ _ E) in Hin. cbv beta in Hin. congruence.
      * rewrite find_snoc, E. cbn [fst].
        destruct (startswith (stem p) prefix); reflexivity.
Qed.

(** X15: a row is given the first placed file whose stem is the row's key,
    and otherwise the first placed file whose stem starts with the key. *)
Theorem record_for_first_match (moved_records : list Path) (prefix : str) :
  record_for (build_stem_map moved_records) prefix
  = match List.find (fun p => eqb_str prefix (stem p)) moved_records with
    | Some p => Some p
    | None => List.find (fun p => startswith (stem p) prefix) moved_records
    end.
Proof.
  unfold record_for, build_stem_map.
  rewrite stem_map_get, stem_map_find. cbn [dict_get List.find option_map].
  destruct (List.find (fun p => eqb_str prefix (stem p)) moved_records);
    [reflexivity|].
  destruct (List.find (fun p => startswith (stem p) prefix) moved_records);
    reflexivity.
Qed.
